(** * The SIMT simulator of xtoazt/qwglm: a shallow embedding

    The development follows the TypeScript sources under
    [lib/gpu-simulator]: the instruction decoder, the execution unit, the
    register file, the direct-mapped cache, the memory controller, the
    thread scheduler, the instruction implementations and the execution
    engine.  Every definition is a transcription of the source function
    of the same name; state that the classes keep in private fields is
    passed explicitly, and a JavaScript exception is the [None] of an
    [option] result. *)

From Stdlib Require Import ZArith Lia Bool List QArith Permutation.
From stdpp Require Import gmap list.

Local Open Scope Z_scope.

(** ** JavaScript numbers, as far as the simulator uses them

    Every number the simulator stores is an integer of magnitude below
    2^32, or [undefined] (a hole of an array, an absent field).  A
    [value] is such a stored item. *)

Module JS.

Definition value := option Z.
Definition undefined : value := None.

(** ToUint32 and ToInt32 of ECMAScript, on integers. *)
Definition ToUint32 (x : Z) : Z := x mod 2 ^ 32.
Definition ToInt32 (x : Z) : Z :=
  let u := x mod 2 ^ 32 in if u <? 2 ^ 31 then u else u - 2 ^ 32.

(** ToNumber of [undefined] is NaN, and the integer conversions send NaN
    to 0. *)
Definition int32_of (v : value) : Z :=
  match v with Some x => ToInt32 x | None => 0 end.
Definition uint32_of (v : value) : Z :=
  match v with Some x => ToUint32 x | None => 0 end.

(** [x >>> n], [x >> n], [x << n]: the count is taken modulo 32. *)
Definition ushr (x n : Z) : Z := Z.shiftr (ToUint32 x) (n mod 32).
Definition sar (x n : Z) : Z := Z.shiftr (ToInt32 x) (n mod 32).
Definition shl (x n : Z) : Z := ToInt32 (Z.shiftl (ToInt32 x) (n mod 32)).

(** [x & y], [x | y], [x ^ y]: on the signed 32-bit readings. *)
Definition band (x y : Z) : Z := Z.land (ToInt32 x) (ToInt32 y).
Definition bor (x y : Z) : Z := Z.lor (ToInt32 x) (ToInt32 y).
Definition bxor (x y : Z) : Z := Z.lxor (ToInt32 x) (ToInt32 y).

(** [x % y] for a non-zero [y]: the remainder has the sign of [x]. *)
Definition rem (x y : Z) : Z := Z.rem x y.

(** The double nearest to an integer (ties to even): the identity below
    2^53, a 53-bit mantissa above. *)
Definition fl (z : Z) : Z :=
  let a := Z.abs z in
  if a <? 2 ^ 53 then z
  else
    let e := Z.log2 a - 52 in
    let q := Z.shiftr a e in
    let r := a - Z.shiftl q e in
    let half := Z.shiftl 1 (e - 1) in
    let q' := if r <? half then q
              else if half <? r then q + 1
              else if Z.even q then q else q + 1 in
    Z.sgn z * Z.shiftl q' e.

(** A JavaScript array: its [length] and its own properties at integer
    keys.  An assignment past the end extends the array; the keys
    outside [0, 2^32 - 1) are ordinary properties and leave the length
    alone.  Storing [undefined] reads back as [undefined], like a hole. *)
Record array := mkArray { length : Z; elems : gmap Z Z }.

Definition get (a : array) (i : Z) : value := elems a !! i.

Definition set (a : array) (i : Z) (v : value) : array :=
  {| length := if (0 <=? i) && (i <? 2 ^ 32 - 1)
               then Z.max (length a) (i + 1) else length a;
     elems := match v with
              | Some x => <[i := x]> (elems a)
              | None => delete i (elems a)
              end |}.

(** The indices [lo, lo + n). *)
Fixpoint indices (lo : Z) (n : nat) : list Z :=
  match n with
  | O => []
  | S k => lo :: indices (lo + 1) k
  end.

(** [a.fill(v)]: every index below the length is assigned. *)
Definition fill (a : array) (v : Z) : array :=
  {| length := length a;
     elems := foldr (fun i m => <[i := v]> m) (elems a)
                    (indices 0 (Z.to_nat (length a))) |}.

(** [new Array(n).fill(v)]. *)
Definition filled (n v : Z) : array := fill (mkArray n ∅) v.

(** [[...xs]] read at an index: a dense list, [undefined] elsewhere. *)
Definition nth (xs : list Z) (i : Z) : value :=
  if i <? 0 then None else xs !! Z.to_nat i.

End JS.

(** ** types.ts *)

(** The operation names the sources switch on.  The decoder produces the
    first eighteen; [SHL], [SHR] and [SRA] are further cases of
    [ExecutionUnit.executeALU]. *)
Inductive Opcode :=
  | NOP | CONST | ADD | SUB | MUL | DIV | AND | OR | XOR | LDR | STR
  | BR | BRz | BRnz | BRn | BRp | CMP | RET | SHL | SHR | SRA.

(** An [Instruction]: the optional fields are [None] when absent. *)
Record Instruction := mkInstruction {
  opcode : Opcode;
  rd : option Z;
  rs1 : option Z;
  rs2 : option Z;
  immediate : option Z
}.

(** ** instruction-set/decoder.ts *)

Module InstructionDecoder.

(** The table of [opcodeToString]. *)
Definition opcodes : list (Z * Opcode) :=
  [ (0x00, NOP); (0x01, CONST); (0x02, ADD); (0x03, SUB); (0x04, MUL);
    (0x05, DIV); (0x06, AND); (0x07, OR); (0x08, XOR); (0x09, LDR);
    (0x0a, STR); (0x0b, BR); (0x0c, BRz); (0x0d, BRnz); (0x0e, BRn);
    (0x0f, BRp); (0x10, CMP); (0x11, RET) ].

Fixpoint lookup_opcode (tbl : list (Z * Opcode)) (n : Z) : option Opcode :=
  match tbl with
  | [] => None
  | (k, op) :: rest => if k =? n then Some op else lookup_opcode rest n
  end.

(** [opcodes[opcode] || 'NOP'] *)
Definition opcodeToString (n : Z) : Opcode :=
  match lookup_opcode opcodes n with
  | Some op => op
  | None => NOP
  end.

(** The fetched word may be [undefined] (a fetch outside the program):
    the shifts and masks coerce it to 0. *)
Definition word_of (instruction : JS.value) : Z :=
  match instruction with Some w => w | None => 0 end.

Definition getOpcodeNum (instruction : JS.value) : Z :=
  JS.band (JS.ushr (word_of instruction) 24) 0xff.

Definition getOpcode (instruction : JS.value) : Opcode :=
  opcodeToString (getOpcodeNum instruction).

Definition getRd (instruction : JS.value) : Z :=
  JS.band (JS.ushr (word_of instruction) 20) 0xf.

Definition getRs1 (instruction : JS.value) : Z :=
  JS.band (JS.ushr (word_of instruction) 16) 0xf.

Definition getRs2 (instruction : JS.value) : Z :=
  JS.band (JS.ushr (word_of instruction) 12) 0xf.

Definition getImmediate (instruction : JS.value) : Z :=
  let imm := JS.band (word_of instruction) 0xffff in
  if JS.band imm 0x8000 =? 0 then imm else JS.bor imm 0xffff0000.

Definition decode (instruction : JS.value) : Instruction :=
  let op := getOpcode instruction in
  match op with
  | CONST =>
      mkInstruction CONST (Some (getRd instruction)) None None
                    (Some (getImmediate instruction))
  | ADD | SUB | MUL | DIV | AND | OR | XOR =>
      mkInstruction op (Some (getRd instruction)) (Some (getRs1 instruction))
                    (Some (getRs2 instruction)) None
  | LDR | STR =>
      mkInstruction op (Some (getRd instruction)) (Some (getRs1 instruction))
                    None (Some (getImmediate instruction))
  | BR | BRz | BRnz | BRn | BRp =>
      mkInstruction op None (Some (getRs1 instruction)) None
                    (Some (getImmediate instruction))
  | CMP =>
      mkInstruction CMP None (Some (getRs1 instruction))
                    (Some (getRs2 instruction)) None
  | RET => mkInstruction RET None None None None
  | _ => mkInstruction NOP None None None None
  end.

End InstructionDecoder.

(** ** core/register-file.ts *)

Module RegisterFile.

(** [registers : Map<number, Word[]>], thread id to its registers. *)
Definition t := gmap Z (list JS.value).

Definition numRegisters : Z := 16.

Definition empty : t := ∅.

Definition initializeThread (threadId : Z) (rf : t) : t :=
  match rf !! threadId with
  | Some _ => rf
  | None => <[threadId := replicate (Z.to_nat numRegisters) (Some 0)]> rf
  end.

(** [threadRegs[reg]] under the guard [0 <= reg < 16]. *)
Definition at_reg (regs : list JS.value) (reg : Z) : JS.value :=
  match regs !! Z.to_nat reg with
  | Some v => v
  | None => JS.undefined
  end.

(** [read] allocates the registers of an unknown thread, hence the
    register file in the result. *)
Definition read (threadId reg : Z) (rf : t) : JS.value * t :=
  match rf !! threadId with
  | None => (Some 0, initializeThread threadId rf)
  | Some regs =>
      if (0 <=? reg) && (reg <? numRegisters)
      then (at_reg regs reg, rf)
      else (Some 0, rf)
  end.

Definition write (threadId reg : Z) (v : JS.value) (rf : t) : t :=
  let rf1 := initializeThread threadId rf in
  match rf1 !! threadId with
  | None => rf1
  | Some regs =>
      if (0 <=? reg) && (reg <? numRegisters)
      then <[threadId := <[Z.to_nat reg := v]> regs]> rf1
      else rf1
  end.

(** [getRegisters] returns a copy of the registers; for an unknown thread
    it allocates them and hands out the new array itself.  No function
    reads a thread's snapshot back, so the result here is the contents. *)
Definition getRegisters (threadId : Z) (rf : t) : list JS.value * t :=
  let rf1 := initializeThread threadId rf in
  (match rf1 !! threadId with Some regs => regs | None => [] end, rf1).

Definition clearThread (threadId : Z) (rf : t) : t := delete threadId rf.

Definition clearAll (rf : t) : t := ∅.

End RegisterFile.

(** ** core/execution-unit.ts *)

Module ExecutionUnit.

Record ALUResult := mkALUResult {
  result : Z;
  zero : bool;
  negative : bool;
  overflow : bool
}.

(** [(a + b) >>> 0]; an [undefined] operand makes the sum NaN, and
    [NaN >>> 0] is 0. *)
Definition add (a b : JS.value) : Z :=
  match a, b with
  | Some x, Some y => JS.ToUint32 (x + y)
  | _, _ => 0
  end.

Definition subtract (a b : JS.value) : Z :=
  match a, b with
  | Some x, Some y => JS.ToUint32 (x - y)
  | _, _ => 0
  end.

(** [a * b] is a product of doubles. *)
Definition multiply (a b : JS.value) : Z :=
  match a, b with
  | Some x, Some y => JS.ToUint32 (JS.fl (x * y))
  | _, _ => 0
  end.

(** [Math.floor((a | 0) / (b | 0)) >>> 0].  For 32-bit operands the
    rounding of the quotient never crosses an integer, so the floor is
    that of the exact quotient; a zero divisor gives an infinity or NaN,
    which [>>> 0] sends to 0. *)
Definition divide (a b : JS.value) : Z :=
  match b with
  | Some 0 => 0
  | _ =>
      let x := JS.int32_of a in
      let y := JS.int32_of b in
      if y =? 0 then 0 else JS.ToUint32 (x / y)
  end.

Definition checkAddOverflow (a b : JS.value) (result : Z) : bool :=
  let aSigned := JS.int32_of a in
  let bSigned := JS.int32_of b in
  let resultSigned := JS.ToInt32 result in
  ((0 <? aSigned) && (0 <? bSigned) && (resultSigned <? 0))
  || ((aSigned <? 0) && (bSigned <? 0) && (0 <? resultSigned)).

Definition checkSubOverflow (a b : JS.value) (result : Z) : bool :=
  let aSigned := JS.int32_of a in
  let bSigned := JS.int32_of b in
  let resultSigned := JS.ToInt32 result in
  ((0 <? aSigned) && (bSigned <? 0) && (resultSigned <? 0))
  || ((aSigned <? 0) && (0 <? bSigned) && (0 <? resultSigned)).

Definition checkMulOverflow (a b : JS.value) (result : Z) : bool :=
  let aSigned := JS.int32_of a in
  let bSigned := JS.int32_of b in
  let resultSigned := JS.ToInt32 result in
  let expected := JS.fl (aSigned * bSigned) in
  negb (resultSigned =? expected).

(** The switch of [executeALU] on the two operand values. *)
Definition alu (op : Opcode) (val1 val2 : JS.value) : ALUResult :=
  let '(result, overflow) :=
    match op with
    | ADD => let r := add val1 val2 in (r, checkAddOverflow val1 val2 r)
    | SUB => let r := subtract val1 val2 in (r, checkSubOverflow val1 val2 r)
    | MUL => let r := multiply val1 val2 in (r, checkMulOverflow val1 val2 r)
    | DIV => (divide val1 val2, false)
    | AND => (Z.land (JS.int32_of val1) (JS.int32_of val2), false)
    | OR => (Z.lor (JS.int32_of val1) (JS.int32_of val2), false)
    | XOR => (Z.lxor (JS.int32_of val1) (JS.int32_of val2), false)
    | SHL => (JS.shl (JS.int32_of val1) (Z.land (JS.int32_of val2) 0x1f), false)
    | SHR => (JS.ushr (JS.uint32_of val1) (Z.land (JS.int32_of val2) 0x1f), false)
    | SRA => (JS.sar (JS.int32_of val1) (Z.land (JS.int32_of val2) 0x1f), false)
    | _ => (0, false)
    end in
  {| result := result;
     zero := result =? 0;
     negative := negb (JS.band result 0x80000000 =? 0);
     overflow := overflow |}.

(** [rs2 < 16 ? registerFile.read(threadId, rs2) : rs2] *)
Definition operand2 (threadId rs2 : Z) (rf : RegisterFile.t)
  : JS.value * RegisterFile.t :=
  if rs2 <? 16 then RegisterFile.read threadId rs2 rf else (Some rs2, rf).

Definition executeALU (threadId : Z) (op : Opcode) (rs1 rs2 : Z)
    (rf : RegisterFile.t) : ALUResult * RegisterFile.t :=
  let '(val1, rf1) := RegisterFile.read threadId rs1 rf in
  let '(val2, rf2) := operand2 threadId rs2 rf1 in
  (alu op val1 val2, rf2).

Record Comparison := mkComparison {
  equal : bool;
  less : bool;
  greater : bool
}.

Definition compare (threadId rs1 rs2 : Z) (rf : RegisterFile.t)
  : Comparison * RegisterFile.t :=
  let '(val1, rf1) := RegisterFile.read threadId rs1 rf in
  let '(val2, rf2) := operand2 threadId rs2 rf1 in
  ({| equal := match val1, val2 with
               | Some x, Some y => x =? y
               | None, None => true
               | _, _ => false
               end;
      less := JS.int32_of val1 <? JS.int32_of val2;
      greater := JS.int32_of val2 <? JS.int32_of val1 |}, rf2).

End ExecutionUnit.

(** ** types.ts: the memory configuration and the memory traffic *)

Record MemoryConfig := mkMemoryConfig {
  globalMemorySize : Z;
  cacheSize : Z;
  lineSize : Z;
  latency : Z
}.

Record MemoryRequest := mkMemoryRequest {
  req_address : Z;
  req_data : JS.value;
  req_write : bool;
  req_threadId : Z;
  req_blockId : Z
}.

Record MemoryResponse := mkMemoryResponse {
  resp_data : JS.value;
  resp_valid : bool
}.

(** ** memory/cache.ts

    The configuration is taken with a positive [cacheSize] and [lineSize]
    (with a size of 0 the source's [%] yields NaN). *)

Module Cache.

Record CacheLine := mkCacheLine {
  tag : Z;
  data : JS.array;
  valid : bool;
  dirty : bool
}.

Record t := mkCache {
  lines : list CacheLine;
  config : MemoryConfig;
  hits : Z;
  misses : Z
}.

Definition new (cfg : MemoryConfig) : t :=
  {| lines := replicate (Z.to_nat (cacheSize cfg))
                {| tag := 0; data := JS.filled (lineSize cfg) 0;
                   valid := false; dirty := false |};
     config := cfg;
     hits := 0;
     misses := 0 |}.

(** [this.lines[i]]: [undefined] outside the array. *)
Definition line_at (ls : list CacheLine) (i : Z) : option CacheLine :=
  if i <? 0 then None else ls !! Z.to_nat i.

Definition set_line (ls : list CacheLine) (i : Z) (l : CacheLine)
  : list CacheLine :=
  if i <? 0 then ls else <[Z.to_nat i := l]> ls.

(** [(address >> 2) % cacheSize] *)
Definition getLineIndex (c : t) (address : Z) : Z :=
  JS.rem (JS.sar address 2) (cacheSize (config c)).

(** [address >> (2 + Math.log2(cacheSize))]: the count is truncated to
    an integer, so the logarithm is its floor. *)
Definition getTag (c : t) (address : Z) : Z :=
  JS.sar address (2 + Z.log2 (cacheSize (config c))).

(** [address % lineSize] *)
Definition getOffset (c : t) (address : Z) : Z :=
  JS.rem address (lineSize (config c)).

(** The write-back loop of [loadLine] and of [flush]. *)
Definition writeBack (c : t) (base : Z) (line : CacheLine)
    (memory : JS.array) : JS.array :=
  fold_left
    (fun mem i =>
       if base + i <? JS.length mem
       then JS.set mem (base + i) (JS.get (data line) i)
       else mem)
    (JS.indices 0 (Z.to_nat (lineSize (config c)))) memory.

(** The loading loop of [loadLine]. *)
Definition fetchLine (c : t) (baseAddress : Z) (d : JS.array)
    (memory : JS.array) : JS.array :=
  fold_left
    (fun d i =>
       let addr := baseAddress + i in
       if addr <? JS.length memory
       then JS.set d i (JS.get memory addr)
       else JS.set d i (Some 0))
    (JS.indices 0 (Z.to_nat (lineSize (config c)))) d.

Definition loadLine (address : Z) (c : t) (memory : JS.array)
  : option (t * JS.array) :=
  let lineIndex := getLineIndex c address in
  let tag' := getTag c address in
  let baseAddress := JS.shl (JS.sar address 2) 2 in
  match line_at (lines c) lineIndex with
  | None => None
  | Some line =>
      let memory1 :=
        if valid line && dirty line
        then
          let oldBaseAddress :=
            JS.bor (JS.shl (tag line) 2) (JS.shl lineIndex 2) in
          writeBack c oldBaseAddress line memory
        else memory in
      let line' :=
        {| tag := tag';
           data := fetchLine c baseAddress (data line) memory1;
           valid := true;
           dirty := false |} in
      Some ({| lines := set_line (lines c) lineIndex line';
               config := config c;
               hits := hits c;
               misses := misses c |}, memory1)
  end.

Definition with_hit (c : t) : t :=
  {| lines := lines c; config := config c;
     hits := hits c + 1; misses := misses c |}.

Definition with_miss (c : t) : t :=
  {| lines := lines c; config := config c;
     hits := hits c; misses := misses c + 1 |}.

Definition with_lines (c : t) (ls : list CacheLine) : t :=
  {| lines := ls; config := config c; hits := hits c; misses := misses c |}.

(** [read]: the data, the hit flag, the cache and the memory after the
    call; [None] when [this.lines[lineIndex]] is [undefined] and the
    access to its [valid] field raises. *)
Definition read (address : Z) (c : t) (memory : JS.array)
  : option (JS.value * bool * t * JS.array) :=
  let lineIndex := getLineIndex c address in
  let tag' := getTag c address in
  let offset := getOffset c address in
  match line_at (lines c) lineIndex with
  | None => None
  | Some line =>
      if valid line && (tag line =? tag')
      then Some (JS.get (data line) offset, true, with_hit c, memory)
      else
        match loadLine address (with_miss c) memory with
        | None => None
        | Some (c1, memory1) =>
            match line_at (lines c1) lineIndex with
            | None => None
            | Some line1 =>
                Some (JS.get (data line1) offset, false, c1, memory1)
            end
        end
  end.

(** The tail shared by the two branches of [write]: the word goes into
    the line, the line becomes dirty, and the word goes to memory. *)
Definition store (lineIndex offset address : Z) (v : JS.value)
    (line : CacheLine) (c : t) (memory : JS.array) : t * JS.array :=
  let line' := {| tag := tag line;
                  data := JS.set (data line) offset v;
                  valid := valid line;
                  dirty := true |} in
  (with_lines c (set_line (lines c) lineIndex line'),
   JS.set memory address v).

Definition write (address : Z) (v : JS.value) (c : t) (memory : JS.array)
  : option (bool * t * JS.array) :=
  let lineIndex := getLineIndex c address in
  let tag' := getTag c address in
  let offset := getOffset c address in
  match line_at (lines c) lineIndex with
  | None => None
  | Some line =>
      if valid line && (tag line =? tag')
      then
        let '(c1, memory1) :=
          store lineIndex offset address v line (with_hit c) memory in
        Some (true, c1, memory1)
      else
        match loadLine address (with_miss c) memory with
        | None => None
        | Some (c1, memory1) =>
            match line_at (lines c1) lineIndex with
            | None => None
            | Some line1 =>
                let '(c2, memory2) :=
                  store lineIndex offset address v line1 c1 memory1 in
                Some (true, c2, memory2)
            end
        end
  end.

Definition flushLine (c : t) (acc : list CacheLine * JS.array) (i : Z)
  : list CacheLine * JS.array :=
  let '(ls, memory) := acc in
  match line_at ls i with
  | None => acc
  | Some line =>
      if valid line && dirty line
      then
        let baseAddress := JS.bor (JS.shl (tag line) 2) (JS.shl i 2) in
        let memory1 :=
          fold_left
            (fun mem j =>
               let addr := baseAddress + j in
               if addr <? JS.length mem
               then JS.set mem addr (JS.get (data line) j)
               else mem)
            (JS.indices 0 (Z.to_nat (lineSize (config c)))) memory in
        (set_line ls i {| tag := tag line; data := data line;
                          valid := valid line; dirty := false |}, memory1)
      else acc
  end.

Definition flush (c : t) (memory : JS.array) : t * JS.array :=
  let '(ls, memory1) :=
    fold_left (flushLine c) (JS.indices 0 (List.length (lines c)))
              (lines c, memory) in
  (with_lines c ls, memory1).

Record Stats := mkStats {
  stat_hits : Z;
  stat_misses : Z;
  hitRate : Q
}.

(** [hits / total] is a division of doubles; it is kept here as the
    exact quotient, of which the source's value is the rounding. *)
Definition getStats (c : t) : Stats :=
  let total := hits c + misses c in
  {| stat_hits := hits c;
     stat_misses := misses c;
     hitRate := if 0 <? total then Qmake (hits c) (Z.to_pos total) else 0%Q |}.

Definition resetStats (c : t) : t :=
  {| lines := lines c; config := config c; hits := 0; misses := 0 |}.

End Cache.

(** ** memory/memory-controller.ts *)

Module MemoryController.

Record t := mkMemoryController {
  memory : JS.array;
  config : MemoryConfig;
  pendingRequests : list MemoryRequest;
  responseQueue : gmap Z MemoryResponse
}.

Definition new (cfg : MemoryConfig) : t :=
  {| memory := JS.filled (globalMemorySize cfg) 0;
     config := cfg;
     pendingRequests := [];
     responseQueue := ∅ |}.

Definition with_memory (mc : t) (m : JS.array) : t :=
  {| memory := m; config := config mc;
     pendingRequests := pendingRequests mc;
     responseQueue := responseQueue mc |}.

(** [initialize(data, offset)]: the loop stops at the first index that
    leaves the memory. *)
Fixpoint initialize_from (data : list Z) (at_ : Z) (m : JS.array) : JS.array :=
  match data with
  | [] => m
  | x :: rest =>
      if at_ <? JS.length m
      then initialize_from rest (at_ + 1) (JS.set m at_ (Some x))
      else m
  end.

Definition initialize (data : list Z) (offset : Z) (mc : t) : t :=
  with_memory mc (initialize_from data offset (memory mc)).

Definition request (req : MemoryRequest) (mc : t) : t :=
  {| memory := memory mc; config := config mc;
     pendingRequests := pendingRequests mc ++ [req];
     responseQueue := responseQueue mc |}.

(** [pendingRequests.sort((a, b) => a.address - b.address)]: a stable
    sort, requests of equal address keep their order. *)
Fixpoint insert_sorted (r : MemoryRequest) (l : list MemoryRequest)
  : list MemoryRequest :=
  match l with
  | [] => [r]
  | x :: rest =>
      if req_address r <? req_address x
      then r :: x :: rest
      else x :: insert_sorted r rest
  end.

Definition sort (l : list MemoryRequest) : list MemoryRequest :=
  fold_left (fun acc r => insert_sorted r acc) l [].

Definition canCoalesce (a b : MemoryRequest) : bool :=
  (Z.abs (req_address a - req_address b) <=? 4)
  && Bool.eqb (req_write a) (req_write b).

(** [req.threadId * 1000000 + req.blockId * 10000 + req.address] in the
    arithmetic of doubles: each product and each sum is rounded to the
    nearest double, so above 2^53 different requests can get one id.
    (Magnitudes from 2^1024 on, where the double is an infinity, are
    left out.) *)
Definition getRequestId (req : MemoryRequest) : Z :=
  JS.fl (JS.fl (JS.fl (req_threadId req * 1000000)
                + JS.fl (req_blockId req * 10000))
         + req_address req).

(** What both loops of [processRequests] do with one request: commit a
    write that carries data, then record the response. *)
Definition service (st : JS.array * gmap Z MemoryResponse)
    (req : MemoryRequest) : JS.array * gmap Z MemoryResponse :=
  let '(mem, responses) := st in
  let mem1 :=
    match req_write req, req_data req with
    | true, Some x => JS.set mem (req_address req) (Some x)
    | _, _ => mem
    end in
  let d := if req_write req then req_data req
           else JS.get mem1 (req_address req) in
  (mem1, <[getRequestId req := mkMemoryResponse d true]> responses).

(** The state of the coalescing loop: [current], [coalesced], and the
    memory and responses the merged requests have already touched. *)
Record scan := mkScan {
  current : option MemoryRequest;
  coalesced : list MemoryRequest;
  served : JS.array * gmap Z MemoryResponse
}.

Definition scan_step (s : scan) (req : MemoryRequest) : scan :=
  match current s with
  | Some cur =>
      if canCoalesce cur req
      then {| current := Some cur;
              coalesced := coalesced s;
              served := service (served s) req |}
      else {| current := Some req;
              coalesced := coalesced s ++ [cur];
              served := served s |}
  | None =>
      {| current := Some req;
         coalesced := coalesced s;
         served := served s |}
  end.

Definition finish (s : scan) : list MemoryRequest :=
  match current s with
  | Some cur => coalesced s ++ [cur]
  | None => coalesced s
  end.

Definition processRequests (mc : t) : t :=
  let sorted := sort (pendingRequests mc) in
  let s := fold_left scan_step sorted
             (mkScan None [] (memory mc, responseQueue mc)) in
  let '(mem, responses) := fold_left service (finish s) (served s) in
  {| memory := mem; config := config mc;
     pendingRequests := [];
     responseQueue := responses |}.

Definition getResponse (requestId : Z) (mc : t) : option MemoryResponse * t :=
  match responseQueue mc !! requestId with
  | Some r =>
      (Some r, {| memory := memory mc; config := config mc;
                  pendingRequests := pendingRequests mc;
                  responseQueue := delete requestId (responseQueue mc) |})
  | None => (None, mc)
  end.

Definition read (address : Z) (mc : t) : JS.value :=
  if (0 <=? address) && (address <? JS.length (memory mc))
  then JS.get (memory mc) address
  else Some 0.

Definition write (address : Z) (v : JS.value) (mc : t) : t :=
  if (0 <=? address) && (address <? JS.length (memory mc))
  then with_memory mc (JS.set (memory mc) address v)
  else mc.

Definition getMemory (mc : t) : JS.array := memory mc.

End MemoryController.

(** ** types.ts: threads and blocks

    A thread object is shared by the caller's block and by the warp that
    holds it; the scheduler's warps are where the engine reads and writes
    it, and that is where the model keeps it. *)

Record ThreadState := mkThreadState {
  id : Z;
  blockId : Z;
  pc : Z;
  registers : list JS.value;
  active : bool
}.

Record BlockState := mkBlockState {
  block_id : Z;
  threads : list ThreadState;
  sharedMemory : option (list Z)
}.

Definition with_pc (th : ThreadState) (pc' : Z) : ThreadState :=
  {| id := id th; blockId := blockId th; pc := pc';
     registers := registers th; active := active th |}.

Definition with_registers (th : ThreadState) (regs : list JS.value)
  : ThreadState :=
  {| id := id th; blockId := blockId th; pc := pc th;
     registers := regs; active := active th |}.

Definition with_active (th : ThreadState) (a : bool) : ThreadState :=
  {| id := id th; blockId := blockId th; pc := pc th;
     registers := registers th; active := a |}.

(** ** core/thread-scheduler.ts *)

Module ThreadScheduler.

Record Warp := mkWarp {
  warp_threads : list ThreadState;
  warp_active : bool;
  warp_pc : Z
}.

Record t := mkThreadScheduler {
  warps : list Warp;
  currentWarpIndex : nat;
  cycle : Z
}.

Definition warpSize : nat := 32.

Definition new : t := mkThreadScheduler [] 0 0.

(** [warpThreads[0]?.pc || 0] *)
Definition first_pc (ts : list ThreadState) : Z :=
  match ts with
  | th :: _ => pc th
  | [] => 0
  end.

(** The inner loop of [initializeBlocks]: consecutive slices of 32
    threads; the fuel is the number of threads. *)
Fixpoint split_warps (fuel : nat) (ts : list ThreadState) : list Warp :=
  match fuel with
  | O => []
  | S k =>
      match ts with
      | [] => []
      | _ :: _ =>
          let warpThreads := take warpSize ts in
          mkWarp warpThreads true (first_pc warpThreads)
          :: split_warps k (drop warpSize ts)
      end
  end.

Definition initializeBlocks (blocks : list BlockState) (s : t) : t :=
  {| warps := flat_map (fun b => split_warps (List.length (threads b))
                                             (threads b)) blocks;
     currentWarpIndex := 0;
     cycle := cycle s |}.

Definition has_active (w : Warp) : bool :=
  warp_active w && existsb active (warp_threads w).

(** The round-robin loop of [getNextWarp], [attempts] iterations left.
    The result is the position of the chosen warp and the index the
    scheduler is left with; the outer [None] is the access to an
    [undefined] warp. *)
Fixpoint scan_warps (ws : list Warp) (attempts : nat) (idx : nat)
  : option (option nat * nat) :=
  match attempts with
  | O => Some (None, idx)
  | S k =>
      match ws !! idx with
      | None => None
      | Some warp =>
          let idx' := (S idx mod List.length ws)%nat in
          if has_active warp then Some (Some idx, idx')
          else scan_warps ws k idx'
      end
  end.

Definition getNextWarp (s : t) : option (option nat * t) :=
  match warps s with
  | [] => Some (None, s)
  | _ :: _ =>
      match scan_warps (warps s) (List.length (warps s))
                       (currentWarpIndex s) with
      | None => None
      | Some (found, idx) =>
          Some (found, {| warps := warps s; currentWarpIndex := idx;
                          cycle := cycle s |})
      end
  end.

Definition isWarpDiverged (w : Warp) : bool :=
  match warp_threads w with
  | [] => false
  | th0 :: _ =>
      existsb (fun th => active th && negb (pc th =? pc th0))
              (warp_threads w)
  end.

Definition getActiveThreads (w : Warp) : list ThreadState :=
  filter (fun th => active th = true) (warp_threads w).

Definition updateWarpPC (w : Warp) (newPC : Z) : Warp :=
  {| warp_threads :=
       map (fun th => if active th then with_pc th newPC else th)
           (warp_threads w);
     warp_active := warp_active w;
     warp_pc := newPC |}.

Definition deactivateThread (threadId blockId' : Z) (s : t) : t :=
  {| warps :=
       map (fun w =>
              {| warp_threads :=
                   map (fun th =>
                          if (id th =? threadId) && (blockId th =? blockId')
                          then with_active th false else th)
                       (warp_threads w);
                 warp_active := warp_active w;
                 warp_pc := warp_pc w |})
           (warps s);
     currentWarpIndex := currentWarpIndex s;
     cycle := cycle s |}.

Definition isComplete (s : t) : bool :=
  forallb (fun w => negb (warp_active w)
                    || forallb (fun th => negb (active th)) (warp_threads w))
          (warps s).

Record Stats := mkStats {
  totalWarps : Z;
  activeWarps : Z;
  totalThreads : Z;
  activeThreads : Z
}.

Definition getStats (s : t) : Stats :=
  {| totalWarps := Z.of_nat (List.length (warps s));
     activeWarps := Z.of_nat (List.length (filter (fun w => has_active w = true)
                                                  (warps s)));
     totalThreads :=
       fold_left (fun sum w => sum + Z.of_nat (List.length (warp_threads w)))
                 (warps s) 0;
     activeThreads :=
       fold_left (fun sum w =>
                    sum + Z.of_nat (List.length (getActiveThreads w)))
                 (warps s) 0 |}.

Definition reset (s : t) : t := mkThreadScheduler [] 0 0.

Definition tick (s : t) : t :=
  {| warps := warps s; currentWarpIndex := currentWarpIndex s;
     cycle := cycle s + 1 |}.

Definition getCycle (s : t) : Z := cycle s.

End ThreadScheduler.

(** ** instruction-set/instructions.ts *)

Module Instructions.

(** The parts of the [InstructionContext] an instruction reads or
    changes: the thread, the register file, the cache ([None] is the
    [null] of an engine built with [enableCache: false]) and the global
    memory handed to the cache. *)
Record InstructionContext := mkContext {
  thread : ThreadState;
  registerFile : RegisterFile.t;
  cache : option Cache.t;
  memory : JS.array
}.

Record MemoryAccess := mkMemoryAccess {
  address : Z;
  data : JS.value;
  write : bool
}.

Record InstructionResult := mkResult {
  nextPC : Z;
  shouldBranch : bool;
  memoryAccess : option MemoryAccess
}.

Definition with_registerFile (ctx : InstructionContext)
    (rf : RegisterFile.t) : InstructionContext :=
  {| thread := thread ctx; registerFile := rf;
     cache := cache ctx; memory := memory ctx |}.

(** [{ nextPC: thread.pc + 1, shouldBranch: false }] *)
Definition fallthrough (ctx : InstructionContext) : InstructionResult :=
  mkResult (pc (thread ctx) + 1) false None.

Definition executeCONST (i : Instruction) (ctx : InstructionContext)
  : InstructionResult * InstructionContext :=
  match rd i, immediate i with
  | Some rd', Some imm =>
      (fallthrough ctx,
       with_registerFile ctx
         (RegisterFile.write (id (thread ctx)) rd' (Some imm)
                             (registerFile ctx)))
  | _, _ => (fallthrough ctx, ctx)
  end.

Definition executeALU (i : Instruction) (ctx : InstructionContext)
  : InstructionResult * InstructionContext :=
  match rd i, rs1 i, rs2 i with
  | Some rd', Some rs1', Some rs2' =>
      let '(res, rf1) :=
        ExecutionUnit.executeALU (id (thread ctx)) (opcode i) rs1' rs2'
                                 (registerFile ctx) in
      (fallthrough ctx,
       with_registerFile ctx
         (RegisterFile.write (id (thread ctx)) rd'
                             (Some (ExecutionUnit.result res)) rf1))
  | _, _, _ => (fallthrough ctx, ctx)
  end.

(** [(baseAddr + offset) >>> 0], with [offset = immediate || 0]. *)
Definition effective_address (baseAddr : JS.value) (imm : option Z) : Z :=
  let offset := match imm with Some x => x | None => 0 end in
  match baseAddr with
  | Some b => JS.ToUint32 (b + offset)
  | None => 0
  end.

Definition executeLDR (i : Instruction) (ctx : InstructionContext)
  : option (InstructionResult * InstructionContext) :=
  match rd i, rs1 i with
  | Some rd', Some rs1' =>
      let '(baseAddr, rf1) :=
        RegisterFile.read (id (thread ctx)) rs1' (registerFile ctx) in
      let addr := effective_address baseAddr (immediate i) in
      match cache ctx with
      | None => None
      | Some c =>
          match Cache.read addr c (memory ctx) with
          | None => None
          | Some (d, _, c1, memory1) =>
              Some (mkResult (pc (thread ctx) + 1) false
                             (Some (mkMemoryAccess addr d false)),
                    {| thread := thread ctx;
                       registerFile :=
                         RegisterFile.write (id (thread ctx)) rd' d rf1;
                       cache := Some c1;
                       memory := memory1 |})
          end
      end
  | _, _ => Some (fallthrough ctx, ctx)
  end.

Definition executeSTR (i : Instruction) (ctx : InstructionContext)
  : option (InstructionResult * InstructionContext) :=
  match rs1 i, rs2 i with
  | Some rs1', Some rs2' =>
      let '(baseAddr, rf1) :=
        RegisterFile.read (id (thread ctx)) rs1' (registerFile ctx) in
      let addr := effective_address baseAddr (immediate i) in
      let '(d, rf2) := RegisterFile.read (id (thread ctx)) rs2' rf1 in
      match cache ctx with
      | None => None
      | Some c =>
          match Cache.write addr d c (memory ctx) with
          | None => None
          | Some (_, c1, memory1) =>
              Some (mkResult (pc (thread ctx) + 1) false
                             (Some (mkMemoryAccess addr d true)),
                    {| thread := thread ctx;
                       registerFile := rf2;
                       cache := Some c1;
                       memory := memory1 |})
          end
      end
  | _, _ => Some (fallthrough ctx, ctx)
  end.

(** The condition of a conditional branch on the value of [rs1]. *)
Definition branch_condition (op : Opcode) (v : JS.value) : bool :=
  let isZero := match v with Some 0 => true | _ => false end in
  let isNegative := negb (Z.land (JS.int32_of v) (JS.ToInt32 0x80000000) =? 0) in
  match op with
  | BRz => isZero
  | BRnz => negb isZero
  | BRn => isNegative
  | BRp => negb isNegative && negb isZero
  | _ => false
  end.

Definition executeBranch (i : Instruction) (ctx : InstructionContext)
  : InstructionResult * InstructionContext :=
  let '(taken, ctx1) :=
    match opcode i with
    | BR => (true, ctx)
    | op =>
        match rs1 i with
        | Some rs1' =>
            let '(v, rf1) :=
              RegisterFile.read (id (thread ctx)) rs1' (registerFile ctx) in
            (branch_condition op v, with_registerFile ctx rf1)
        | None => (false, ctx)
        end
    end in
  match taken, immediate i with
  | true, Some imm => (mkResult (pc (thread ctx) + imm) true None, ctx1)
  | _, _ => (fallthrough ctx, ctx1)
  end.

Definition executeCMP (i : Instruction) (ctx : InstructionContext)
  : InstructionResult * InstructionContext :=
  match rs1 i, rs2 i with
  | Some rs1', Some rs2' =>
      let '(_, rf1) :=
        ExecutionUnit.compare (id (thread ctx)) rs1' rs2' (registerFile ctx) in
      (fallthrough ctx, with_registerFile ctx rf1)
  | _, _ => (fallthrough ctx, ctx)
  end.

Definition executeInstruction (i : Instruction) (ctx : InstructionContext)
  : option (InstructionResult * InstructionContext) :=
  match opcode i with
  | NOP => Some (fallthrough ctx, ctx)
  | CONST => Some (executeCONST i ctx)
  | ADD | SUB | MUL | DIV | AND | OR | XOR => Some (executeALU i ctx)
  | LDR => executeLDR i ctx
  | STR => executeSTR i ctx
  | BR | BRz | BRnz | BRn | BRp => Some (executeBranch i ctx)
  | CMP => Some (executeCMP i ctx)
  | RET => Some (mkResult (pc (thread ctx)) true None, ctx)
  | _ => Some (fallthrough ctx, ctx)
  end.

End Instructions.

(** ** execution/execution-engine.ts *)

Module ExecutionEngine.

Record ExecutionConfig := mkExecutionConfig {
  cfg_memory : MemoryConfig;
  cfg_maxCycles : option Z;
  cfg_enableCache : option bool
}.

Record t := mkEngine {
  registerFile : RegisterFile.t;
  threadScheduler : ThreadScheduler.t;
  memoryController : MemoryController.t;
  cache : option Cache.t;
  instructionMemory : list Z;
  memory : JS.array;
  config : ExecutionConfig;
  cycle : Z;
  maxCycles : Z
}.

(** [config.maxCycles || 1000000]: an absent or zero bound gives the
    default. *)
Definition effective_maxCycles (cfg : ExecutionConfig) : Z :=
  match cfg_maxCycles cfg with
  | Some 0 | None => 1000000
  | Some n => n
  end.

Definition new (cfg : ExecutionConfig) : t :=
  {| registerFile := RegisterFile.empty;
     threadScheduler := ThreadScheduler.new;
     memoryController := MemoryController.new (cfg_memory cfg);
     cache := match cfg_enableCache cfg with
              | Some false => None
              | _ => Some (Cache.new (cfg_memory cfg))
              end;
     instructionMemory := [];
     memory := JS.filled (globalMemorySize (cfg_memory cfg)) 0;
     config := cfg;
     cycle := 0;
     maxCycles := effective_maxCycles cfg |}.

Definition loadInstructions (instructions : list Z) (e : t) : t :=
  {| registerFile := registerFile e;
     threadScheduler := threadScheduler e;
     memoryController := memoryController e;
     cache := cache e;
     instructionMemory := instructions;
     memory := memory e;
     config := config e;
     cycle := cycle e;
     maxCycles := maxCycles e |}.

(** [registerFile.updateThreadState(thread)], also the body of the first
    loop of [initializeBlocks]. *)
Definition updateThreadState (th : ThreadState) (rf : RegisterFile.t)
  : ThreadState * RegisterFile.t :=
  let '(regs, rf1) := RegisterFile.getRegisters (id th) rf in
  (with_registers th regs, rf1).

Fixpoint init_threads (ths : list ThreadState) (rf : RegisterFile.t)
  : list ThreadState * RegisterFile.t :=
  match ths with
  | [] => ([], rf)
  | th :: rest =>
      let '(th', rf1) := updateThreadState th rf in
      let '(rest', rf2) := init_threads rest rf1 in
      (th' :: rest', rf2)
  end.

Fixpoint init_blocks (blocks : list BlockState) (rf : RegisterFile.t)
  : list BlockState * RegisterFile.t :=
  match blocks with
  | [] => ([], rf)
  | b :: rest =>
      let '(ths, rf1) := init_threads (threads b) rf in
      let '(rest', rf2) := init_blocks rest rf1 in
      ({| block_id := block_id b; threads := ths;
          sharedMemory := sharedMemory b |} :: rest', rf2)
  end.

Definition initializeBlocks (blocks : list BlockState) (e : t) : t :=
  let '(blocks', rf) := init_blocks blocks (registerFile e) in
  {| registerFile := rf;
     threadScheduler :=
       ThreadScheduler.initializeBlocks blocks' (threadScheduler e);
     memoryController := memoryController e;
     cache := cache e;
     instructionMemory := instructionMemory e;
     memory := memory e;
     config := config e;
     cycle := cycle e;
     maxCycles := maxCycles e |}.

(** What the threads of a warp share while the cycle walks through
    them. *)
Record shared := mkShared {
  sh_registerFile : RegisterFile.t;
  sh_cache : option Cache.t;
  sh_memory : JS.array;
  sh_memoryController : MemoryController.t
}.

(** The body of the loop of [executeCycle] over the active threads. *)
Definition stepThread (instructions : list Z) (th : ThreadState)
    (s : shared) : option (ThreadState * shared) :=
  if Z.of_nat (List.length instructions) <=? pc th
  then Some (with_active th false, s)
  else
    let instructionWord := JS.nth instructions (pc th) in
    let instruction := InstructionDecoder.decode instructionWord in
    let context :=
      {| Instructions.thread := th;
         Instructions.registerFile := sh_registerFile s;
         Instructions.cache := sh_cache s;
         Instructions.memory := sh_memory s |} in
    match Instructions.executeInstruction instruction context with
    | None => None
    | Some (result, context') =>
        let th1 := with_pc th (Instructions.nextPC result) in
        let '(th2, rf) :=
          updateThreadState th1 (Instructions.registerFile context') in
        let mc :=
          match Instructions.memoryAccess result with
          | Some acc =>
              MemoryController.request
                {| req_address := Instructions.address acc;
                   req_data := Instructions.data acc;
                   req_write := Instructions.write acc;
                   req_threadId := id th;
                   req_blockId := blockId th |}
                (sh_memoryController s)
          | None => sh_memoryController s
          end in
        Some (th2, {| sh_registerFile := rf;
                      sh_cache := Instructions.cache context';
                      sh_memory := Instructions.memory context';
                      sh_memoryController := mc |})
    end.

(** The loop itself: the threads that were active when the warp was
    picked are stepped in order, the others stay as they are. *)
Fixpoint stepThreads (instructions : list Z) (ths : list ThreadState)
    (s : shared) : option (list ThreadState * shared) :=
  match ths with
  | [] => Some ([], s)
  | th :: rest =>
      match (if active th then stepThread instructions th s
             else Some (th, s)) with
      | None => None
      | Some (th', s1) =>
          match stepThreads instructions rest s1 with
          | None => None
          | Some (rest', s2) => Some (th' :: rest', s2)
          end
      end
  end.

Definition set_warp_threads (ws : list ThreadScheduler.Warp) (i : nat)
    (ths : list ThreadState) : list ThreadScheduler.Warp :=
  match ws !! i with
  | Some w =>
      <[i := {| ThreadScheduler.warp_threads := ths;
                ThreadScheduler.warp_active := ThreadScheduler.warp_active w;
                ThreadScheduler.warp_pc := ThreadScheduler.warp_pc w |}]> ws
  | None => ws
  end.

Definition with_scheduler (e : t) (sch : ThreadScheduler.t) : t :=
  {| registerFile := registerFile e;
     threadScheduler := sch;
     memoryController := memoryController e;
     cache := cache e;
     instructionMemory := instructionMemory e;
     memory := memory e;
     config := config e;
     cycle := cycle e;
     maxCycles := maxCycles e |}.

(** [executeCycle]: the boolean it returns and the engine after the
    call; [None] when an exception leaves the call. *)
Definition executeCycle (e : t) : option (bool * t) :=
  if maxCycles e <=? cycle e then Some (false, e)
  else
    match ThreadScheduler.getNextWarp (threadScheduler e) with
    | None => None
    | Some (None, sch) => Some (false, with_scheduler e sch)
    | Some (Some i, sch) =>
        match ThreadScheduler.warps sch !! i with
        | None => None
        | Some warp =>
            match stepThreads (instructionMemory e)
                    (ThreadScheduler.warp_threads warp)
                    {| sh_registerFile := registerFile e;
                       sh_cache := cache e;
                       sh_memory := memory e;
                       sh_memoryController := memoryController e |} with
            | None => None
            | Some (ths, s) =>
                let sch1 :=
                  ThreadScheduler.tick
                    {| ThreadScheduler.warps :=
                         set_warp_threads (ThreadScheduler.warps sch) i ths;
                       ThreadScheduler.currentWarpIndex :=
                         ThreadScheduler.currentWarpIndex sch;
                       ThreadScheduler.cycle := ThreadScheduler.cycle sch |} in
                Some (negb (ThreadScheduler.isComplete sch1),
                      {| registerFile := sh_registerFile s;
                         threadScheduler := sch1;
                         memoryController :=
                           MemoryController.processRequests
                             (sh_memoryController s);
                         cache := sh_cache s;
                         instructionMemory := instructionMemory e;
                         memory := sh_memory s;
                         config := config e;
                         cycle := cycle e + 1;
                         maxCycles := maxCycles e |})
            end
        end
    end.

Record GPUState := mkGPUState {
  gpu_memory : JS.array;
  gpu_cache : list Cache.CacheLine;
  gpu_threads : list ThreadState;
  gpu_blocks : list BlockState;
  gpu_cycle : Z
}.

Definition getState (e : t) : GPUState :=
  {| gpu_memory := memory e;
     gpu_cache := [];
     gpu_threads := [];
     gpu_blocks := [];
     gpu_cycle := cycle e |}.

(** How a call of [run] ends: it returns the state, or an exception of
    [executeCycle] leaves it. *)
Inductive outcome :=
  | Returned (st : GPUState) (e : t)
  | Raised.

(** [while (this.executeCycle()) {}] with a bound on the iterations:
    the outcome and the number of calls of [executeCycle] made, or
    [None] when the bound is used up before the loop ends. *)
Fixpoint run_loop (fuel : nat) (e : t) : option (outcome * nat) :=
  match fuel with
  | O => None
  | S k =>
      match executeCycle e with
      | None => Some (Raised, 1%nat)
      | Some (false, e1) => Some (Returned (getState e1) e1, 1%nat)
      | Some (true, e1) =>
          match run_loop k e1 with
          | None => None
          | Some (o, calls) => Some (o, S calls)
          end
      end
  end.

Definition getMemory (e : t) : JS.array := memory e.

Record Stats := mkStats {
  stats_cycle : Z;
  stats_scheduler : ThreadScheduler.Stats;
  stats_cache : option Cache.Stats
}.

Definition getStats (e : t) : Stats :=
  {| stats_cycle := cycle e;
     stats_scheduler := ThreadScheduler.getStats (threadScheduler e);
     stats_cache := option_map Cache.getStats (cache e) |}.

Definition reset (e : t) : t :=
  {| registerFile := RegisterFile.clearAll (registerFile e);
     threadScheduler := ThreadScheduler.reset (threadScheduler e);
     memoryController := memoryController e;
     cache := option_map Cache.resetStats (cache e);
     instructionMemory := instructionMemory e;
     memory := JS.fill (memory e) 0;
     config := config e;
     cycle := 0;
     maxCycles := maxCycles e |}.

End ExecutionEngine.

(** * Vocabulary of the statements

    Readings of the specification's notions on the model, and the
    concrete programs and configurations the examples run. *)

(** The names the decoder can produce. *)
Definition decoder_opcodes : list Opcode :=
  map snd InstructionDecoder.opcodes.

(** ** Signed overflow, as the specification states it *)

Definition sign_bit (x : Z) : bool := Z.testbit x 31.

(** ADD overflows when the operands agree in sign and the wrapped sum
    does not. *)
Definition add_overflows (a b : Z) : bool :=
  Bool.eqb (sign_bit a) (sign_bit b)
  && negb (Bool.eqb (sign_bit ((a + b) mod 2 ^ 32)) (sign_bit a)).

(** SUB overflows when the operands differ in sign and the wrapped
    difference has a sign other than that of the first operand. *)
Definition sub_overflows (a b : Z) : bool :=
  negb (Bool.eqb (sign_bit a) (sign_bit b))
  && negb (Bool.eqb (sign_bit ((a - b) mod 2 ^ 32)) (sign_bit a)).

(** Thread 0 with [a] in R0 and [b] in R1, and the overflow flag
    [executeALU] returns for [op R0, R1]. *)
Definition operands (a b : Z) : RegisterFile.t :=
  RegisterFile.write 0 1 (Some b)
    (RegisterFile.write 0 0 (Some a) RegisterFile.empty).

Definition alu_overflow (op : Opcode) (a b : Z) : bool :=
  ExecutionUnit.overflow
    (fst (ExecutionUnit.executeALU 0 op 0 1 (operands a b))).

Definition INT_MIN : Z := 0x80000000.

(** ** Sequences of cache calls *)

Inductive cache_call :=
  | CRead (address : Z)
  | CWrite (address : Z) (v : JS.value)
  | CResetStats.

Definition call_address (c : cache_call) : option Z :=
  match c with
  | CRead a | CWrite a _ => Some a
  | CResetStats => None
  end.

(** One call against the cache and the memory array it is handed. *)
Definition do_call (st : Cache.t * JS.array) (c : cache_call)
  : option (Cache.t * JS.array) :=
  match c with
  | CRead a =>
      match Cache.read a (fst st) (snd st) with
      | Some (_, _, c1, m1) => Some (c1, m1)
      | None => None
      end
  | CWrite a v =>
      match Cache.write a v (fst st) (snd st) with
      | Some (_, c1, m1) => Some (c1, m1)
      | None => None
      end
  | CResetStats => Some (Cache.resetStats (fst st), snd st)
  end.

Fixpoint do_calls (st : Cache.t * JS.array) (cs : list cache_call)
  : option (Cache.t * JS.array) :=
  match cs with
  | [] => Some st
  | c :: rest =>
      match do_call st c with
      | Some st1 => do_calls st1 rest
      | None => None
      end
  end.

(** The reads and writes since the last [resetStats]. *)
Fixpoint calls_since_reset (n : Z) (cs : list cache_call) : Z :=
  match cs with
  | [] => n
  | CResetStats :: rest => calls_since_reset 0 rest
  | _ :: rest => calls_since_reset (n + 1) rest
  end.

(** Addresses that are non-negative as signed 32-bit integers: the range
    on which [address >> 2] is the number of the word group. *)
Definition addressable (a : Z) : Prop := 0 <= a < 2 ^ 31.

(** ** The memory controller without coalescing

    Modelled on the specification's words, "processing them
    individually": the pending requests are serviced one by one, in the
    order they were queued. *)
Definition processIndividually (mc : MemoryController.t) : MemoryController.t :=
  let '(mem, responses) :=
    fold_left MemoryController.service (MemoryController.pendingRequests mc)
      (MemoryController.memory mc, MemoryController.responseQueue mc) in
  {| MemoryController.memory := mem;
     MemoryController.config := MemoryController.config mc;
     MemoryController.pendingRequests := [];
     MemoryController.responseQueue := responses |}.

(** Two requests of a batch that may be serviced in either order: they
    meet at an address only as reads, and share a request id only at a
    common address. *)
Definition compatible (r1 r2 : MemoryRequest) : Prop :=
  (req_address r1 = req_address r2 ->
   req_write r1 = false /\ req_write r2 = false)
  /\ (MemoryController.getRequestId r1 = MemoryController.getRequestId r2 ->
      req_address r1 = req_address r2).

(** ** Concrete machines *)

(** 64 words of memory, 4 cache lines of 4 words. *)
Definition small_memory : MemoryConfig := mkMemoryConfig 64 4 4 1.

Definition small_cache : Cache.t * JS.array :=
  (Cache.new small_memory, JS.filled 64 0).

Definition one_thread : BlockState :=
  mkBlockState 0 [mkThreadState 0 0 0 [] true] None.

(** An engine over [small_memory] with the given bound, program and a
    single thread at PC 0. *)
Definition machine (bound : Z) (program : list Z) : ExecutionEngine.t :=
  ExecutionEngine.initializeBlocks [one_thread]
    (ExecutionEngine.loadInstructions program
       (ExecutionEngine.new
          (ExecutionEngine.mkExecutionConfig small_memory (Some bound) None))).

(** The threads the scheduler holds, warp after warp. *)
Definition all_threads (e : ExecutionEngine.t) : list ThreadState :=
  flat_map ThreadScheduler.warp_threads
    (ThreadScheduler.warps (ExecutionEngine.threadScheduler e)).

(** The thread at position [j] of warp [i]. *)
Definition thread_at (e : ExecutionEngine.t) (i j : nat) : option ThreadState :=
  match ThreadScheduler.warps (ExecutionEngine.threadScheduler e) !! i with
  | Some w => ThreadScheduler.warp_threads w !! j
  | None => None
  end.

(** Encoded words. *)
Definition word_RET : Z := 0x11000000.
Definition word_NOP : Z := 0x00000000.
Definition word_BR_back1 : Z := 0x0b00ffff. (* BR #-1 *)
Definition word_LDR_R0_R1 : Z := 0x09010000. (* LDR R0, [R1 + 0] *)
Definition word_LDR_R0_R0_minus_1 : Z := 0x0900ffff. (* LDR R0, [R0 - 1] *)

(** The state of a thread as far as the scheduler looks at it. *)
Definition pc_and_active (th : ThreadState) : Z * bool := (pc th, active th).

(** [n] calls of [executeCycle] in a row: the booleans returned and the
    engine after the last call. *)
Fixpoint cycles (n : nat) (e : ExecutionEngine.t)
  : option (list bool * ExecutionEngine.t) :=
  match n with
  | O => Some ([], e)
  | S k =>
      match ExecutionEngine.executeCycle e with
      | None => None
      | Some (b, e1) =>
          match cycles k e1 with
          | None => None
          | Some (bs, e2) => Some (b :: bs, e2)
          end
      end
  end.

(** The engine after [n] calls of [executeCycle] (as it was, should a
    call raise). *)
Definition after (n : nat) (e : ExecutionEngine.t) : ExecutionEngine.t :=
  match cycles n e with
  | Some (_, e') => e'
  | None => e
  end.

(** Two blocks of one thread each, hence two warps, both threads at PC 0,
    on the program of the single instruction NOP. *)
Definition two_warps : ExecutionEngine.t :=
  ExecutionEngine.initializeBlocks
    [ mkBlockState 0 [mkThreadState 0 0 0 [] true] None;
      mkBlockState 1 [mkThreadState 1 1 0 [] true] None ]
    (ExecutionEngine.loadInstructions [word_NOP]
       (ExecutionEngine.new
          (ExecutionEngine.mkExecutionConfig small_memory (Some 1000) None))).

(** The PC and active flag of the thread at position [j] of warp [i]. *)
Definition state_at (e : ExecutionEngine.t) (i j : nat) : option (Z * bool) :=
  option_map pc_and_active (thread_at e i j).

(** What a test reads off after such calls: the returned booleans, the PC
    and active flag of every thread, and the cycle counter. *)
Definition observe (r : option (list bool * ExecutionEngine.t))
  : option (list bool * list (Z * bool) * Z) :=
  option_map
    (fun '(bs, e) =>
       (bs, map pc_and_active (all_threads e), ExecutionEngine.cycle e)) r.

(** The word a read returns after a sequence of calls on [small_cache]. *)
Definition read_after (cs : list cache_call) (a : Z) : option JS.value :=
  match do_calls small_cache cs with
  | Some (c, m) =>
      match Cache.read a c m with
      | Some (v, _, _, _) => Some v
      | None => None
      end
  | None => None
  end.

(** Address 4 is written, its line is evicted; address 16 is written and
    evicted in turn. *)
Definition eviction_trace : list cache_call :=
  [CWrite 4 (Some 7); CRead 20; CWrite 16 (Some 42); CRead 32].

(** A controller over [small_memory] that has processed the one queued
    request. *)
Definition queued (req : MemoryRequest) : MemoryController.t :=
  MemoryController.processRequests
    (MemoryController.request req (MemoryController.new small_memory)).

(** The length of a memory array and its word at one address. *)
Definition length_and_word (m : JS.array) (a : Z) : Z * JS.value :=
  (JS.length m, JS.get m a).

(** The valid flags of the cache lines of an engine. *)
Definition valid_lines (e : ExecutionEngine.t) : option (list bool) :=
  option_map (fun c => map Cache.valid (Cache.lines c))
             (ExecutionEngine.cache e).

(** ** Cache bookkeeping *)

(** The cache holds as many lines as its configuration says. *)
Definition well_formed (c : Cache.t) : Prop :=
  List.length (Cache.lines c) = Z.to_nat (cacheSize (Cache.config c)).

(** A call was counted as a hit, or as a miss: one counter moved by one,
    the other stayed. *)
Definition counted_hit (c c' : Cache.t) : Prop :=
  Cache.hits c' = Cache.hits c + 1 /\ Cache.misses c' = Cache.misses c.

Definition counted_miss (c c' : Cache.t) : Prop :=
  Cache.hits c' = Cache.hits c /\ Cache.misses c' = Cache.misses c + 1.

Definition addressable_call (c : cache_call) : Prop :=
  forall a, call_address c = Some a -> addressable a.

(** ** Threads across a cycle *)

(** The warp [executeCycle] is about to pick. *)
Definition scheduled (e : ExecutionEngine.t) : option nat :=
  match ThreadScheduler.getNextWarp (ExecutionEngine.threadScheduler e) with
  | Some (Some i, _) => Some i
  | _ => None
  end.

(** The invariant of the specification on one thread, and on all the
    threads of an engine: the PC indexes the instruction memory, or the
    thread is inactive. *)
Definition pc_valid_or_inactive (len : Z) (th : ThreadState) : bool :=
  ((0 <=? pc th) && (pc th <? len)) || negb (active th).

Definition all_pc_valid_or_inactive (e : ExecutionEngine.t) : bool :=
  forallb
    (pc_valid_or_inactive
       (Z.of_nat (List.length (ExecutionEngine.instructionMemory e))))
    (all_threads e).

(** What the cycle guarantees of a thread [th] of the scheduled warp,
    [th'] being the thread after the cycle and [len] the length of the
    instruction memory: an inactive thread is left alone; an active one
    whose PC has reached [len] is deactivated where it stands; so a
    thread that is active after the cycle was active at a PC below
    [len], where the cycle fetched for it. *)
Definition checked_at_fetch (len : Z) (th th' : ThreadState) : Prop :=
  (active th = false -> th' = th)
  /\ (active th = true -> len <= pc th -> th' = with_active th false)
  /\ (active th' = false \/ (active th = true /\ pc th < len)).

(** Two writes to address 5 in one batch, from threads 0 and 1. *)
Definition conflicting_writes : MemoryController.t :=
  MemoryController.request (mkMemoryRequest 5 (Some 2) true 1 0)
    (MemoryController.request (mkMemoryRequest 5 (Some 1) true 0 0)
       (MemoryController.new small_memory)).

(** Writes to 12 and 10 and reads of 40 and 11, queued in this order.
    Sorted by address the directions alternate, so every request is the
    head of a group of its own and nothing is merged. *)
Definition mixed_batch : list MemoryRequest :=
  [ mkMemoryRequest 12 (Some 2) true 1 0;
    mkMemoryRequest 10 (Some 1) true 0 0;
    mkMemoryRequest 40 None false 3 0;
    mkMemoryRequest 11 None false 2 0 ].

Definition with_pending (reqs : list MemoryRequest) : MemoryController.t :=
  fold_left (fun mc r => MemoryController.request r mc) reqs
            (MemoryController.new small_memory).

(** The controller over [small_memory] with the words 100, 101, ... in
    its first 40 addresses. *)
Definition loaded_controller : MemoryController.t :=
  MemoryController.initialize (map (fun a => 100 + a) (JS.indices 0 40)) 0
    (MemoryController.new small_memory).

(** Writes to 12, 10 and 14, reads of 33 and 30 and a second read of 30
    by another thread, queued in this order on [loaded_controller].
    Sorted by address the batch is 10, 12, 14, 30, 30, 33: the writes to
    12 and 14 are merged into the group of the write to 10, and the
    second read of 30 and the read of 33 into the group of the first
    read of 30. *)
Definition merging_batch : MemoryController.t :=
  fold_left (fun mc r => MemoryController.request r mc)
    [ mkMemoryRequest 12 (Some 2) true 1 0;
      mkMemoryRequest 10 (Some 1) true 0 0;
      mkMemoryRequest 33 None false 3 0;
      mkMemoryRequest 30 None false 2 0;
      mkMemoryRequest 14 (Some 3) true 4 0;
      mkMemoryRequest 30 None false 5 0 ]
    loaded_controller.

(** The heads of the groups the coalescing loop forms, which the second
    loop of [processRequests] services; the other requests were merged
    and serviced inside the first loop. *)
Definition group_heads (mc : MemoryController.t) : list MemoryRequest :=
  MemoryController.finish
    (fold_left MemoryController.scan_step
       (MemoryController.sort (MemoryController.pendingRequests mc))
       (MemoryController.mkScan None []
          (MemoryController.memory mc, MemoryController.responseQueue mc))).

(** Reads by thread 5 at address 0, by thread 0 of block 0 at address
    10001 and by thread 0 of block 1 at address 1, queued in this order:
    the last two have the request id 10001. *)
Definition colliding_reads : MemoryController.t :=
  with_pending
    [ mkMemoryRequest 0 None false 5 0;
      mkMemoryRequest 10001 None false 0 0;
      mkMemoryRequest 1 None false 0 1 ].

(** The response recorded under a request id. *)
Definition response_data (mc : MemoryController.t) (requestId : Z)
  : option JS.value :=
  option_map resp_data (MemoryController.responseQueue mc !! requestId).

(** ** Proof automation *)

(** Case analysis on every integer comparison of the goal. *)
Ltac split_comparisons :=
  repeat match goal with
         | |- context [?x <? ?y] => destruct (Z.ltb_spec x y)
         | |- context [?x <=? ?y] => destruct (Z.leb_spec x y)
         end.

(** ** Register files in use *)

(** Every thread the register file knows has its sixteen registers. *)
Definition sixteen_each (rf : RegisterFile.t) : Prop :=
  forall threadId regs, rf !! threadId = Some regs -> List.length regs = 16%nat.

(** The value [read] returns. *)
Definition reg_value (rf : RegisterFile.t) (threadId reg : Z) : JS.value :=
  fst (RegisterFile.read threadId reg rf).

Definition in_bank (reg : Z) : bool := (0 <=? reg) && (reg <? 16).

(** The map and value types without their names, for rewriting. *)
Ltac unalias := unfold RegisterFile.t, JS.value, JS.undefined in *.

Ltac in_bank_bounds H :=
  unfold in_bank in H; apply andb_true_iff in H as [?H ?H];
  match goal with
  | H0 : (0 <=? _) = true, H1 : (_ <? 16) = true |- _ =>
      apply Z.leb_le in H0; apply Z.ltb_lt in H1
  end.

(** ** Instruction words *)

(** The signed reading of the low 16 bits of a word. *)
Definition signed16 (w : Z) : Z := (w + 2 ^ 15) mod 2 ^ 16 - 2 ^ 15.

(** A word laid out as the decoder reads it: opcode in bits 31-24, [rd] in
    bits 23-20, [rs1] in bits 19-16, and the low half. *)
Definition encode (opc rd' rs1' low : Z) : Z :=
  opc * 2 ^ 24 + rd' * 2 ^ 20 + rs1' * 2 ^ 16 + low.

(** The low half of a register form and of an immediate form. *)
Definition low_of_rs2 (rs2' : Z) : Z := rs2' * 2 ^ 12.
Definition low_of_imm (imm : Z) : Z := imm mod 2 ^ 16.

(** ** Words and their signed readings *)

(** [z] is the signed reading of some 32-bit word. *)
Definition fits32 (z : Z) : bool := (- 2 ^ 31 <=? z) && (z <? 2 ^ 31).

(** The second operand of [executeALU] and [compare], as [operand2]
    takes it: the register when the index is below 16, the index itself
    otherwise. *)
Definition operand2_value (rf : RegisterFile.t) (threadId rs2' : Z) : JS.value :=
  if rs2' <? 16 then reg_value rf threadId rs2' else Some rs2'.

(** The number of flags of a comparison that are set. *)
Definition flags_set (c : ExecutionUnit.Comparison) : nat :=
  (Nat.b2n (ExecutionUnit.equal c) + Nat.b2n (ExecutionUnit.less c)
   + Nat.b2n (ExecutionUnit.greater c))%nat.

(** ** Reading through the cache *)

(** The word of memory at a non-negative address, 0 past the end: what
    [loadLine] puts into a line. *)
Definition word_or_zero (m : JS.array) (a : Z) : JS.value :=
  if a <? JS.length m then JS.get m a else Some 0.

(** No line is dirty, and every valid line holds, for each address that
    maps to it with its tag, the word of memory at that address. *)
Definition mirrors (c : Cache.t) (m : JS.array) : Prop :=
  forall i line,
    Cache.line_at (Cache.lines c) i = Some line ->
    Cache.dirty line = false
    /\ (Cache.valid line = true ->
        forall a, addressable a ->
                  Cache.getLineIndex c a = i -> Cache.getTag c a = Cache.tag line ->
                  JS.get (Cache.data line) (Cache.getOffset c a) = word_or_zero m a).

(** A run of reads: the words returned, and the cache and memory left. *)
Fixpoint read_all (c : Cache.t) (m : JS.array) (addresses : list Z)
  : option (list JS.value * Cache.t * JS.array) :=
  match addresses with
  | [] => Some ([], c, m)
  | a :: rest =>
      match Cache.read a c m with
      | None => None
      | Some (v, _, c1, m1) =>
          match read_all c1 m1 rest with
          | None => None
          | Some (vs, c2, m2) => Some (v :: vs, c2, m2)
          end
      end
  end.

(** A memory of 64 words that holds 100 + a at address a. *)
Definition numbered_memory : JS.array :=
  fold_left (fun m a => JS.set m a (Some (100 + a))) (JS.indices 0 64)
            (JS.filled 64 0).

(** What [flush] makes of a line: a valid dirty line becomes clean. *)
Definition flushed_line (l : Cache.CacheLine) : Cache.CacheLine :=
  if Cache.valid l && Cache.dirty l
  then {| Cache.tag := Cache.tag l; Cache.data := Cache.data l;
          Cache.valid := Cache.valid l; Cache.dirty := false |}
  else l.

(** ** Global memory through the controller *)

(** The address lies inside the controller's memory. *)
Definition in_memory (mc : MemoryController.t) (a : Z) : bool :=
  (0 <=? a) && (a <? JS.length (MemoryController.memory mc)).

(** A request that changes memory when serviced: a write that carries
    data. *)
Definition effective_write (r : MemoryRequest) : bool :=
  req_write r && match req_data r with Some _ => true | None => false end.

(** The word of a list at an integer index. *)
Definition word_at (data : list Z) (i : Z) : JS.value :=
  if i <? 0 then None else data !! Z.to_nat i.
(** [loaded_controller] with a response waiting under the id 7, that of
    a read of address 7 by thread 0 processed before, and the requests
    of [mixed_batch] queued: writes to 12 and 10, reads of 40 and 11. *)
Definition second_batch : MemoryController.t :=
  fold_left (fun mc r => MemoryController.request r mc) mixed_batch
    (MemoryController.processRequests
       (MemoryController.request (mkMemoryRequest 7 None false 0 0)
                                 loaded_controller)).

(** ** Warps *)

(** The threads of all the warps of a scheduler, in order. *)
Definition scheduled_threads (s : ThreadScheduler.t) : list ThreadState :=
  flat_map ThreadScheduler.warp_threads (ThreadScheduler.warps s).

(** A warp as [initializeBlocks] builds it: between 1 and 32 threads,
    active, with the PC of its first thread. *)
Definition fresh_warp (w : ThreadScheduler.Warp) : Prop :=
  (1 <= List.length (ThreadScheduler.warp_threads w) <= 32)%nat
  /\ ThreadScheduler.warp_active w = true
  /\ ThreadScheduler.warp_pc w
     = ThreadScheduler.first_pc (ThreadScheduler.warp_threads w).


(** ** Engines in use *)



(** The engine as the constructor, [loadInstructions] and
    [initializeBlocks] leave it. *)
Definition boot (cfg : ExecutionEngine.ExecutionConfig) (program : list Z)
    (blocks : list BlockState) : ExecutionEngine.t :=
  ExecutionEngine.initializeBlocks blocks
    (ExecutionEngine.loadInstructions program (ExecutionEngine.new cfg)).

(** The register file after an instruction is executed for a thread. *)
Definition registers_after (i : Instruction) (ctx : Instructions.InstructionContext)
  : option RegisterFile.t :=
  option_map (fun '(_, ctx') => Instructions.registerFile ctx')
             (Instructions.executeInstruction i ctx).

(** ** The engine over several cycles *)

(** A thread after some cycles, against the thread it was: the same
    identity, and unchanged if it was inactive. *)
Definition same_thread (th th' : ThreadState) : Prop :=
  id th' = id th
  /\ blockId th' = blockId th
  /\ (active th = false -> th' = th).

(** A warp after some cycles, against the warp it was. *)
Definition same_warp (w w' : ThreadScheduler.Warp) : Prop :=
  ThreadScheduler.warp_active w' = ThreadScheduler.warp_active w
  /\ ThreadScheduler.warp_pc w' = ThreadScheduler.warp_pc w
  /\ Forall2 same_thread (ThreadScheduler.warp_threads w)
                         (ThreadScheduler.warp_threads w').

(** The warps of the engine. *)
Definition engine_warps (e : ExecutionEngine.t) : list ThreadScheduler.Warp :=
  ThreadScheduler.warps (ExecutionEngine.threadScheduler e).


(** Register [r] in the snapshot that the thread at position [j] of warp
    [i] carries. *)
Definition snapshot_at (e : ExecutionEngine.t) (i j r : nat) : option JS.value :=
  option_map (fun th => nth r (registers th) None) (thread_at e i j).

(** One warp of two threads on the program [CONST R1, #7; BR #-1]: the
    first thread is inactive from the start, at PC 5; the second runs the
    loop. *)
Definition half_idle : ExecutionEngine.t :=
  ExecutionEngine.initializeBlocks
    [ mkBlockState 0 [ mkThreadState 0 0 5 [] false;
                       mkThreadState 1 0 0 [] true ] None ]
    (ExecutionEngine.loadInstructions [0x01100007; word_BR_back1]
       (ExecutionEngine.new
          (ExecutionEngine.mkExecutionConfig small_memory (Some 1000) None))).

(** ** Instruction words at work *)

(** The opcode byte of a word. *)
Definition opcode_byte (w : Z) : Z := (w mod 2 ^ 32) / 2 ^ 24.

(** The registers of the context's thread after the write of [v] to
    register [reg], against the registers before. *)
Definition registers_updated (ctx ctx' : Instructions.InstructionContext)
    (reg : Z) (v : JS.value) : Prop :=
  forall t' r',
    reg_value (Instructions.registerFile ctx') t' r'
    = if (t' =? id (Instructions.thread ctx)) && (r' =? reg)
      then v
      else reg_value (Instructions.registerFile ctx) t' r'.

(** ** Warps *)

(** The first thread of the warp is inactive and its PC is not [newPC]. *)
Definition first_left_behind (w : ThreadScheduler.Warp) (newPC : Z) : bool :=
  match ThreadScheduler.warp_threads w with
  | [] => false
  | th0 :: _ => negb (active th0) && negb (pc th0 =? newPC)
  end.
(** * Properties *)

(** ** Conversions *)

Lemma ToInt32_small (x : Z) : 0 <= x < 2 ^ 31 -> JS.ToInt32 x = x.
Proof.
  intros H. unfold JS.ToInt32.
  rewrite Z.mod_small by lia.
  destruct (Z.ltb_spec x (2 ^ 31)); lia.
Qed.

Lemma land_low_bits (x : Z) (n : Z) :
  0 <= n -> Z.land x (2 ^ n - 1) = x mod 2 ^ n.
Proof.
  intros Hn. rewrite <- Z.land_ones by lia.
  f_equal. rewrite Z.ones_equiv. lia.
Qed.

(** The opcode byte is the top byte of the unsigned reading of the word. *)
Lemma getOpcodeNum_top_byte (w : Z) :
  InstructionDecoder.getOpcodeNum (Some w) = (w mod 2 ^ 32) / 2 ^ 24.
Proof.
  unfold InstructionDecoder.getOpcodeNum, JS.band, JS.ushr, JS.ToUint32.
  cbn [InstructionDecoder.word_of].
  change (24 mod 32) with 24.
  rewrite Z.shiftr_div_pow2 by lia.
  assert (Hb : 0 <= (w mod 2 ^ 32) / 2 ^ 24 < 2 ^ 8).
  { pose proof (Z.mod_pos_bound w (2 ^ 32) ltac:(lia)) as Hm.
    split; [apply Z.div_pos; lia|].
    apply Z.div_lt_upper_bound; lia. }
  rewrite !ToInt32_small by lia.
  change 255 with (2 ^ 8 - 1).
  rewrite land_low_bits by lia.
  apply Z.mod_small. lia.
Qed.

Lemma opcodeToString_unknown (n : Z) :
  0x11 < n -> InstructionDecoder.opcodeToString n = NOP.
Proof.
  intros Hn. unfold InstructionDecoder.opcodeToString, InstructionDecoder.opcodes.
  cbn [InstructionDecoder.lookup_opcode].
  repeat match goal with
         | |- context [?k =? n] => destruct (Z.eqb_spec k n); [lia|]
         end.
  reflexivity.
Qed.

Lemma lookup_opcode_in (tbl : list (Z * Opcode)) (n : Z) (op : Opcode) :
  InstructionDecoder.lookup_opcode tbl n = Some op -> In op (map snd tbl).
Proof.
  induction tbl as [|[k o] rest IH]; cbn; [discriminate|].
  destruct (k =? n); [intros [= ->]; now left | right; auto].
Qed.


Lemma opcodeToString_defined (n : Z) :
  In (InstructionDecoder.opcodeToString n) decoder_opcodes.
Proof.
  unfold InstructionDecoder.opcodeToString.
  destruct (InstructionDecoder.lookup_opcode _ n) eqn:E.
  - eapply lookup_opcode_in; eassumption.
  - cbn. now left.
Qed.

Lemma decode_opcode (v : JS.value) :
  opcode (InstructionDecoder.decode v) = InstructionDecoder.getOpcode v.
Proof.
  unfold InstructionDecoder.decode.
  pose proof (opcodeToString_defined (InstructionDecoder.getOpcodeNum v)) as Hin.
  fold (InstructionDecoder.getOpcode v) in Hin.
  destruct (InstructionDecoder.getOpcode v); try reflexivity;
    cbn in Hin; repeat (destruct Hin as [Hin|Hin]; [discriminate|]); contradiction.
Qed.

(** C9. [decode] is a total function of the fetched word: for every word
    (and for the [undefined] of a fetch outside the program) it returns an
    instruction whose opcode is one of the eighteen names of the table,
    and a word whose opcode byte is above 0x11 decodes to the bare [NOP]
    instruction. *)
Theorem decode_total_unknown_is_NOP (w : Z) :
  (forall v : JS.value,
      In (opcode (InstructionDecoder.decode v)) decoder_opcodes)
  /\ (0x11 < (w mod 2 ^ 32) / 2 ^ 24 ->
      InstructionDecoder.decode (Some w) = mkInstruction NOP None None None None).
Proof.
  split.
  - intros v. rewrite decode_opcode. apply opcodeToString_defined.
  - intros Hb. unfold InstructionDecoder.decode, InstructionDecoder.getOpcode.
    rewrite getOpcodeNum_top_byte, opcodeToString_unknown by assumption.
    reflexivity.
Qed.

Lemma decode_total_unknown_is_NOP_witness :
  0x11 < (0xff123456 mod 2 ^ 32) / 2 ^ 24
  /\ InstructionDecoder.decode (Some 0xff123456)
     = mkInstruction NOP None None None None.
Proof.
  split; [reflexivity|].
  apply (decode_total_unknown_is_NOP 0xff123456). reflexivity.
Defined.

(** ** The execution unit's overflow flags *)

Lemma sign_bit_spec (x : Z) :
  0 <= x < 2 ^ 32 -> sign_bit x = (2 ^ 31 <=? x).
Proof.
  intros Hx. unfold sign_bit.
  rewrite Z.testbit_odd, Z.shiftr_div_pow2 by lia.
  destruct (Z.leb_spec (2 ^ 31) x) as [Hge|Hlt].
  - replace (x / 2 ^ 31) with 1; [reflexivity|].
    apply Z.div_unique with (r := x - 2 ^ 31); lia.
  - rewrite Z.div_small by lia. reflexivity.
Qed.

Lemma ToInt32_word (x : Z) :
  0 <= x < 2 ^ 32 ->
  JS.ToInt32 x = if 2 ^ 31 <=? x then x - 2 ^ 32 else x.
Proof.
  intros Hx. unfold JS.ToInt32. rewrite Z.mod_small by lia.
  destruct (Z.ltb_spec x (2 ^ 31)), (Z.leb_spec (2 ^ 31) x); lia.
Qed.

Lemma wrap_cases (z : Z) :
  - 2 ^ 32 < z < 2 * 2 ^ 32 ->
  z mod 2 ^ 32 = if z <? 0 then z + 2 ^ 32 else if z <? 2 ^ 32 then z else z - 2 ^ 32.
Proof.
  intros Hz.
  destruct (Z.ltb_spec z 0); [|destruct (Z.ltb_spec z (2 ^ 32))].
  - symmetry. apply Z.mod_unique with (q := -1); lia.
  - apply Z.mod_small. lia.
  - symmetry. apply Z.mod_unique with (q := 1); lia.
Qed.

(** Away from INT_MIN + INT_MIN the ADD flag is the law. *)
Lemma checkAddOverflow_law (a b : Z) :
  0 <= a < 2 ^ 32 -> 0 <= b < 2 ^ 32 ->
  ~ (a = INT_MIN /\ b = INT_MIN) ->
  ExecutionUnit.checkAddOverflow (Some a) (Some b) (ExecutionUnit.add (Some a) (Some b))
  = add_overflows a b.
Proof.
  intros Ha Hb Hne. unfold INT_MIN in Hne.
  unfold ExecutionUnit.checkAddOverflow, ExecutionUnit.add, add_overflows,
    JS.int32_of, JS.ToUint32.
  pose proof (Z.mod_pos_bound (a + b) (2 ^ 32) ltac:(lia)) as Hr.
  rewrite !sign_bit_spec, !ToInt32_word by lia.
  rewrite wrap_cases in * by lia.
  split_comparisons; cbn; try reflexivity; lia.
Qed.

(** Away from 0 - INT_MIN the SUB flag is the law. *)
Lemma checkSubOverflow_law (a b : Z) :
  0 <= a < 2 ^ 32 -> 0 <= b < 2 ^ 32 ->
  ~ (a = 0 /\ b = INT_MIN) ->
  ExecutionUnit.checkSubOverflow (Some a) (Some b)
    (ExecutionUnit.subtract (Some a) (Some b))
  = sub_overflows a b.
Proof.
  intros Ha Hb Hne. unfold INT_MIN in Hne.
  unfold ExecutionUnit.checkSubOverflow, ExecutionUnit.subtract, sub_overflows,
    JS.int32_of, JS.ToUint32.
  pose proof (Z.mod_pos_bound (a - b) (2 ^ 32) ltac:(lia)) as Hr.
  rewrite !sign_bit_spec, !ToInt32_word by lia.
  rewrite wrap_cases in * by lia.
  split_comparisons; cbn; try reflexivity; lia.
Qed.

(** C5. The overflow flag of [executeALU] departs from the signed
    overflow law at the minimum signed value: INT_MIN + INT_MIN wraps to
    0, an overflow by the law, and 0 - INT_MIN wraps to INT_MIN, an
    overflow by the law, and in both cases the flag returned is false. *)
Theorem overflow_flag_misses_INT_MIN :
  add_overflows INT_MIN INT_MIN = true
  /\ alu_overflow ADD INT_MIN INT_MIN = false
  /\ sub_overflows 0 INT_MIN = true
  /\ alu_overflow SUB 0 INT_MIN = false.
Proof. repeat split; vm_compute; reflexivity. Qed.

(** ** RET *)

(** A thread at a RET: the step leaves it active, at the same PC. *)
Lemma stepThread_RET (instructions : list Z) (th : ThreadState)
    (s : ExecutionEngine.shared) (w : Z) :
  JS.nth instructions (pc th) = Some w ->
  InstructionDecoder.getOpcode (Some w) = RET ->
  exists th' s',
    ExecutionEngine.stepThread instructions th s = Some (th', s')
    /\ pc th' = pc th /\ active th' = active th.
Proof.
  intros Hw Hop. unfold ExecutionEngine.stepThread.
  assert (Hlt : pc th < Z.of_nat (List.length instructions)).
  { unfold JS.nth in Hw. destruct (pc th <? 0) eqn:E; [discriminate|].
    apply lookup_lt_Some in Hw. apply Z.ltb_ge in E. lia. }
  destruct (Z.leb_spec (Z.of_nat (List.length instructions)) (pc th)); [lia|].
  rewrite Hw. unfold InstructionDecoder.decode. rewrite Hop.
  cbn. eauto.
Qed.

(** C1. A single thread on the program [RET]: the cycle that executes
    the RET returns true and leaves the thread active at PC 0, and the
    next cycle fetches the same RET again and leaves it active still. *)
Theorem RET_leaves_thread_active :
  observe (cycles 1 (machine 1000 [word_RET])) = Some ([true], [(0, true)], 1)
  /\ observe (cycles 2 (machine 1000 [word_RET]))
     = Some ([true; true], [(0, true)], 2).
Proof. split; vm_compute; reflexivity. Qed.

(** ** The cache against one memory array *)

(** C2. With four lines of four words over 64 words of memory: 7 is
    written to address 4 and its line is evicted by a read of address 20;
    42 is written to address 16 and its line is evicted by a read of
    address 32.  That eviction writes the line of address 16 back at
    address 4, and the following read of address 4 returns 42, not the 7
    last written there. *)
Theorem eviction_overwrites_another_address :
  read_after [CWrite 4 (Some 7)] 4 = Some (Some 7)
  /\ read_after eviction_trace 4 = Some (Some 42).
Proof. split; vm_compute; reflexivity. Qed.

(** ** Addresses outside the memory *)

(** The direct path of the memory controller is guarded. *)
Lemma direct_access_guarded (mc : MemoryController.t) (a : Z) (v : JS.value) :
  ~ (0 <= a < JS.length (MemoryController.memory mc)) ->
  MemoryController.read a mc = Some 0 /\ MemoryController.write a v mc = mc.
Proof.
  intros Hout. unfold MemoryController.read, MemoryController.write.
  destruct (Z.leb_spec 0 a), (Z.ltb_spec a (JS.length (MemoryController.memory mc)));
    cbn; try lia; auto.
Qed.

(** C7. At address 64, the first one outside a memory of 64 words: the
    direct read returns 0 and the direct write changes nothing; but a
    queued read is answered with [undefined], a queued write extends the
    memory array to 65 words with the data at its end, and so does a
    write through the cache.  A read through the cache returns 0 at
    address 64, and raises at address 2^32 - 1, where the line index is
    negative. *)
Theorem out_of_range_only_direct_path_guarded :
  MemoryController.read 64 (MemoryController.new small_memory) = Some 0
  /\ length_and_word
       (MemoryController.memory
          (MemoryController.write 64 (Some 7) (MemoryController.new small_memory)))
       64 = (64, None)
  /\ option_map resp_data
       (MemoryController.responseQueue
          (queued (mkMemoryRequest 64 None false 0 0)) !! 64)
     = Some None
  /\ length_and_word
       (MemoryController.memory (queued (mkMemoryRequest 64 (Some 7) true 0 0)))
       64 = (65, Some 7)
  /\ option_map (fun '(_, _, m) => length_and_word m 64)
       (Cache.write 64 (Some 7) (fst small_cache) (snd small_cache))
     = Some (65, Some 7)
  /\ read_after [] 64 = Some (Some 0)
  /\ read_after [] (2 ^ 32 - 1) = None.
Proof. repeat split; vm_compute; reflexivity. Qed.

(** ** The hit and miss counters *)

Lemma getLineIndex_range (c : Cache.t) (a : Z) :
  0 < cacheSize (Cache.config c) -> addressable a ->
  0 <= Cache.getLineIndex c a < cacheSize (Cache.config c).
Proof.
  intros Hsize Ha. unfold Cache.getLineIndex, JS.rem, JS.sar.
  rewrite ToInt32_small by exact Ha.
  change (2 mod 32) with 2. rewrite Z.shiftr_div_pow2 by lia.
  apply Z.rem_bound_pos; [|lia].
  apply Z.div_pos; unfold addressable in Ha; lia.
Qed.

Lemma line_at_in_range (c : Cache.t) (i : Z) :
  well_formed c -> 0 <= i < cacheSize (Cache.config c) ->
  exists line, Cache.line_at (Cache.lines c) i = Some line.
Proof.
  intros Hwf Hi. unfold Cache.line_at.
  destruct (Z.ltb_spec i 0); [lia|].
  apply lookup_lt_is_Some. rewrite Hwf. lia.
Qed.

Lemma set_line_length (ls : list Cache.CacheLine) (i : Z) (l : Cache.CacheLine) :
  List.length (Cache.set_line ls i l) = List.length ls.
Proof.
  unfold Cache.set_line. destruct (i <? 0); [reflexivity|apply length_insert].
Qed.

Lemma line_at_set_line (ls : list Cache.CacheLine) (i : Z) (l l0 : Cache.CacheLine) :
  Cache.line_at ls i = Some l0 ->
  Cache.line_at (Cache.set_line ls i l) i = Some l.
Proof.
  unfold Cache.line_at, Cache.set_line. destruct (i <? 0); [discriminate|].
  intros H. apply list_lookup_insert_eq. eapply lookup_lt_Some; eassumption.
Qed.

(** [loadLine] on a resident slot: it returns, the counters and the
    configuration are as before, and the slot is still there. *)
Lemma loadLine_frame (a : Z) (c : Cache.t) (m : JS.array) (l0 : Cache.CacheLine) :
  Cache.line_at (Cache.lines c) (Cache.getLineIndex c a) = Some l0 ->
  exists c1 m1 l1,
    Cache.loadLine a c m = Some (c1, m1)
    /\ Cache.hits c1 = Cache.hits c /\ Cache.misses c1 = Cache.misses c
    /\ Cache.config c1 = Cache.config c
    /\ List.length (Cache.lines c1) = List.length (Cache.lines c)
    /\ Cache.line_at (Cache.lines c1) (Cache.getLineIndex c a) = Some l1.
Proof.
  intros Hl. unfold Cache.loadLine. rewrite Hl.
  eexists _, _, _. split; [reflexivity|].
  cbn. repeat split.
  - apply set_line_length.
  - eapply line_at_set_line; eassumption.
Qed.

Lemma read_counts (a : Z) (c : Cache.t) (m : JS.array) :
  0 < cacheSize (Cache.config c) -> well_formed c -> addressable a ->
  exists v h c1 m1,
    Cache.read a c m = Some (v, h, c1, m1)
    /\ well_formed c1 /\ Cache.config c1 = Cache.config c
    /\ (if h then counted_hit c c1 else counted_miss c c1).
Proof.
  intros Hsize Hwf Ha.
  destruct (line_at_in_range c _ Hwf (getLineIndex_range c a Hsize Ha)) as [l0 Hl0].
  unfold Cache.read. rewrite Hl0.
  destruct (Cache.valid l0 && (Cache.tag l0 =? Cache.getTag c a)).
  - eexists _, true, _, _. split; [reflexivity|].
    repeat split; assumption.
  - destruct (loadLine_frame a (Cache.with_miss c) m l0 Hl0)
      as (c1 & m1 & l1 & Hload & Hh & Hm & Hcfg & Hlen & Hl1).
    change (Cache.getLineIndex (Cache.with_miss c) a)
      with (Cache.getLineIndex c a) in *.
    rewrite Hload, Hl1.
    eexists _, false, _, _. split; [reflexivity|].
    repeat split; try assumption.
    unfold well_formed in *. rewrite Hlen, Hcfg. exact Hwf.
Qed.

Lemma write_counts (a : Z) (v : JS.value) (c : Cache.t) (m : JS.array) :
  0 < cacheSize (Cache.config c) -> well_formed c -> addressable a ->
  exists c1 m1,
    Cache.write a v c m = Some (true, c1, m1)
    /\ well_formed c1 /\ Cache.config c1 = Cache.config c
    /\ (counted_hit c c1 \/ counted_miss c c1).
Proof.
  intros Hsize Hwf Ha.
  destruct (line_at_in_range c _ Hwf (getLineIndex_range c a Hsize Ha)) as [l0 Hl0].
  unfold Cache.write. rewrite Hl0.
  destruct (Cache.valid l0 && (Cache.tag l0 =? Cache.getTag c a)).
  - eexists _, _. split; [reflexivity|]. cbn.
    repeat split.
    + unfold well_formed in *. cbn. rewrite set_line_length. exact Hwf.
    + left. split; reflexivity.
  - destruct (loadLine_frame a (Cache.with_miss c) m l0 Hl0)
      as (c1 & m1 & l1 & Hload & Hh & Hm & Hcfg & Hlen & Hl1).
    change (Cache.getLineIndex (Cache.with_miss c) a)
      with (Cache.getLineIndex c a) in *.
    rewrite Hload, Hl1.
    eexists _, _. split; [reflexivity|]. cbn.
    repeat split.
    + unfold well_formed in *. cbn. rewrite set_line_length, Hlen, Hcfg. exact Hwf.
    + exact Hcfg.
    + right. split; assumption.
Qed.

(** One call of a sequence: it returns, and a read or a write moves
    exactly one counter by one. *)
Lemma do_call_counts (st : Cache.t * JS.array) (call : cache_call) :
  0 < cacheSize (Cache.config (fst st)) -> well_formed (fst st) ->
  addressable_call call ->
  exists st1,
    do_call st call = Some st1
    /\ well_formed (fst st1)
    /\ Cache.config (fst st1) = Cache.config (fst st)
    /\ match call with
       | CResetStats => Cache.hits (fst st1) = 0 /\ Cache.misses (fst st1) = 0
       | _ => counted_hit (fst st) (fst st1) \/ counted_miss (fst st) (fst st1)
       end.
Proof.
  intros Hsize Hwf Hcall. destruct st as [c m]. cbn [fst snd] in *.
  destruct call as [a|a v|]; cbn [do_call fst snd].
  - destruct (read_counts a c m Hsize Hwf (Hcall a eq_refl))
      as (v & h & c1 & m1 & -> & Hwf1 & Hcfg & Hcount).
    exists (c1, m1). repeat split; try assumption.
    destruct h; [left|right]; assumption.
  - destruct (write_counts a v c m Hsize Hwf (Hcall a eq_refl))
      as (c1 & m1 & -> & Hwf1 & Hcfg & Hcount).
    exists (c1, m1). repeat split; assumption.
  - eexists. split; [reflexivity|]. cbn. repeat split. exact Hwf.
Qed.

Lemma do_calls_counts (cs : list cache_call) :
  forall (st : Cache.t * JS.array) (n : Z),
    0 < cacheSize (Cache.config (fst st)) -> well_formed (fst st) ->
    Forall addressable_call cs ->
    0 <= Cache.hits (fst st) -> 0 <= Cache.misses (fst st) ->
    Cache.hits (fst st) + Cache.misses (fst st) = n ->
    exists st1,
      do_calls st cs = Some st1
      /\ well_formed (fst st1)
      /\ Cache.config (fst st1) = Cache.config (fst st)
      /\ 0 <= Cache.hits (fst st1) /\ 0 <= Cache.misses (fst st1)
      /\ Cache.hits (fst st1) + Cache.misses (fst st1) = calls_since_reset n cs.
Proof.
  induction cs as [|call rest IH]; intros st n Hsize Hwf Hall Hh Hm Hn.
  - exists st. cbn. repeat split; assumption.
  - inversion Hall as [|? ? Hcall Hrest]; subst.
    destruct (do_call_counts st call Hsize Hwf Hcall)
      as (st1 & Hdo & Hwf1 & Hcfg & Hcount).
    cbn [do_calls]. rewrite Hdo.
    assert (Hsize1 : 0 < cacheSize (Cache.config (fst st1))) by (rewrite Hcfg; exact Hsize).
    destruct call as [a|a v|]; cbn [calls_since_reset].
    + destruct (IH st1 (Cache.hits (fst st) + Cache.misses (fst st) + 1)
                  Hsize1 Hwf1 Hrest) as (st2 & ? & ? & Hcfg2 & ?);
        try (unfold counted_hit, counted_miss in Hcount; lia).
      exists st2. repeat split; try tauto. rewrite Hcfg2. exact Hcfg.
    + destruct (IH st1 (Cache.hits (fst st) + Cache.misses (fst st) + 1)
                  Hsize1 Hwf1 Hrest) as (st2 & ? & ? & Hcfg2 & ?);
        try (unfold counted_hit, counted_miss in Hcount; lia).
      exists st2. repeat split; try tauto. rewrite Hcfg2. exact Hcfg.
    + destruct (IH st1 0 Hsize1 Hwf1 Hrest) as (st2 & ? & ? & Hcfg2 & ?); try lia.
      exists st2. repeat split; try tauto. rewrite Hcfg2. exact Hcfg.
Qed.

Lemma new_well_formed (cfg : MemoryConfig) : well_formed (Cache.new cfg).
Proof. unfold well_formed, Cache.new. cbn. apply length_replicate. Qed.

(** The hit rate of a cache whose counters are not negative. *)
Lemma hitRate_spec (c : Cache.t) :
  0 <= Cache.hits c -> 0 <= Cache.misses c ->
  let s := Cache.getStats c in
  let total := Cache.hits c + Cache.misses c in
  (0 < total -> (Cache.hitRate s == inject_Z (Cache.hits c) / inject_Z total)%Q)
  /\ (total = 0 -> Cache.hitRate s = 0%Q)
  /\ (0 <= Cache.hitRate s <= 1)%Q.
Proof.
  intros Hh Hm s total. subst s. unfold Cache.getStats. cbn [Cache.hitRate].
  fold total. destruct (Z.ltb_spec 0 total) as [Hpos|Hzero].
  - split; [|split]; [intros _|lia|].
    + rewrite Qmake_Qdiv. rewrite Z2Pos.id by exact Hpos. reflexivity.
    + unfold Qle. cbn. rewrite Z2Pos.id by exact Hpos. subst total. lia.
  - split; [|split]; [lia|reflexivity|].
    unfold Qle. cbn. lia.
Qed.

(** X30. From a new cache, over any memory array and along any sequence
    of reads, writes and [resetStats] at addressable addresses: every call
    returns; the hits and the misses add up to the number of reads and
    writes since construction or the last [resetStats]; the hit rate is
    hits / (hits + misses) when that total is positive and 0 otherwise,
    and lies between 0 and 1; and one more read or write moves exactly
    one of the two counters, by exactly one. *)
Theorem hits_plus_misses_count_calls (cfg : MemoryConfig) (m : JS.array)
    (cs : list cache_call) :
  0 < cacheSize cfg ->
  Forall addressable_call cs ->
  exists c1 m1,
    do_calls (Cache.new cfg, m) cs = Some (c1, m1)
    /\ (let s := Cache.getStats c1 in
        let total := Cache.stat_hits s + Cache.stat_misses s in
        total = calls_since_reset 0 cs
        /\ (0 < total ->
            (Cache.hitRate s == inject_Z (Cache.stat_hits s) / inject_Z total)%Q)
        /\ (total = 0 -> Cache.hitRate s = 0%Q)
        /\ (0 <= Cache.hitRate s <= 1)%Q)
    /\ (forall call,
           addressable_call call -> call <> CResetStats ->
           exists c2 m2,
             do_call (c1, m1) call = Some (c2, m2)
             /\ (counted_hit c1 c2 \/ counted_miss c1 c2)).
Proof.
  intros Hsize Hall.
  destruct (do_calls_counts cs (Cache.new cfg, m) 0 Hsize (new_well_formed cfg) Hall)
    as ([c1 m1] & Hrun & Hwf & Hcfg & Hh & Hm & Hsum); cbn; try lia.
  cbn [fst] in *.
  exists c1, m1. split; [exact Hrun|]. split.
  - destruct (hitRate_spec c1 Hh Hm) as (Hq & Hz & Hb).
    cbn zeta in *. repeat split; try assumption; apply Hb.
  - intros call Hcall Hne.
    assert (Hsize1 : 0 < cacheSize (Cache.config c1)) by (rewrite Hcfg; exact Hsize).
    destruct (do_call_counts (c1, m1) call Hsize1 Hwf Hcall)
      as ([c2 m2] & Hdo & _ & _ & Hcount).
    exists c2, m2. split; [exact Hdo|].
    destruct call; try assumption. contradiction.
Qed.

Lemma hits_plus_misses_count_calls_witness :
  0 < cacheSize small_memory
  /\ Forall addressable_call [CRead 0; CWrite 4 (Some 1); CResetStats; CRead 0; CRead 1]
  /\ exists c1 m1,
       do_calls (Cache.new small_memory, JS.filled 64 0)
                [CRead 0; CWrite 4 (Some 1); CResetStats; CRead 0; CRead 1]
       = Some (c1, m1)
       /\ Cache.hits c1 + Cache.misses c1 = 2.
Proof.
  assert (Hsize : 0 < cacheSize small_memory) by (cbn; lia).
  assert (Hall : Forall addressable_call
                   [CRead 0; CWrite 4 (Some 1); CResetStats; CRead 0; CRead 1]).
  { repeat (apply Forall_cons_2;
            [intros a Ha; cbn in Ha; try discriminate Ha;
             injection Ha as <-; unfold addressable; lia|]).
    apply Forall_nil_2. }
  split; [exact Hsize|]. split; [exact Hall|].
  destruct (hits_plus_misses_count_calls small_memory (JS.filled 64 0) _ Hsize Hall)
    as (c1 & m1 & Hrun & (Htotal & _) & _).
  exists c1, m1. split; [exact Hrun|exact Htotal].
Defined.

(** C10, at the failing input.  The address 4294967295, which the first
    cycle of the program [LDR R0, [R0 - 1]] computes from a register
    holding 0, has the line index -1: [Cache.read] and [Cache.write]
    raise on the line that is not there, before the hit or the miss is
    counted, and so does the cycle of the engine.  The call is made and
    neither counter moves.  At 2147483647, the last address whose signed
    shift is not negative, the read returns and is counted as a miss. *)
Theorem read_beyond_2_31_raises_uncounted :
  Cache.getLineIndex (Cache.new small_memory) 4294967295 = -1
  /\ Cache.read 4294967295 (Cache.new small_memory) (JS.filled 64 0) = None
  /\ Cache.write 4294967295 (Some 1) (Cache.new small_memory) (JS.filled 64 0) = None
  /\ do_calls (Cache.new small_memory, JS.filled 64 0) [CRead 0; CRead 4294967295]
     = None
  /\ option_map (fun '(c, _) => (Cache.hits c, Cache.misses c))
                (do_calls (Cache.new small_memory, JS.filled 64 0)
                          [CRead 0; CRead 2147483647])
     = Some (0, 2)
  /\ Instructions.effective_address (Some 0) (Some (-1)) = 4294967295
  /\ ExecutionEngine.executeCycle (machine 1000 [word_LDR_R0_R0_minus_1]) = None.
Proof. repeat split; vm_compute; reflexivity. Qed.

(** ** reset *)

Lemma indices_spec (n : nat) :
  forall lo i, In i (JS.indices lo n) <-> lo <= i < lo + Z.of_nat n.
Proof.
  induction n as [|n IH]; intros lo i; cbn [JS.indices In].
  - lia.
  - rewrite IH. lia.
Qed.

Lemma foldr_insert_lookup (l : list Z) (m : gmap Z Z) (v i : Z) :
  In i l -> foldr (fun i m => <[i := v]> m) m l !! i = Some v.
Proof.
  induction l as [|j l IH]; cbn [foldr In]; [tauto|].
  intros [->|Hin].
  - apply lookup_insert_eq.
  - destruct (decide (j = i)) as [->|Hne].
    + apply lookup_insert_eq.
    + rewrite lookup_insert_ne by exact Hne. auto.
Qed.

(** [fill] keeps the length and leaves [v] at every index below it. *)
Lemma fill_spec (a : JS.array) (v : Z) :
  JS.length (JS.fill a v) = JS.length a
  /\ forall i, 0 <= i < JS.length a -> JS.get (JS.fill a v) i = Some v.
Proof.
  split; [reflexivity|]. intros i Hi.
  unfold JS.get, JS.fill. cbn [JS.elems].
  apply foldr_insert_lookup. apply indices_spec. lia.
Qed.

(** C8, as the code has it.  After [reset] the cycle counter is 0, the
    register file holds no thread, the engine's memory has its length and
    0 in every word, the scheduler has no warps, and the cache counters
    are 0; the instruction memory is the one loaded before.  The cache
    lines are those from before the reset, and so is the memory
    controller with its own memory, queue and responses. *)
Theorem reset_effect (e : ExecutionEngine.t) :
  let e' := ExecutionEngine.reset e in
  ExecutionEngine.cycle e' = 0
  /\ ExecutionEngine.registerFile e' = ∅
  /\ JS.length (ExecutionEngine.memory e') = JS.length (ExecutionEngine.memory e)
  /\ (forall i, 0 <= i < JS.length (ExecutionEngine.memory e) ->
                JS.get (ExecutionEngine.memory e') i = Some 0)
  /\ ThreadScheduler.warps (ExecutionEngine.threadScheduler e') = []
  /\ option_map Cache.hits (ExecutionEngine.cache e')
     = option_map (fun _ => 0) (ExecutionEngine.cache e)
  /\ option_map Cache.misses (ExecutionEngine.cache e')
     = option_map (fun _ => 0) (ExecutionEngine.cache e)
  /\ ExecutionEngine.instructionMemory e' = ExecutionEngine.instructionMemory e
  /\ ExecutionEngine.maxCycles e' = ExecutionEngine.maxCycles e
  /\ option_map Cache.lines (ExecutionEngine.cache e')
     = option_map Cache.lines (ExecutionEngine.cache e)
  /\ ExecutionEngine.memoryController e' = ExecutionEngine.memoryController e.
Proof.
  cbn zeta. unfold ExecutionEngine.reset. cbn.
  repeat split; try (destruct (ExecutionEngine.cache e); reflexivity).
  intros i Hi. apply fill_spec. exact Hi.
Qed.

(** C8, against the claim: the cycle that runs [LDR R0, [R1 + 0]] makes
    line 0 of the cache valid, and after [reset] the line is valid still,
    whereas no line of a new engine is. *)
Lemma reset_keeps_cache_lines :
  option_map (fun '(_, e) => valid_lines (ExecutionEngine.reset e))
             (cycles 1 (machine 1000 [word_LDR_R0_R1]))
  = Some (Some [true; false; false; false])
  /\ valid_lines (machine 1000 [word_LDR_R0_R1])
     = Some [false; false; false; false]
  /\ option_map (fun '(_, e) => valid_lines (ExecutionEngine.reset e))
                (cycles 1 (machine 1000 [word_LDR_R0_R1]))
     <> Some (valid_lines (machine 1000 [word_LDR_R0_R1])).
Proof.
  split; [vm_compute; reflexivity|].
  split; [vm_compute; reflexivity|].
  vm_compute. discriminate.
Qed.

(** ** run and the cycle bound *)

(** At the bound [executeCycle] returns false and changes nothing. *)
Lemma executeCycle_at_bound (e : ExecutionEngine.t) :
  ExecutionEngine.maxCycles e <= ExecutionEngine.cycle e ->
  ExecutionEngine.executeCycle e = Some (false, e).
Proof.
  intros H. unfold ExecutionEngine.executeCycle.
  destruct (Z.leb_spec (ExecutionEngine.maxCycles e) (ExecutionEngine.cycle e)); [reflexivity|lia].
Qed.

(** A call that returns true was made below the bound and advanced the
    counter by one. *)
Lemma executeCycle_true (e e1 : ExecutionEngine.t) :
  ExecutionEngine.executeCycle e = Some (true, e1) ->
  ExecutionEngine.cycle e < ExecutionEngine.maxCycles e
  /\ ExecutionEngine.cycle e1 = ExecutionEngine.cycle e + 1
  /\ ExecutionEngine.maxCycles e1 = ExecutionEngine.maxCycles e.
Proof.
  unfold ExecutionEngine.executeCycle.
  destruct (Z.leb_spec (ExecutionEngine.maxCycles e) (ExecutionEngine.cycle e));
    [discriminate|].
  destruct (ThreadScheduler.getNextWarp _) as [[[i|] sch]|]; try discriminate.
  destruct (ThreadScheduler.warps sch !! i); [|discriminate].
  destruct (ExecutionEngine.stepThreads _ _ _) as [[ths s]|]; [|discriminate].
  intros [= _ <-]. cbn. lia.
Qed.

(** The loop ends within the cycles that are left, plus the call that
    reports the end. *)
Lemma run_loop_bounded (k : nat) :
  forall (e : ExecutionEngine.t) (fuel : nat),
    ExecutionEngine.maxCycles e - ExecutionEngine.cycle e <= Z.of_nat k ->
    (k < fuel)%nat ->
    exists o calls,
      ExecutionEngine.run_loop fuel e = Some (o, calls)
      /\ (1 <= calls <= S k)%nat.
Proof.
  induction k as [|k IH]; intros e fuel Hleft Hfuel;
    (destruct fuel as [|fuel]; [lia|]); cbn [ExecutionEngine.run_loop].
  - rewrite executeCycle_at_bound by lia. eexists _, _. split; [reflexivity|lia].
  - destruct (ExecutionEngine.executeCycle e) as [[[|] e1]|] eqn:E.
    + apply executeCycle_true in E as (Hlt & Hc & Hm).
      destruct (IH e1 fuel) as (o & calls & -> & Hcalls); [lia|lia|].
      eexists _, _. split; [reflexivity|lia].
    + eexists _, _. split; [reflexivity|lia].
    + eexists _, _. split; [reflexivity|lia].
Qed.

(** C6, as the code has it.  [run] ends for every engine: with the
    cycles left up to the bound counted by [maxCycles - cycle], the loop
    is over after at most that many calls of [executeCycle] plus one, the
    last call being the only one that does not return true; and a call
    made at or past the bound returns false, leaves the engine as it was
    and raises nothing. *)
Theorem run_terminates (e : ExecutionEngine.t) (fuel : nat) :
  let left := Z.to_nat (ExecutionEngine.maxCycles e - ExecutionEngine.cycle e) in
  (left < fuel)%nat ->
  (exists o calls,
      ExecutionEngine.run_loop fuel e = Some (o, calls)
      /\ (1 <= calls <= left + 1)%nat)
  /\ (ExecutionEngine.maxCycles e <= ExecutionEngine.cycle e ->
      ExecutionEngine.executeCycle e = Some (false, e)).
Proof.
  cbn zeta. intros Hfuel. split; [|apply executeCycle_at_bound].
  destruct (run_loop_bounded
              (Z.to_nat (ExecutionEngine.maxCycles e - ExecutionEngine.cycle e))
              e fuel ltac:(lia) Hfuel) as (o & calls & Hrun & Hcalls).
  exists o, calls. split; [exact Hrun|lia].
Qed.

Lemma run_terminates_witness :
  (Z.to_nat (ExecutionEngine.maxCycles (machine 3 [word_BR_back1])
             - ExecutionEngine.cycle (machine 3 [word_BR_back1])) < 10)%nat
  /\ exists o calls,
       ExecutionEngine.run_loop 10 (machine 3 [word_BR_back1]) = Some (o, calls)
       /\ (1 <= calls <= 4)%nat.
Proof.
  assert (H : (Z.to_nat (ExecutionEngine.maxCycles (machine 3 [word_BR_back1])
                         - ExecutionEngine.cycle (machine 3 [word_BR_back1])) < 10)%nat)
    by (vm_compute; lia).
  split; [exact H|].
  destruct (run_terminates (machine 3 [word_BR_back1]) 10 H) as [(o & calls & Hrun & Hcalls) _].
  exists o, calls. split; [exact Hrun|exact Hcalls].
Defined.

(** C6, against the claim: with [maxCycles] at 1 and the program
    [NOP; NOP], [run] calls [executeCycle] twice. *)
Lemma run_calls_exceed_maxCycles :
  ExecutionEngine.maxCycles (machine 1 [word_NOP; word_NOP]) = 1
  /\ option_map snd (ExecutionEngine.run_loop 10 (machine 1 [word_NOP; word_NOP]))
     = Some 2%nat
  /\ ~ (forall o calls,
           ExecutionEngine.run_loop 10 (machine 1 [word_NOP; word_NOP])
           = Some (o, calls) ->
           Z.of_nat calls <= ExecutionEngine.maxCycles (machine 1 [word_NOP; word_NOP])).
Proof.
  split; [reflexivity|]. split; [vm_compute; reflexivity|].
  intros H.
  destruct (ExecutionEngine.run_loop 10 (machine 1 [word_NOP; word_NOP]))
    as [[o calls]|] eqn:E.
  - specialize (H o calls eq_refl).
    assert (Hc : option_map snd (ExecutionEngine.run_loop 10 (machine 1 [word_NOP; word_NOP]))
                 = Some 2%nat) by (vm_compute; reflexivity).
    rewrite E in Hc. cbn in Hc. injection Hc as ->.
    change (ExecutionEngine.maxCycles (machine 1 [word_NOP; word_NOP])) with 1 in H.
    lia.
  - assert (Hc : option_map snd (ExecutionEngine.run_loop 10 (machine 1 [word_NOP; word_NOP]))
                 = Some 2%nat) by (vm_compute; reflexivity).
    rewrite E in Hc. discriminate.
Qed.

(** ** The program counter across a cycle *)

Lemma stepThread_checked (instructions : list Z) (th th' : ThreadState)
    (s s' : ExecutionEngine.shared) :
  active th = true ->
  ExecutionEngine.stepThread instructions th s = Some (th', s') ->
  checked_at_fetch (Z.of_nat (List.length instructions)) th th'.
Proof.
  intros Hact. unfold ExecutionEngine.stepThread.
  destruct (Z.leb_spec (Z.of_nat (List.length instructions)) (pc th)) as [Hge|Hlt].
  - intros [= <- <-]. repeat split; intros; try congruence. now left.
  - destruct (Instructions.executeInstruction _ _) as [[result context']|];
      [|discriminate].
    unfold ExecutionEngine.updateThreadState.
    destruct (RegisterFile.getRegisters _ _) as [regs rf].
    intros [= <- <-]. repeat split; intros; try congruence; try lia.
    right. split; [exact Hact|exact Hlt].
Qed.

Lemma stepThreads_checked (instructions : list Z) (ths : list ThreadState) :
  forall (ths' : list ThreadState) (s s' : ExecutionEngine.shared),
    ExecutionEngine.stepThreads instructions ths s = Some (ths', s') ->
    Forall2 (checked_at_fetch (Z.of_nat (List.length instructions))) ths ths'.
Proof.
  induction ths as [|th rest IH]; intros ths' s s'; cbn [ExecutionEngine.stepThreads].
  - intros [= <- <-]. constructor.
  - destruct (active th) eqn:Hact.
    + destruct (ExecutionEngine.stepThread instructions th s) as [[th1 s1]|] eqn:E;
        [|discriminate].
      destruct (ExecutionEngine.stepThreads instructions rest s1) as [[rest' s2]|] eqn:Er;
        [|discriminate].
      intros [= <- <-]. constructor; [|eapply IH; eassumption].
      eapply stepThread_checked; eassumption.
    + destruct (ExecutionEngine.stepThreads instructions rest s) as [[rest' s2]|] eqn:Er;
        [|discriminate].
      intros [= <- <-]. constructor; [|eapply IH; eassumption].
      repeat split; intros; try congruence. left. exact Hact.
Qed.

(** Picking a warp leaves the warps as they are. *)
Lemma getNextWarp_warps (s s' : ThreadScheduler.t) (found : option nat) :
  ThreadScheduler.getNextWarp s = Some (found, s') ->
  ThreadScheduler.warps s' = ThreadScheduler.warps s.
Proof.
  unfold ThreadScheduler.getNextWarp.
  destruct (ThreadScheduler.warps s) eqn:Hw.
  - intros [= _ <-]. exact Hw.
  - destruct (ThreadScheduler.scan_warps _ _ _) as [[f idx]|]; [|discriminate].
    intros [= _ <-]. cbn. congruence.
Qed.

(** C4, as the code has it.  Of the warp a cycle schedules, every thread
    is checked when the cycle comes to fetch for it: an active thread
    whose PC has reached the length of the instruction memory is
    deactivated with its PC unchanged, and a thread that is active after
    the cycle was fetched for at a PC below that length.  The threads of
    the other warps are as before the cycle. *)
Theorem scheduled_threads_checked_at_fetch (e e' : ExecutionEngine.t)
    (b : bool) (i : nat) :
  scheduled e = Some i ->
  ExecutionEngine.cycle e < ExecutionEngine.maxCycles e ->
  ExecutionEngine.executeCycle e = Some (b, e') ->
  (forall j th',
      thread_at e' i j = Some th' ->
      exists th,
        thread_at e i j = Some th
        /\ checked_at_fetch
             (Z.of_nat (List.length (ExecutionEngine.instructionMemory e)))
             th th')
  /\ (forall i' j, i' <> i -> thread_at e' i' j = thread_at e i' j).
Proof.
  unfold scheduled, ExecutionEngine.executeCycle. intros Hsched Hlt.
  destruct (Z.leb_spec (ExecutionEngine.maxCycles e) (ExecutionEngine.cycle e)); [lia|].
  destruct (ThreadScheduler.getNextWarp _) as [[[i0|] sch]|] eqn:Hnext;
    try discriminate.
  injection Hsched as ->.
  apply getNextWarp_warps in Hnext.
  destruct (ThreadScheduler.warps sch !! i) as [warp|] eqn:Hwarp; [|discriminate].
  destruct (ExecutionEngine.stepThreads _ _ _) as [[ths s]|] eqn:Hstep; [|discriminate].
  intros [= _ <-]. apply stepThreads_checked in Hstep.
  unfold thread_at. cbn [ExecutionEngine.threadScheduler ThreadScheduler.tick
                         ThreadScheduler.warps].
  unfold ExecutionEngine.set_warp_threads. rewrite Hwarp, <- Hnext.
  split.
  - intros j th'. rewrite list_lookup_insert_eq by (eapply lookup_lt_Some; eassumption).
    rewrite Hwarp. cbn [ThreadScheduler.warp_threads]. intros Hj.
    destruct (Forall2_lookup_r _ _ _ _ _ Hstep Hj) as (th & Hth & Hc).
    exists th. split; assumption.
  - intros i' j Hne. rewrite list_lookup_insert_ne by congruence. reflexivity.
Qed.

(** After two cycles of [two_warps] both threads stand at PC 1, the
    length of the program, and are active.  The third cycle schedules
    warp 0: its thread is deactivated where it stands, and the thread of
    warp 1 is as before. *)
Lemma scheduled_threads_checked_at_fetch_witness :
  scheduled (after 2 two_warps) = Some 0%nat
  /\ ExecutionEngine.cycle (after 2 two_warps)
     < ExecutionEngine.maxCycles (after 2 two_warps)
  /\ state_at (after 2 two_warps) 0 0 = Some (1, true)
  /\ state_at (after 2 two_warps) 1 0 = Some (1, true)
  /\ exists b e',
       ExecutionEngine.executeCycle (after 2 two_warps) = Some (b, e')
       /\ (forall j th',
             thread_at e' 0 j = Some th' ->
             exists th,
               thread_at (after 2 two_warps) 0 j = Some th
               /\ checked_at_fetch 1 th th')
       /\ (forall i' j,
             i' <> 0%nat ->
             thread_at e' i' j = thread_at (after 2 two_warps) i' j)
       /\ state_at e' 0 0 = Some (1, false)
       /\ state_at e' 1 0 = Some (1, true).
Proof.
  assert (Hs : scheduled (after 2 two_warps) = Some 0%nat)
    by (vm_compute; reflexivity).
  assert (Hc : ExecutionEngine.cycle (after 2 two_warps)
               < ExecutionEngine.maxCycles (after 2 two_warps))
    by (vm_compute; reflexivity).
  split; [exact Hs|]. split; [exact Hc|].
  split; [vm_compute; reflexivity|]. split; [vm_compute; reflexivity|].
  assert (Hobs : option_map (fun '(_, e') => (state_at e' 0 0, state_at e' 1 0))
                            (ExecutionEngine.executeCycle (after 2 two_warps))
                 = Some (Some (1, false), Some (1, true)))
    by (vm_compute; reflexivity).
  destruct (ExecutionEngine.executeCycle (after 2 two_warps))
    as [[b e']|] eqn:E; [|discriminate Hobs].
  cbn [option_map] in Hobs. injection Hobs as H0 H1.
  exists b, e'. split; [reflexivity|].
  destruct (scheduled_threads_checked_at_fetch _ e' b 0%nat Hs Hc E) as [Hin Hout].
  split; [exact Hin|]. split; [exact Hout|]. split; [exact H0|exact H1].
Defined.

(** C4, against the claim: after the cycle that executes the only
    instruction of the program [NOP], the thread is active with its PC at
    1, the length of the instruction memory. *)
Lemma active_thread_past_last_instruction :
  all_pc_valid_or_inactive (machine 1000 [word_NOP]) = true
  /\ observe (cycles 1 (machine 1000 [word_NOP])) = Some ([true], [(1, true)], 1)
  /\ option_map (fun '(_, e) => all_pc_valid_or_inactive e)
                (cycles 1 (machine 1000 [word_NOP]))
     = Some false.
Proof. repeat split; vm_compute; reflexivity. Qed.

(** The branch [BR #-1] at PC 0 leaves the thread active at PC -1; the
    next cycle fetches [undefined] there, which decodes to NOP, and the
    thread is back at PC 0. *)
Example backward_branch_from_zero :
  observe (cycles 1 (machine 1000 [word_BR_back1])) = Some ([true], [(-1, true)], 1)
  /\ observe (cycles 2 (machine 1000 [word_BR_back1]))
     = Some ([true; true], [(0, true)], 2).
Proof. split; vm_compute; reflexivity. Qed.

(** ** Coalescing against one-by-one servicing *)

Lemma set_set_commute (a : JS.array) (i j x y : Z) :
  i <> j ->
  JS.set (JS.set a i (Some x)) j (Some y) = JS.set (JS.set a j (Some y)) i (Some x).
Proof.
  intros Hne. unfold JS.set. cbn [JS.length JS.elems]. f_equal.
  - destruct ((0 <=? i) && (i <? 2 ^ 32 - 1)), ((0 <=? j) && (j <? 2 ^ 32 - 1)); lia.
  - apply insert_insert_ne. congruence.
Qed.

Lemma get_set_ne (a : JS.array) (i j : Z) (v : JS.value) :
  i <> j -> JS.get (JS.set a i v) j = JS.get a j.
Proof.
  intros Hne. unfold JS.get, JS.set. cbn [JS.elems].
  destruct v; [apply lookup_insert_ne|apply lookup_delete_ne]; exact Hne.
Qed.

Lemma compatible_sym (r1 r2 : MemoryRequest) : compatible r1 r2 -> compatible r2 r1.
Proof.
  intros [Ha Hi]. split.
  - intros E. destruct (Ha (eq_sym E)). tauto.
  - intros E. symmetry. apply Hi. symmetry. exact E.
Qed.

(** Two compatible requests are serviced with the same effect in either
    order. *)
Lemma service_commute (st : JS.array * gmap Z MemoryResponse) (r1 r2 : MemoryRequest) :
  compatible r1 r2 ->
  MemoryController.service (MemoryController.service st r1) r2
  = MemoryController.service (MemoryController.service st r2) r1.
Proof.
  intros [Haddr Hid]. destruct st as [mem responses].
  unfold MemoryController.service.
  destruct (decide (req_address r1 = req_address r2)) as [Heq|Hne].
  - destruct (Haddr Heq) as [Hw1 Hw2]. rewrite Hw1, Hw2, Heq. f_equal.
    destruct (decide (MemoryController.getRequestId r1 = MemoryController.getRequestId r2))
      as [Hi|Hi].
    + rewrite Hi. reflexivity.
    + apply insert_insert_ne. congruence.
  - assert (Hi : MemoryController.getRequestId r1 <> MemoryController.getRequestId r2)
      by (intros E; apply Hne, Hid, E).
    destruct (req_write r1), (req_data r1) as [x|], (req_write r2), (req_data r2) as [y|];
      rewrite ?get_set_ne by congruence;
      f_equal; try (apply insert_insert_ne; congruence);
      apply set_set_commute; exact Hne.
Qed.

Lemma ForallOrdPairs_perm (l l' : list MemoryRequest) :
  Permutation l l' ->
  ForallOrdPairs compatible l -> ForallOrdPairs compatible l'.
Proof.
  induction 1 as [|x l l' Hp IH|x y l|l l' l'' _ IH1 _ IH2]; intros H.
  - exact H.
  - inversion H as [|? ? Hx Hl]; subst. constructor; [|auto].
    rewrite List.Forall_forall in *. intros r Hr. apply Hx.
    eapply Permutation_in; [symmetry; exact Hp|exact Hr].
  - inversion H as [|? ? Hy Hxl]; subst.
    inversion Hxl as [|? ? Hx Hl]; subst.
    inversion Hy as [|? ? Hyx Hyl]; subst.
    constructor; [constructor; [apply compatible_sym; exact Hyx|exact Hx]|].
    constructor; assumption.
  - auto.
Qed.

(** Servicing a batch of pairwise compatible requests one by one does not
    depend on the order. *)
Lemma service_all_perm (l l' : list MemoryRequest) :
  Permutation l l' ->
  ForallOrdPairs compatible l ->
  forall st, fold_left MemoryController.service l st
             = fold_left MemoryController.service l' st.
Proof.
  induction 1 as [|x l l' Hp IH|x y l|l l' l'' Hp1 IH1 Hp2 IH2]; intros H st.
  - reflexivity.
  - inversion H; subst. cbn. apply IH. assumption.
  - inversion H as [|? ? Hy _]; subst. inversion Hy; subst.
    cbn. rewrite service_commute by assumption. reflexivity.
  - rewrite IH1 by exact H. apply IH2.
    eapply ForallOrdPairs_perm; eassumption.
Qed.

Lemma insert_sorted_perm (r : MemoryRequest) (l : list MemoryRequest) :
  Permutation (MemoryController.insert_sorted r l) (r :: l).
Proof.
  induction l as [|x l IH]; cbn; [reflexivity|].
  destruct (req_address r <? req_address x); [reflexivity|].
  rewrite IH. apply perm_swap.
Qed.

Lemma sort_perm (l : list MemoryRequest) :
  Permutation (MemoryController.sort l) l.
Proof.
  unfold MemoryController.sort.
  enough (forall acc,
             Permutation
               (fold_left (fun acc r => MemoryController.insert_sorted r acc) l acc)
               (l ++ acc)) as H
    by (rewrite H, app_nil_r; reflexivity).
  induction l as [|r l IH]; intros acc; cbn; [reflexivity|].
  rewrite IH, insert_sorted_perm. symmetry. apply Permutation_middle.
Qed.

(** The coalescing loop services some requests on the spot and keeps the
    others for the second loop; together they are the requests it
    scanned. *)
Lemma scan_splits (l : list MemoryRequest) :
  forall s : MemoryController.scan,
  exists merged heads,
    MemoryController.served (fold_left MemoryController.scan_step l s)
    = fold_left MemoryController.service merged (MemoryController.served s)
    /\ MemoryController.finish (fold_left MemoryController.scan_step l s)
       = MemoryController.finish s ++ heads
    /\ Permutation (merged ++ heads) l.
Proof.
  induction l as [|r l IH]; intros s.
  - exists [], []. cbn. rewrite app_nil_r. auto.
  - cbn [fold_left].
    destruct (IH (MemoryController.scan_step s r)) as (merged & heads & Hs & Hf & Hp).
    rewrite Hs, Hf. clear Hs Hf IH.
    unfold MemoryController.scan_step, MemoryController.finish.
    destruct (MemoryController.current s) as [cur|] eqn:Hcur;
      [destruct (MemoryController.canCoalesce cur r) eqn:Hco|];
      cbn [MemoryController.current MemoryController.coalesced
           MemoryController.served].
    + exists (r :: merged), heads. split; [reflexivity|]. split; [reflexivity|].
      constructor. exact Hp.
    + exists merged, (r :: heads). split; [reflexivity|]. split.
      * rewrite <- !app_assoc. reflexivity.
      * rewrite <- Permutation_middle. constructor. exact Hp.
    + exists merged, (r :: heads). split; [reflexivity|]. split.
      * rewrite <- !app_assoc. reflexivity.
      * rewrite <- Permutation_middle. constructor. exact Hp.
Qed.

(** [processRequests] services the pending requests one by one, in some
    order. *)
Lemma processRequests_reorders (mc : MemoryController.t) :
  exists order,
    Permutation order (MemoryController.pendingRequests mc)
    /\ MemoryController.processRequests mc
       = processIndividually
           {| MemoryController.memory := MemoryController.memory mc;
              MemoryController.config := MemoryController.config mc;
              MemoryController.pendingRequests := order;
              MemoryController.responseQueue := MemoryController.responseQueue mc |}.
Proof.
  destruct (scan_splits (MemoryController.sort (MemoryController.pendingRequests mc))
              (MemoryController.mkScan None []
                 (MemoryController.memory mc, MemoryController.responseQueue mc)))
    as (merged & heads & Hs & Hf & Hp).
  exists (merged ++ heads). split.
  - rewrite Hp. apply sort_perm.
  - unfold MemoryController.processRequests, processIndividually.
    cbn [MemoryController.pendingRequests MemoryController.memory
         MemoryController.responseQueue MemoryController.config].
    rewrite Hs, Hf. cbn [MemoryController.finish MemoryController.current
                          MemoryController.coalesced MemoryController.served app].
    rewrite fold_left_app. reflexivity.
Qed.

(** C3, as the code has it.  When no two requests of the batch meet at
    one address unless both are reads, and no two requests of different
    addresses share a request id, [processRequests] leaves the memory and
    the responses exactly as servicing the requests one by one, in the
    order they were queued, does. *)
Theorem coalescing_safe_without_conflicts (mc : MemoryController.t) :
  ForallOrdPairs compatible (MemoryController.pendingRequests mc) ->
  MemoryController.processRequests mc = processIndividually mc.
Proof.
  intros Hcompat.
  destruct (processRequests_reorders mc) as (order & Hp & ->).
  unfold processIndividually.
  cbn [MemoryController.pendingRequests MemoryController.memory
       MemoryController.responseQueue MemoryController.config].
  rewrite <- (service_all_perm _ _ (Permutation_sym Hp) Hcompat).
  reflexivity.
Qed.

(** Requests of different addresses and different ids are compatible. *)
Lemma distinct_compatible (r1 r2 : MemoryRequest) :
  (req_address r1 =? req_address r2) = false ->
  (MemoryController.getRequestId r1 =? MemoryController.getRequestId r2) = false ->
  compatible r1 r2.
Proof.
  intros Ha Hi. apply Z.eqb_neq in Ha, Hi. split; intros E; contradiction.
Qed.

(** Two reads of one address are compatible. *)
Lemma reads_compatible (r1 r2 : MemoryRequest) :
  req_write r1 = false -> req_write r2 = false ->
  req_address r1 = req_address r2 ->
  compatible r1 r2.
Proof.
  intros H1 H2 Ha. split; intros _; [split; assumption|exact Ha].
Qed.

(** The request id as the code computes it: for thread 9007199255 at
    address 1 the sum is rounded to the id of the same thread at
    address 0. *)
Example getRequestId_rounds :
  MemoryController.getRequestId (mkMemoryRequest 1 None false 9007199255 0)
  = 9007199255000000
  /\ MemoryController.getRequestId (mkMemoryRequest 0 None false 9007199255 0)
     = 9007199255000000
  /\ MemoryController.getRequestId (mkMemoryRequest 10001 None false 7 3) = 7040001.
Proof. repeat split; vm_compute; reflexivity. Qed.

Lemma coalescing_safe_without_conflicts_witness :
  ForallOrdPairs compatible (MemoryController.pendingRequests merging_batch)
  /\ MemoryController.processRequests merging_batch
     = processIndividually merging_batch
  /\ map req_address (MemoryController.pendingRequests merging_batch)
     = [12; 10; 33; 30; 14; 30]
  /\ map req_address (group_heads merging_batch) = [10; 30]
  /\ map (JS.get (MemoryController.memory
                    (MemoryController.processRequests merging_batch)))
         [10; 12; 14; 30]
     = [Some 1; Some 2; Some 3; Some 130]
  /\ map (response_data (MemoryController.processRequests merging_batch))
         [10; 1000012; 2000030; 3000033; 4000014; 5000030]
     = [Some (Some 1); Some (Some 2); Some (Some 130); Some (Some 133);
        Some (Some 3); Some (Some 130)].
Proof.
  assert (H : ForallOrdPairs compatible
                (MemoryController.pendingRequests merging_batch)).
  { change (MemoryController.pendingRequests merging_batch)
      with [ mkMemoryRequest 12 (Some 2) true 1 0;
             mkMemoryRequest 10 (Some 1) true 0 0;
             mkMemoryRequest 33 None false 3 0;
             mkMemoryRequest 30 None false 2 0;
             mkMemoryRequest 14 (Some 3) true 4 0;
             mkMemoryRequest 30 None false 5 0 ].
    repeat first
      [ apply FOP_nil | apply FOP_cons | apply Forall_nil_2 | apply Forall_cons_2
      | apply distinct_compatible; vm_compute; reflexivity
      | apply reads_compatible; reflexivity ]. }
  split; [exact H|].
  split; [exact (coalescing_safe_without_conflicts merging_batch H)|].
  repeat split; vm_compute; reflexivity.
Defined.

(** C3, against the claim: two queued writes to address 5, of 1 and then
    of 2.  Serviced one by one they leave 2 in the word; in
    [processRequests] the second write is merged into the group of the
    first and serviced before it, and the word is left at 1.  Likewise
    for two reads that share the request id 10001: one by one, the id is
    left with the answer of the read queued last, the 0 of address 1; in
    [processRequests] that read is merged and answered first, and the id
    is left with the [undefined] of address 10001. *)
Lemma coalescing_reorders_conflicting_writes :
  JS.get (MemoryController.memory (MemoryController.processRequests conflicting_writes)) 5
  = Some 1
  /\ JS.get (MemoryController.memory (processIndividually conflicting_writes)) 5
     = Some 2
  /\ MemoryController.processRequests conflicting_writes
     <> processIndividually conflicting_writes
  /\ response_data (MemoryController.processRequests colliding_reads) 10001
     = Some None
  /\ response_data (processIndividually colliding_reads) 10001 = Some (Some 0).
Proof.
  split; [vm_compute; reflexivity|]. split; [vm_compute; reflexivity|].
  split; [|split; vm_compute; reflexivity].
  intros H.
  apply (f_equal (fun mc => JS.get (MemoryController.memory mc) 5)) in H.
  vm_compute in H. discriminate H.
Qed.

(** ** The register file *)

Lemma sixteen_each_empty : sixteen_each RegisterFile.empty.
Proof.
  intros threadId regs H. unfold RegisterFile.empty in H. unalias.
  rewrite lookup_empty in H. discriminate.
Qed.

Lemma initializeThread_lookup (threadId t' : Z) (rf : RegisterFile.t) :
  RegisterFile.initializeThread threadId rf !! t'
  = match rf !! t' with
    | Some regs => Some regs
    | None => if decide (threadId = t') then Some (replicate 16 (Some 0)) else None
    end.
Proof.
  unfold RegisterFile.initializeThread. unalias.
  repeat case_match; simplify_map_eq; try reflexivity; try congruence.
Qed.

Lemma sixteen_each_initializeThread (threadId : Z) (rf : RegisterFile.t) :
  sixteen_each rf -> sixteen_each (RegisterFile.initializeThread threadId rf).
Proof.
  intros H t' regs. rewrite initializeThread_lookup.
  unfold sixteen_each in *. unalias.
  repeat case_match; intros; simplify_eq; eauto.
Qed.

Lemma sixteen_each_write (threadId reg : Z) (v : JS.value) (rf : RegisterFile.t) :
  sixteen_each rf -> sixteen_each (RegisterFile.write threadId reg v rf).
Proof.
  intros H. apply (sixteen_each_initializeThread threadId) in H.
  unfold RegisterFile.write, sixteen_each in *. unalias.
  intros t' regs'.
  repeat case_match; try apply H.
  destruct (decide (threadId = t')) as [<-|Hne]; simplify_map_eq.
  - intros [= <-]. rewrite length_insert. eauto.
  - apply H.
Qed.

Lemma sixteen_each_read (threadId reg : Z) (rf : RegisterFile.t) :
  sixteen_each rf -> sixteen_each (snd (RegisterFile.read threadId reg rf)).
Proof.
  intros H. unfold RegisterFile.read. unalias.
  repeat case_match; cbn; try exact H.
  apply sixteen_each_initializeThread. exact H.
Qed.

(** What [read] returns, from the map. *)
Lemma reg_value_lookup (rf : RegisterFile.t) (threadId reg : Z) :
  reg_value rf threadId reg
  = match rf !! threadId with
    | Some regs => if in_bank reg then RegisterFile.at_reg regs reg else Some 0
    | None => Some 0
    end.
Proof.
  unfold reg_value, RegisterFile.read, in_bank in *. unalias.
  change RegisterFile.numRegisters with 16.
  repeat case_match; reflexivity.
Qed.

Lemma at_reg_zeros (reg : Z) :
  in_bank reg = true -> RegisterFile.at_reg (replicate 16 (Some 0)) reg = Some 0.
Proof.
  intros H. in_bank_bounds H.
  unfold RegisterFile.at_reg.
  rewrite lookup_replicate_2 by lia. reflexivity.
Qed.

Lemma at_reg_insert (regs : list JS.value) (reg reg' : Z) (v : JS.value) :
  in_bank reg = true -> in_bank reg' = true -> List.length regs = 16%nat ->
  RegisterFile.at_reg (<[Z.to_nat reg := v]> regs) reg'
  = if reg' =? reg then v else RegisterFile.at_reg regs reg'.
Proof.
  intros Hb Hb' Hlen. in_bank_bounds Hb. in_bank_bounds Hb'.
  unfold RegisterFile.at_reg. unalias.
  destruct (Z.eqb_spec reg' reg) as [->|Hne].
  - rewrite list_lookup_insert_eq by lia. reflexivity.
  - rewrite list_lookup_insert_ne by lia. reflexivity.
Qed.

(** The registers [write] leaves for each thread. *)
Lemma write_lookup (rf : RegisterFile.t) (threadId reg : Z) (v : JS.value) (t' : Z) :
  RegisterFile.write threadId reg v rf !! t'
  = if decide (threadId = t')
    then match rf !! threadId with
         | Some regs => Some (if in_bank reg then <[Z.to_nat reg := v]> regs else regs)
         | None => Some (if in_bank reg
                         then <[Z.to_nat reg := v]> (replicate 16 (Some 0))
                         else replicate 16 (Some 0))
         end
    else rf !! t'.
Proof.
  pose proof (initializeThread_lookup threadId threadId rf) as Hi.
  pose proof (initializeThread_lookup threadId t' rf) as Hi'.
  unfold RegisterFile.write, in_bank. change RegisterFile.numRegisters with 16.
  unalias.
  repeat case_match; simplify_map_eq; try reflexivity; try congruence.
Qed.

(** The readings after a write. *)
Lemma reg_value_write (rf : RegisterFile.t) (threadId reg : Z) (v : JS.value)
    (threadId' reg' : Z) :
  sixteen_each rf ->
  reg_value (RegisterFile.write threadId reg v rf) threadId' reg'
  = if in_bank reg && (threadId' =? threadId) && (reg' =? reg)
    then v
    else reg_value rf threadId' reg'.
Proof.
  intros Hrf. rewrite !reg_value_lookup, write_lookup.
  unfold sixteen_each in Hrf. unalias.
  destruct (decide (threadId = threadId')) as [<-|Hne].
  - rewrite Z.eqb_refl, andb_true_r.
    destruct (rf !! threadId) as [regs|] eqn:E.
    + destruct (in_bank reg) eqn:Hb; cbn [andb]; [|reflexivity].
      destruct (in_bank reg') eqn:Hb'.
      * rewrite at_reg_insert by eauto. reflexivity.
      * destruct (Z.eqb_spec reg' reg); [congruence|reflexivity].
    + destruct (in_bank reg) eqn:Hb; cbn [andb].
      * destruct (in_bank reg') eqn:Hb'.
        -- rewrite at_reg_insert by (auto using length_replicate).
           rewrite at_reg_zeros by exact Hb'. reflexivity.
        -- destruct (Z.eqb_spec reg' reg); [congruence|reflexivity].
      * destruct (in_bank reg') eqn:Hb'; [|reflexivity].
        apply at_reg_zeros. exact Hb'.
  - destruct (Z.eqb_spec threadId' threadId); [congruence|].
    rewrite andb_false_r. reflexivity.
Qed.

(** X1. Reading after a write: the register written, when its index is
    one of the sixteen, reads as the value written; every other register
    of every thread reads as before, and a write at an index outside the
    bank changes no reading at all. *)
Theorem read_after_write (rf : RegisterFile.t) (threadId reg : Z) (v : JS.value)
    (threadId' reg' : Z) :
  sixteen_each rf ->
  reg_value (RegisterFile.write threadId reg v rf) threadId' reg'
  = if in_bank reg && (threadId' =? threadId) && (reg' =? reg)
    then v
    else reg_value rf threadId' reg'.
Proof. apply reg_value_write. Qed.

Lemma read_after_write_witness :
  sixteen_each RegisterFile.empty
  /\ reg_value (RegisterFile.write 3 5 (Some 42) RegisterFile.empty) 3 5 = Some 42.
Proof.
  split; [exact sixteen_each_empty|].
  exact (read_after_write RegisterFile.empty 3 5 (Some 42) 3 5 sixteen_each_empty).
Defined.

(** X2. Forgetting a thread: after [clearThread] every register of the
    thread reads 0, the registers of the other threads read as before,
    and after [clearAll] every register of every thread reads 0. *)
Theorem read_after_clear (rf : RegisterFile.t) (threadId threadId' reg : Z) :
  reg_value (RegisterFile.clearThread threadId rf) threadId' reg
  = (if threadId' =? threadId then Some 0 else reg_value rf threadId' reg)
  /\ reg_value (RegisterFile.clearAll rf) threadId' reg = Some 0.
Proof.
  rewrite !reg_value_lookup. unfold RegisterFile.clearThread, RegisterFile.clearAll.
  unalias. split.
  - destruct (Z.eqb_spec threadId' threadId) as [->|Hne].
    + rewrite lookup_delete_eq. reflexivity.
    + rewrite lookup_delete_ne by congruence. reflexivity.
  - rewrite lookup_empty. reflexivity.
Qed.

(** ** The fields of an instruction word *)

Lemma ToInt32_congr16 (w : Z) : JS.ToInt32 w mod 2 ^ 16 = w mod 2 ^ 16.
Proof.
  unfold JS.ToInt32. destruct (w mod 2 ^ 32 <? 2 ^ 31);
    Z.div_mod_to_equations; lia.
Qed.

(** [(w >>> k) & (2^n - 1)] is the field of [n] bits at bit [k]. *)
Lemma extract_field (w k n : Z) :
  1 <= k < 32 -> 0 <= n < 32 ->
  JS.band (JS.ushr w k) (2 ^ n - 1) = (w mod 2 ^ 32) / 2 ^ k mod 2 ^ n.
Proof.
  intros Hk Hn. unfold JS.band, JS.ushr, JS.ToUint32.
  rewrite (Z.mod_small k 32) by lia.
  rewrite Z.shiftr_div_pow2 by lia.
  assert (Hb : 0 <= (w mod 2 ^ 32) / 2 ^ k < 2 ^ 31).
  { pose proof (Z.mod_pos_bound w (2 ^ 32) ltac:(lia)) as Hm.
    assert (0 < 2 ^ k) by (apply Z.pow_pos_nonneg; lia).
    split; [apply Z.div_pos; lia|].
    apply Z.div_lt_upper_bound; [lia|].
    assert (Hk2 : 2 ^ 1 <= 2 ^ k) by (apply Z.pow_le_mono_r; lia).
    change (2 ^ 1) with 2 in Hk2.
    apply Z.lt_le_trans with (2 * 2 ^ 31); [lia|].
    apply Z.mul_le_mono_nonneg_r; lia. }
  assert (Hmask : 0 <= 2 ^ n - 1 < 2 ^ 31).
  { assert (0 < 2 ^ n) by (apply Z.pow_pos_nonneg; lia).
    assert (2 ^ n <= 2 ^ 31) by (apply Z.pow_le_mono_r; lia). lia. }
  rewrite !ToInt32_small by lia.
  apply land_low_bits. lia.
Qed.

Lemma getRd_spec (w : Z) :
  InstructionDecoder.getRd (Some w) = (w mod 2 ^ 32) / 2 ^ 20 mod 2 ^ 4.
Proof. apply (extract_field w 20 4); lia. Qed.

Lemma getRs1_spec (w : Z) :
  InstructionDecoder.getRs1 (Some w) = (w mod 2 ^ 32) / 2 ^ 16 mod 2 ^ 4.
Proof. apply (extract_field w 16 4); lia. Qed.

Lemma getRs2_spec (w : Z) :
  InstructionDecoder.getRs2 (Some w) = (w mod 2 ^ 32) / 2 ^ 12 mod 2 ^ 4.
Proof. apply (extract_field w 12 4); lia. Qed.

Lemma land_bit15 (x : Z) :
  0 <= x < 2 ^ 16 -> (Z.land x (2 ^ 15) =? 0) = (x <? 2 ^ 15).
Proof.
  intros Hx.
  assert (Hland : Z.land x (2 ^ 15) = if Z.testbit x 15 then 2 ^ 15 else 0).
  { apply Z.bits_inj'. intros m Hm.
    rewrite Z.land_spec, Z.pow2_bits_eqb by lia.
    destruct (Z.eqb_spec 15 m) as [<-|Hne].
    - rewrite andb_true_r. destruct (Z.testbit x 15) eqn:E.
      + rewrite Z.pow2_bits_true by lia. reflexivity.
      + rewrite Z.bits_0. reflexivity.
    - rewrite andb_false_r. destruct (Z.testbit x 15).
      + rewrite Z.pow2_bits_false by lia. reflexivity.
      + rewrite Z.bits_0. reflexivity. }
  assert (Hbit : Z.testbit x 15 = (2 ^ 15 <=? x)).
  { rewrite Z.testbit_odd, Z.shiftr_div_pow2 by lia.
    destruct (Z.leb_spec (2 ^ 15) x).
    - replace (x / 2 ^ 15) with 1; [reflexivity|].
      apply Z.div_unique with (r := x - 2 ^ 15); lia.
    - rewrite Z.div_small by lia. reflexivity. }
  rewrite Hland, Hbit.
  destruct (Z.leb_spec (2 ^ 15) x), (Z.ltb_spec x (2 ^ 15)); try lia; reflexivity.
Qed.

Lemma lor_high_ones (x : Z) :
  0 <= x < 2 ^ 16 -> Z.lor x (- 2 ^ 16) = x - 2 ^ 16.
Proof.
  intros Hx.
  assert (Hdisj : Z.land x (- 2 ^ 16) = 0).
  { change (- 2 ^ 16) with (Z.lnot (Z.ones 16)).
    rewrite <- Z.ldiff_land, Z.ldiff_ones_r by lia.
    rewrite Z.shiftr_div_pow2, Z.div_small by lia. apply Z.shiftl_0_l. }
  rewrite <- Z.lxor_lor by exact Hdisj.
  rewrite <- Z.add_nocarry_lxor by exact Hdisj. lia.
Qed.

(** The immediate is the signed reading of the low half of the word. *)
Lemma getImmediate_spec (w : Z) :
  InstructionDecoder.getImmediate (Some w) = signed16 w.
Proof.
  unfold InstructionDecoder.getImmediate, JS.band, JS.bor, signed16.
  cbn [InstructionDecoder.word_of].
  change (JS.ToInt32 65535) with (2 ^ 16 - 1).
  change (JS.ToInt32 32768) with (2 ^ 15).
  change (JS.ToInt32 4294901760) with (- 2 ^ 16).
  rewrite land_low_bits, ToInt32_congr16 by lia.
  pose proof (Z.mod_pos_bound w (2 ^ 16) ltac:(lia)) as Hm.
  rewrite (ToInt32_small (w mod 2 ^ 16)) by lia.
  rewrite land_bit15 by exact Hm.
  destruct (Z.ltb_spec (w mod 2 ^ 16) (2 ^ 15)).
  - Z.div_mod_to_equations; lia.
  - rewrite lor_high_ones by exact Hm. Z.div_mod_to_equations; lia.
Qed.

(** X3. Whatever the word, the register fields [decode] extracts are
    indices of the sixteen registers, and the immediate is the low half of
    the word read as a signed 16-bit number: it lies in [-32768, 32767]
    and agrees with the word modulo 2^16. *)
Theorem decoded_fields_in_range (w : Z) :
  (0 <= InstructionDecoder.getRd (Some w) < 16)
  /\ (0 <= InstructionDecoder.getRs1 (Some w) < 16)
  /\ (0 <= InstructionDecoder.getRs2 (Some w) < 16)
  /\ (- 2 ^ 15 <= InstructionDecoder.getImmediate (Some w) < 2 ^ 15)
  /\ InstructionDecoder.getImmediate (Some w) mod 2 ^ 16 = w mod 2 ^ 16.
Proof.
  rewrite getRd_spec, getRs1_spec, getRs2_spec, getImmediate_spec.
  unfold signed16. repeat split; Z.div_mod_to_equations; lia.
Qed.

Lemma encode_fields (opc rd' rs1' low : Z) :
  0 <= opc < 256 -> 0 <= rd' < 16 -> 0 <= rs1' < 16 -> 0 <= low < 2 ^ 16 ->
  InstructionDecoder.getOpcodeNum (Some (encode opc rd' rs1' low)) = opc
  /\ InstructionDecoder.getRd (Some (encode opc rd' rs1' low)) = rd'
  /\ InstructionDecoder.getRs1 (Some (encode opc rd' rs1' low)) = rs1'
  /\ InstructionDecoder.getRs2 (Some (encode opc rd' rs1' low)) = low / 2 ^ 12
  /\ InstructionDecoder.getImmediate (Some (encode opc rd' rs1' low)) = signed16 low.
Proof.
  intros Ho Hd Hs Hl.
  rewrite getOpcodeNum_top_byte, getRd_spec, getRs1_spec, getRs2_spec, getImmediate_spec.
  unfold encode, signed16. repeat split; Z.div_mod_to_equations; lia.
Qed.

(** X4. The layout of the instruction word: a word assembled from an
    opcode byte, two register indices and a low half decodes to the
    instruction of that opcode with exactly those fields - destination
    and immediate for CONST; destination and two sources for the seven
    ALU opcodes; destination, base and immediate for LDR and for STR
    (which gets no second source); base and immediate for the five
    branches; two sources for CMP. *)
Theorem decode_encode (rd' rs1' rs2' imm : Z) :
  0 <= rd' < 16 -> 0 <= rs1' < 16 -> 0 <= rs2' < 16 ->
  - 2 ^ 15 <= imm < 2 ^ 15 ->
  InstructionDecoder.decode (Some (encode 0x01 rd' rs1' (low_of_imm imm)))
  = mkInstruction CONST (Some rd') None None (Some imm)
  /\ (forall opc, 0x02 <= opc <= 0x08 ->
      InstructionDecoder.decode (Some (encode opc rd' rs1' (low_of_rs2 rs2')))
      = mkInstruction (InstructionDecoder.opcodeToString opc)
                      (Some rd') (Some rs1') (Some rs2') None)
  /\ (forall opc, 0x09 <= opc <= 0x0a ->
      InstructionDecoder.decode (Some (encode opc rd' rs1' (low_of_imm imm)))
      = mkInstruction (InstructionDecoder.opcodeToString opc)
                      (Some rd') (Some rs1') None (Some imm))
  /\ (forall opc, 0x0b <= opc <= 0x0f ->
      InstructionDecoder.decode (Some (encode opc rd' rs1' (low_of_imm imm)))
      = mkInstruction (InstructionDecoder.opcodeToString opc)
                      None (Some rs1') None (Some imm))
  /\ InstructionDecoder.decode (Some (encode 0x10 rd' rs1' (low_of_rs2 rs2')))
     = mkInstruction CMP None (Some rs1') (Some rs2') None.
Proof.
  intros Hd Hs Hs2 Hi.
  assert (Hlow_i : 0 <= low_of_imm imm < 2 ^ 16)
    by (unfold low_of_imm; apply Z.mod_pos_bound; lia).
  assert (Hlow_r : 0 <= low_of_rs2 rs2' < 2 ^ 16) by (unfold low_of_rs2; lia).
  assert (Himm : signed16 (low_of_imm imm) = imm)
    by (unfold signed16, low_of_imm; Z.div_mod_to_equations; lia).
  assert (Hrs2 : low_of_rs2 rs2' / 2 ^ 12 = rs2')
    by (unfold low_of_rs2; Z.div_mod_to_equations; lia).
  assert (Hdec : forall opc low,
             0 <= opc < 256 -> 0 <= low < 2 ^ 16 ->
             InstructionDecoder.decode (Some (encode opc rd' rs1' low))
             = match InstructionDecoder.opcodeToString opc with
               | CONST => mkInstruction CONST (Some rd') None None (Some (signed16 low))
               | ADD | SUB | MUL | DIV | AND | OR | XOR =>
                   mkInstruction (InstructionDecoder.opcodeToString opc)
                     (Some rd') (Some rs1') (Some (low / 2 ^ 12)) None
               | LDR | STR =>
                   mkInstruction (InstructionDecoder.opcodeToString opc)
                     (Some rd') (Some rs1') None (Some (signed16 low))
               | BR | BRz | BRnz | BRn | BRp =>
                   mkInstruction (InstructionDecoder.opcodeToString opc)
                     None (Some rs1') None (Some (signed16 low))
               | CMP => mkInstruction CMP None (Some rs1') (Some (low / 2 ^ 12)) None
               | RET => mkInstruction RET None None None None
               | _ => mkInstruction NOP None None None None
               end).
  { intros opc low Ho Hl.
    destruct (encode_fields opc rd' rs1' low Ho Hd Hs Hl) as (E0 & E1 & E2 & E3 & E4).
    unfold InstructionDecoder.decode, InstructionDecoder.getOpcode.
    rewrite E0, E1, E2, E3, E4. reflexivity. }
  assert (Hcases : forall opc, 0x01 <= opc <= 0x10 ->
             opc = 1 \/ opc = 2 \/ opc = 3 \/ opc = 4 \/ opc = 5 \/ opc = 6
             \/ opc = 7 \/ opc = 8 \/ opc = 9 \/ opc = 10 \/ opc = 11 \/ opc = 12
             \/ opc = 13 \/ opc = 14 \/ opc = 15 \/ opc = 16) by (intros; lia).
  repeat split.
  - rewrite Hdec by lia. cbn. rewrite Himm. reflexivity.
  - intros opc Ho. rewrite Hdec, Hrs2 by lia.
    destruct (Hcases opc ltac:(lia)) as [->|H]; [lia|];
      repeat (destruct H as [->|H]; [try lia; reflexivity|]); lia.
  - intros opc Ho. rewrite Hdec, Himm by lia.
    destruct (Hcases opc ltac:(lia)) as [->|H]; [lia|];
      repeat (destruct H as [->|H]; [try lia; reflexivity|]); lia.
  - intros opc Ho. rewrite Hdec, Himm by lia.
    destruct (Hcases opc ltac:(lia)) as [->|H]; [lia|];
      repeat (destruct H as [->|H]; [try lia; reflexivity|]); lia.
  - rewrite Hdec, Hrs2 by lia. reflexivity.
Qed.

Lemma decode_encode_witness :
  (0 <= 2 < 16) /\ (0 <= 0 < 16) /\ (0 <= 1 < 16) /\ (- 2 ^ 15 <= -1 < 2 ^ 15)
  /\ InstructionDecoder.decode (Some (encode 0x01 2 0 (low_of_imm (-1))))
     = mkInstruction CONST (Some 2) None None (Some (-1)).
Proof.
  assert (H1 : 0 <= 2 < 16) by lia.
  assert (H2 : 0 <= 0 < 16) by lia.
  assert (H3 : 0 <= 1 < 16) by lia.
  assert (H4 : - 2 ^ 15 <= -1 < 2 ^ 15) by lia.
  repeat (split; [assumption|]).
  exact (proj1 (decode_encode 2 0 1 (-1) H1 H2 H3 H4)).
Defined.

(** ** The execution unit *)

Lemma ToInt32_congr (x y : Z) :
  x mod 2 ^ 32 = y mod 2 ^ 32 -> JS.ToInt32 x = JS.ToInt32 y.
Proof. unfold JS.ToInt32. intros ->. reflexivity. Qed.

Lemma ToInt32_mod (x : Z) : JS.ToInt32 x mod 2 ^ 32 = x mod 2 ^ 32.
Proof.
  unfold JS.ToInt32. destruct (x mod 2 ^ 32 <? 2 ^ 31);
    Z.div_mod_to_equations; lia.
Qed.

Lemma ToInt32_range (x : Z) : - 2 ^ 31 <= JS.ToInt32 x < 2 ^ 31.
Proof.
  unfold JS.ToInt32. destruct (Z.ltb_spec (x mod 2 ^ 32) (2 ^ 31));
    Z.div_mod_to_equations; lia.
Qed.

Lemma ToInt32_fits (z : Z) : (JS.ToInt32 z =? z) = fits32 z.
Proof.
  unfold JS.ToInt32, fits32.
  destruct (Z.ltb_spec (z mod 2 ^ 32) (2 ^ 31));
    match goal with |- (?x =? z) = _ => destruct (Z.eqb_spec x z) end;
    destruct (Z.leb_spec (- 2 ^ 31) z), (Z.ltb_spec z (2 ^ 31));
    cbn; try reflexivity; exfalso; Z.div_mod_to_equations; lia.
Qed.

Lemma fl_small (z : Z) : Z.abs z < 2 ^ 53 -> JS.fl z = z.
Proof.
  intros H. unfold JS.fl. destruct (Z.ltb_spec (Z.abs z) (2 ^ 53)); [reflexivity|lia].
Qed.

(** X5. MUL on two 32-bit words whose product is below 2^53: the result
    is the product modulo 2^32, and the overflow flag is set exactly when
    the product of the signed readings of the operands is not itself a
    signed 32-bit number. *)
Theorem multiply_exact_below_2_53 (a b : Z) :
  0 <= a < 2 ^ 32 -> 0 <= b < 2 ^ 32 -> a * b < 2 ^ 53 ->
  ExecutionUnit.multiply (Some a) (Some b) = (a * b) mod 2 ^ 32
  /\ ExecutionUnit.checkMulOverflow (Some a) (Some b)
       (ExecutionUnit.multiply (Some a) (Some b))
     = negb (fits32 (JS.ToInt32 a * JS.ToInt32 b)).
Proof.
  intros Ha Hb Hab.
  assert (Hm : ExecutionUnit.multiply (Some a) (Some b) = (a * b) mod 2 ^ 32).
  { unfold ExecutionUnit.multiply, JS.ToUint32. rewrite fl_small; [reflexivity|].
    rewrite Z.abs_eq by nia. exact Hab. }
  split; [exact Hm|].
  rewrite Hm. unfold ExecutionUnit.checkMulOverflow, JS.int32_of.
  assert (Ha' : Z.abs (JS.ToInt32 a) <= a).
  { rewrite ToInt32_word by exact Ha. destruct (Z.leb_spec (2 ^ 31) a); lia. }
  assert (Hb' : Z.abs (JS.ToInt32 b) <= b).
  { rewrite ToInt32_word by exact Hb. destruct (Z.leb_spec (2 ^ 31) b); lia. }
  rewrite fl_small.
  2: { rewrite Z.abs_mul. apply Z.le_lt_trans with (a * b); [|exact Hab].
       apply Z.mul_le_mono_nonneg; lia. }
  rewrite (ToInt32_congr (a * b mod 2 ^ 32) (JS.ToInt32 a * JS.ToInt32 b)).
  - rewrite ToInt32_fits. reflexivity.
  - rewrite Z.mod_mod by lia.
    rewrite (Z.mul_mod (JS.ToInt32 a)) by lia.
    rewrite !ToInt32_mod. rewrite <- Z.mul_mod by lia. reflexivity.
Qed.

Lemma multiply_exact_below_2_53_witness :
  (0 <= 0xffffffff < 2 ^ 32) /\ (0 <= 2 < 2 ^ 32) /\ 0xffffffff * 2 < 2 ^ 53
  /\ ExecutionUnit.multiply (Some 0xffffffff) (Some 2) = (0xffffffff * 2) mod 2 ^ 32.
Proof.
  assert (H1 : 0 <= 0xffffffff < 2 ^ 32) by lia.
  assert (H2 : 0 <= 2 < 2 ^ 32) by lia.
  assert (H3 : 0xffffffff * 2 < 2 ^ 53) by lia.
  repeat (split; [assumption|]).
  exact (proj1 (multiply_exact_below_2_53 0xffffffff 2 H1 H2 H3)).
Defined.

(** A read leaves every reading as it was. *)
Lemma read_preserves_values (rf : RegisterFile.t) (threadId reg t' r' : Z) :
  reg_value (snd (RegisterFile.read threadId reg rf)) t' r' = reg_value rf t' r'.
Proof.
  rewrite !reg_value_lookup. unfold RegisterFile.read. unalias.
  destruct (rf !! threadId) as [regs|] eqn:E.
  - destruct ((0 <=? reg) && (reg <? RegisterFile.numRegisters)); reflexivity.
  - cbn [snd]. rewrite initializeThread_lookup. unalias.
    destruct (rf !! t') eqn:E'; [reflexivity|].
    destruct (decide (threadId = t')); [|reflexivity].
    destruct (in_bank r') eqn:Hb; [|reflexivity].
    apply at_reg_zeros. exact Hb.
Qed.

Lemma operand2_preserves_values (rf : RegisterFile.t) (threadId rs2' t' r' : Z) :
  reg_value (snd (ExecutionUnit.operand2 threadId rs2' rf)) t' r' = reg_value rf t' r'.
Proof.
  unfold ExecutionUnit.operand2. destruct (rs2' <? 16); [|reflexivity].
  apply read_preserves_values.
Qed.

Lemma operand2_fst (rf : RegisterFile.t) (threadId rs2' : Z) :
  fst (ExecutionUnit.operand2 threadId rs2' rf) = operand2_value rf threadId rs2'.
Proof.
  unfold ExecutionUnit.operand2, operand2_value, reg_value.
  destruct (rs2' <? 16); reflexivity.
Qed.

(** The comparison [compare] computes, from the two operand values. *)
Lemma compare_spec (rf : RegisterFile.t) (threadId rs1' rs2' : Z) :
  let v1 := reg_value rf threadId rs1' in
  let v2 := operand2_value rf threadId rs2' in
  fst (ExecutionUnit.compare threadId rs1' rs2' rf)
  = {| ExecutionUnit.equal := match v1, v2 with
                              | Some x, Some y => x =? y
                              | None, None => true
                              | _, _ => false
                              end;
       ExecutionUnit.less := JS.int32_of v1 <? JS.int32_of v2;
       ExecutionUnit.greater := JS.int32_of v2 <? JS.int32_of v1 |}
  /\ forall t' r',
       reg_value (snd (ExecutionUnit.compare threadId rs1' rs2' rf)) t' r'
       = reg_value rf t' r'.
Proof.
  cbn zeta. unfold ExecutionUnit.compare.
  rewrite (surjective_pairing (RegisterFile.read threadId rs1' rf)).
  fold (reg_value rf threadId rs1').
  set (rf1 := snd (RegisterFile.read threadId rs1' rf)).
  rewrite (surjective_pairing (ExecutionUnit.operand2 threadId rs2' rf1)).
  rewrite operand2_fst.
  assert (Hsame : operand2_value rf1 threadId rs2' = operand2_value rf threadId rs2').
  { unfold operand2_value, rf1. rewrite read_preserves_values. reflexivity. }
  cbn [fst snd]. rewrite Hsame. split; [reflexivity|].
  intros t' r'. rewrite operand2_preserves_values. apply read_preserves_values.
Qed.

(** X6. [compare] changes no register reading.  When its two operand
    values are words in one representation, both unsigned or both signed,
    exactly one of its flags equal, less and greater is set. *)
Theorem compare_trichotomy (rf : RegisterFile.t) (threadId rs1' rs2' a b : Z) :
  reg_value rf threadId rs1' = Some a ->
  operand2_value rf threadId rs2' = Some b ->
  (0 <= a < 2 ^ 32 /\ 0 <= b < 2 ^ 32)
  \/ (- 2 ^ 31 <= a < 2 ^ 31 /\ - 2 ^ 31 <= b < 2 ^ 31) ->
  flags_set (fst (ExecutionUnit.compare threadId rs1' rs2' rf)) = 1%nat
  /\ forall t' r',
       reg_value (snd (ExecutionUnit.compare threadId rs1' rs2' rf)) t' r'
       = reg_value rf t' r'.
Proof.
  intros Ha Hb Hrange.
  destruct (compare_spec rf threadId rs1' rs2') as [Hc Hframe].
  split; [|exact Hframe].
  rewrite Hc, Ha, Hb. unfold flags_set, JS.int32_of. cbn [ExecutionUnit.equal
    ExecutionUnit.less ExecutionUnit.greater].
  destruct Hrange as [[Ha' Hb']|[Ha' Hb']].
  - rewrite !ToInt32_word by assumption.
    destruct (Z.leb_spec (2 ^ 31) a), (Z.leb_spec (2 ^ 31) b);
      destruct (Z.eqb_spec a b);
      match goal with
      | |- context [?x <? ?y] => destruct (Z.ltb_spec x y)
      end;
      match goal with
      | |- context [?x <? ?y] => destruct (Z.ltb_spec x y)
      end; cbn; try reflexivity; lia.
  - assert (Hfa : JS.ToInt32 a = a)
      by (apply Z.eqb_eq; rewrite ToInt32_fits; unfold fits32;
          destruct (Z.leb_spec (- 2 ^ 31) a), (Z.ltb_spec a (2 ^ 31)); try lia; reflexivity).
    assert (Hfb : JS.ToInt32 b = b)
      by (apply Z.eqb_eq; rewrite ToInt32_fits; unfold fits32;
          destruct (Z.leb_spec (- 2 ^ 31) b), (Z.ltb_spec b (2 ^ 31)); try lia; reflexivity).
    rewrite Hfa, Hfb.
    destruct (Z.eqb_spec a b), (Z.ltb_spec a b), (Z.ltb_spec b a);
      cbn; try reflexivity; lia.
Qed.

Lemma compare_trichotomy_witness :
  reg_value (operands 5 0xffffffff) 0 0 = Some 5
  /\ operand2_value (operands 5 0xffffffff) 0 1 = Some 0xffffffff
  /\ flags_set (fst (ExecutionUnit.compare 0 0 1 (operands 5 0xffffffff))) = 1%nat.
Proof.
  assert (H1 : reg_value (operands 5 0xffffffff) 0 0 = Some 5) by (vm_compute; reflexivity).
  assert (H2 : operand2_value (operands 5 0xffffffff) 0 1 = Some 0xffffffff)
    by (vm_compute; reflexivity).
  split; [exact H1|]. split; [exact H2|].
  refine (proj1 (compare_trichotomy (operands 5 0xffffffff) 0 0 1 5 0xffffffff H1 H2 _)).
  left. lia.
Defined.

Lemma int32_shiftr (x : Z) :
  - 2 ^ 31 <= x < 2 ^ 31 <-> Z.shiftr x 31 = 0 \/ Z.shiftr x 31 = -1.
Proof.
  rewrite Z.shiftr_div_pow2 by lia. Z.div_mod_to_equations. lia.
Qed.

Lemma bitwise_int32 (f : Z -> Z -> Z) (x y : Z) :
  (forall a b, Z.shiftr (f a b) 31 = f (Z.shiftr a 31) (Z.shiftr b 31)) ->
  (forall a b, (a = 0 \/ a = -1) -> (b = 0 \/ b = -1) -> f a b = 0 \/ f a b = -1) ->
  - 2 ^ 31 <= x < 2 ^ 31 -> - 2 ^ 31 <= y < 2 ^ 31 ->
  - 2 ^ 31 <= f x y < 2 ^ 31.
Proof.
  intros Hshift Hclosed Hx Hy. apply int32_shiftr. rewrite Hshift.
  apply Hclosed; apply int32_shiftr; assumption.
Qed.

Lemma land_int32 (x y : Z) :
  - 2 ^ 31 <= x < 2 ^ 31 -> - 2 ^ 31 <= y < 2 ^ 31 ->
  - 2 ^ 31 <= Z.land x y < 2 ^ 31.
Proof.
  apply (bitwise_int32 Z.land).
  - intros. apply Z.shiftr_land.
  - intros a b [->| ->] [->| ->]; cbn; auto.
Qed.

Lemma lor_int32 (x y : Z) :
  - 2 ^ 31 <= x < 2 ^ 31 -> - 2 ^ 31 <= y < 2 ^ 31 ->
  - 2 ^ 31 <= Z.lor x y < 2 ^ 31.
Proof.
  apply (bitwise_int32 Z.lor).
  - intros. apply Z.shiftr_lor.
  - intros a b [->| ->] [->| ->]; cbn; auto.
Qed.

Lemma lxor_int32 (x y : Z) :
  - 2 ^ 31 <= x < 2 ^ 31 -> - 2 ^ 31 <= y < 2 ^ 31 ->
  - 2 ^ 31 <= Z.lxor x y < 2 ^ 31.
Proof.
  apply (bitwise_int32 Z.lxor).
  - intros. apply Z.shiftr_lxor.
  - intros a b [->| ->] [->| ->]; cbn; auto.
Qed.

Lemma int32_of_range (v : JS.value) : - 2 ^ 31 <= JS.int32_of v < 2 ^ 31.
Proof. destruct v; cbn; [apply ToInt32_range|lia]. Qed.

(** The mask of bit 31 on a signed word. *)
Lemma land_sign_mask (x : Z) :
  - 2 ^ 31 <= x < 2 ^ 31 ->
  Z.land x (- 2 ^ 31) = if x <? 0 then - 2 ^ 31 else 0.
Proof.
  intros Hx. change (- 2 ^ 31) with (Z.lnot (Z.ones 31)) at 1.
  rewrite <- Z.ldiff_land, Z.ldiff_ones_r by lia.
  rewrite Z.shiftr_div_pow2 by lia.
  destruct (Z.ltb_spec x 0).
  - replace (x / 2 ^ 31) with (-1) by (Z.div_mod_to_equations; lia). reflexivity.
  - rewrite Z.div_small by lia. reflexivity.
Qed.

(** X7. The word an ALU operation returns: ADD, SUB, MUL and DIV return
    an unsigned word, in [0, 2^32); AND, OR and XOR return a signed one,
    in [-2^31, 2^31).  In both cases the negative flag is set exactly when
    the signed reading of the result is negative, and the zero flag
    exactly when the result is 0. *)
Theorem alu_result_representation (op : Opcode) (v1 v2 : JS.value) :
  let r := ExecutionUnit.alu op v1 v2 in
  match op with
  | ADD | SUB | MUL | DIV => 0 <= ExecutionUnit.result r < 2 ^ 32
  | AND | OR | XOR => - 2 ^ 31 <= ExecutionUnit.result r < 2 ^ 31
  | _ => ExecutionUnit.result r = ExecutionUnit.result r
  end
  /\ ExecutionUnit.negative r = (JS.ToInt32 (ExecutionUnit.result r) <? 0)
  /\ ExecutionUnit.zero r = (ExecutionUnit.result r =? 0).
Proof.
  cbn zeta.
  assert (Hneg : forall r o, ExecutionUnit.negative
                   {| ExecutionUnit.result := r; ExecutionUnit.zero := r =? 0;
                      ExecutionUnit.negative := negb (JS.band r 0x80000000 =? 0);
                      ExecutionUnit.overflow := o |} = (JS.ToInt32 r <? 0)).
  { intros r o. cbn. unfold JS.band.
    change (JS.ToInt32 2147483648) with (- 2 ^ 31).
    rewrite land_sign_mask by apply ToInt32_range.
    destruct (JS.ToInt32 r <? 0); reflexivity. }
  pose proof (int32_of_range v1) as H1. pose proof (int32_of_range v2) as H2.
  assert (Hu : forall x, 0 <= x mod 2 ^ 32 < 2 ^ 32)
    by (intros; apply Z.mod_pos_bound; lia).
  split; [|split].
  - destruct op; try reflexivity; cbn [ExecutionUnit.alu ExecutionUnit.result].
    + unfold ExecutionUnit.add, JS.ToUint32. destruct v1, v2; try apply Hu; lia.
    + unfold ExecutionUnit.subtract, JS.ToUint32. destruct v1, v2; try apply Hu; lia.
    + unfold ExecutionUnit.multiply, JS.ToUint32. destruct v1, v2; try apply Hu; lia.
    + unfold ExecutionUnit.divide, JS.ToUint32.
      destruct v2 as [[| |]|]; try lia;
        match goal with
        | |- context [if ?c then _ else _] => destruct c
        end; try apply Hu; lia.
    + apply land_int32; assumption.
    + apply lor_int32; assumption.
    + apply lxor_int32; assumption.
  - unfold ExecutionUnit.alu.
    destruct op; cbv zeta; repeat match goal with
                           | |- context [let '(_, _) := ?p in _] => destruct p
                           end; apply Hneg.
  - unfold ExecutionUnit.alu. destruct op; reflexivity.
Qed.

(** ** A cache line after an access *)

Lemma get_set_eq (a : JS.array) (i : Z) (v : JS.value) :
  JS.get (JS.set a i v) i = v.
Proof.
  unfold JS.get, JS.set. cbn [JS.elems]. unfold JS.value in *.
  destruct v; [apply lookup_insert_eq|apply lookup_delete_eq].
Qed.

(** The line, tag and offset of an address depend on the configuration
    only. *)
Lemma address_split_config (c c' : Cache.t) (a : Z) :
  Cache.config c = Cache.config c' ->
  Cache.getLineIndex c a = Cache.getLineIndex c' a
  /\ Cache.getTag c a = Cache.getTag c' a
  /\ Cache.getOffset c a = Cache.getOffset c' a.
Proof.
  intros H. unfold Cache.getLineIndex, Cache.getTag, Cache.getOffset.
  rewrite H. auto.
Qed.

(** [loadLine] on a resident slot leaves the line valid, clean and
    tagged for the address. *)
Lemma loadLine_line (a : Z) (c c1 : Cache.t) (m m1 : JS.array) :
  Cache.loadLine a c m = Some (c1, m1) ->
  exists l0,
    Cache.line_at (Cache.lines c) (Cache.getLineIndex c a) = Some l0
    /\ Cache.config c1 = Cache.config c
    /\ Cache.hits c1 = Cache.hits c /\ Cache.misses c1 = Cache.misses c
    /\ Cache.lines c1
       = Cache.set_line (Cache.lines c) (Cache.getLineIndex c a)
           {| Cache.tag := Cache.getTag c a;
              Cache.data := Cache.fetchLine c (JS.shl (JS.sar a 2) 2) (Cache.data l0) m1;
              Cache.valid := true;
              Cache.dirty := false |}
    /\ m1 = (if Cache.valid l0 && Cache.dirty l0
             then Cache.writeBack c
                    (JS.bor (JS.shl (Cache.tag l0) 2)
                            (JS.shl (Cache.getLineIndex c a) 2)) l0 m
             else m).
Proof.
  unfold Cache.loadLine.
  destruct (Cache.line_at (Cache.lines c) (Cache.getLineIndex c a)) as [l0|] eqn:E;
    [|discriminate].
  intros [= <- <-]. exists l0. cbn. repeat split; reflexivity.
Qed.

(** X8. Reading twice: when a read of an address returns, a second read
    of the same address right after it is a hit, returns the same word
    and changes neither the lines nor the memory. *)
Theorem read_again_hits (a : Z) (c c1 : Cache.t) (m m1 : JS.array)
    (v : JS.value) (h : bool) :
  Cache.read a c m = Some (v, h, c1, m1) ->
  Cache.read a c1 m1 = Some (v, true, Cache.with_hit c1, m1).
Proof.
  unfold Cache.read at 1.
  destruct (Cache.line_at (Cache.lines c) (Cache.getLineIndex c a)) as [l0|] eqn:E0;
    [|discriminate].
  destruct (Cache.valid l0 && (Cache.tag l0 =? Cache.getTag c a)) eqn:Ehit.
  - intros [= <- <- <- <-]. unfold Cache.read.
    change (Cache.getLineIndex (Cache.with_hit c) a) with (Cache.getLineIndex c a).
    change (Cache.getTag (Cache.with_hit c) a) with (Cache.getTag c a).
    change (Cache.lines (Cache.with_hit c)) with (Cache.lines c).
    rewrite E0, Ehit. reflexivity.
  - destruct (Cache.loadLine a (Cache.with_miss c) m) as [[c2 m2]|] eqn:El; [|discriminate].
    change (Cache.getLineIndex c a) with (Cache.getLineIndex (Cache.with_miss c) a).
    destruct (loadLine_line _ _ _ _ _ El) as (l1 & Hl1 & Hcfg & _ & _ & Hlines & _).
    destruct (Cache.line_at (Cache.lines c2) (Cache.getLineIndex (Cache.with_miss c) a))
      as [l2|] eqn:E2; [|discriminate].
    intros [= <- <- <- <-]. unfold Cache.read.
    assert (Hi : Cache.getLineIndex c2 a = Cache.getLineIndex (Cache.with_miss c) a)
      by (unfold Cache.getLineIndex; rewrite Hcfg; reflexivity).
    assert (Ht : Cache.getTag c2 a = Cache.getTag (Cache.with_miss c) a)
      by (unfold Cache.getTag; rewrite Hcfg; reflexivity).
    assert (Ho : Cache.getOffset c2 a = Cache.getOffset c a)
      by (unfold Cache.getOffset; rewrite Hcfg; reflexivity).
    rewrite Hi, Ht, Ho, E2.
    rewrite Hlines in E2. erewrite line_at_set_line in E2 by exact Hl1.
    injection E2 as <-. cbn [Cache.valid Cache.tag andb].
    rewrite Z.eqb_refl. reflexivity.
Qed.

Lemma read_again_hits_witness :
  exists v h c1 m1,
    Cache.read 20 (fst small_cache) (snd small_cache) = Some (v, h, c1, m1)
    /\ Cache.read 20 c1 m1 = Some (v, true, Cache.with_hit c1, m1).
Proof.
  assert (Hsome : match Cache.read 20 (fst small_cache) (snd small_cache) with
                  | Some _ => true
                  | None => false
                  end = true) by (vm_compute; reflexivity).
  destruct (Cache.read 20 (fst small_cache) (snd small_cache))
    as [[[[v h] c1] m1]|] eqn:E; [|discriminate Hsome].
  exists v, h, c1, m1. split; [reflexivity|].
  exact (read_again_hits 20 _ c1 _ m1 v h E).
Defined.

(** X9. Reading back a write: when a write returns, it returned true, the
    memory word at the address is the word written, and a read of the same
    address right after it is a hit that returns the word written. *)
Theorem read_after_cache_write (a : Z) (v : JS.value) (c c1 : Cache.t)
    (m m1 : JS.array) (b : bool) :
  Cache.write a v c m = Some (b, c1, m1) ->
  b = true
  /\ JS.get m1 a = v
  /\ Cache.read a c1 m1 = Some (v, true, Cache.with_hit c1, m1).
Proof.
  unfold Cache.write.
  destruct (Cache.line_at (Cache.lines c) (Cache.getLineIndex c a)) as [l0|] eqn:E0;
    [|discriminate].
  destruct (Cache.valid l0 && (Cache.tag l0 =? Cache.getTag c a)) eqn:Ehit.
  - unfold Cache.store. intros [= <- <- <-].
    split; [reflexivity|]. split; [apply get_set_eq|].
    match goal with
    | |- Cache.read a ?c' _ = _ =>
        destruct (address_split_config c' c a eq_refl) as (Hi & Ht & Ho)
    end.
    unfold Cache.read. rewrite Hi, Ht, Ho.
    cbn [Cache.with_lines Cache.with_hit Cache.lines].
    erewrite line_at_set_line by exact E0.
    cbn [Cache.valid Cache.tag Cache.data]. rewrite Ehit, get_set_eq. reflexivity.
  - destruct (Cache.loadLine a (Cache.with_miss c) m) as [[c2 m2]|] eqn:El; [|discriminate].
    change (Cache.getLineIndex c a) with (Cache.getLineIndex (Cache.with_miss c) a).
    destruct (loadLine_line _ _ _ _ _ El) as (l1 & Hl1 & Hcfg & _ & _ & Hlines & _).
    destruct (Cache.line_at (Cache.lines c2) (Cache.getLineIndex (Cache.with_miss c) a))
      as [l2|] eqn:E2; [|discriminate].
    unfold Cache.store. intros [= <- <- <-].
    split; [reflexivity|]. split; [apply get_set_eq|].
    match goal with
    | |- Cache.read a ?c' _ = _ =>
        destruct (address_split_config c' (Cache.with_miss c) a Hcfg) as (Hi & Ht & Ho)
    end.
    unfold Cache.read. rewrite Hi, Ht, Ho.
    cbn [Cache.with_lines Cache.lines].
    erewrite line_at_set_line by exact E2.
    cbn [Cache.valid Cache.tag Cache.data].
    rewrite Hlines in E2. erewrite line_at_set_line in E2 by exact Hl1.
    injection E2 as <-. cbn [Cache.valid Cache.tag andb].
    rewrite Z.eqb_refl, get_set_eq. reflexivity.
Qed.

Lemma read_after_cache_write_witness :
  exists b c1 m1,
    Cache.write 20 (Some 9) (fst small_cache) (snd small_cache) = Some (b, c1, m1)
    /\ b = true
    /\ JS.get m1 20 = Some 9
    /\ Cache.read 20 c1 m1 = Some (Some 9, true, Cache.with_hit c1, m1).
Proof.
  assert (Hsome : match Cache.write 20 (Some 9) (fst small_cache) (snd small_cache) with
                  | Some _ => true
                  | None => false
                  end = true) by (vm_compute; reflexivity).
  destruct (Cache.write 20 (Some 9) (fst small_cache) (snd small_cache))
    as [[[b c1] m1]|] eqn:E; [|discriminate Hsome].
  exists b, c1, m1. split; [reflexivity|].
  exact (read_after_cache_write 20 (Some 9) _ c1 _ m1 b E).
Defined.

(** ** Reads on a clean cache *)

Lemma fetch_fold_get (m : JS.array) (base j : Z) (n : nat) :
  forall (lo : Z) (d : JS.array),
    JS.get
      (fold_left
         (fun d i =>
            let addr := base + i in
            if addr <? JS.length m
            then JS.set d i (JS.get m addr)
            else JS.set d i (Some 0))
         (JS.indices lo n) d) j
    = if (lo <=? j) && (j <? lo + Z.of_nat n)
      then word_or_zero m (base + j)
      else JS.get d j.
Proof.
  induction n as [|n IH]; intros lo d.
  - cbn [JS.indices fold_left]. split_comparisons; try reflexivity; lia.
  - cbn [JS.indices fold_left]. rewrite IH.
    destruct (Z.eq_dec j lo) as [->|Hne].
    + replace ((lo + 1 <=? lo) && (lo <? lo + 1 + Z.of_nat n)) with false
        by (split_comparisons; try reflexivity; lia).
      replace ((lo <=? lo) && (lo <? lo + Z.of_nat (S n))) with true
        by (split_comparisons; try reflexivity; lia).
      cbv zeta. unfold word_or_zero.
      destruct (base + lo <? JS.length m); apply get_set_eq.
    + replace ((lo <=? j) && (j <? lo + Z.of_nat (S n)))
        with ((lo + 1 <=? j) && (j <? lo + 1 + Z.of_nat n))
        by (split_comparisons; try reflexivity; lia).
      destruct ((lo + 1 <=? j) && (j <? lo + 1 + Z.of_nat n)); [reflexivity|].
      cbv zeta. destruct (base + lo <? JS.length m); apply get_set_ne; congruence.
Qed.

Lemma fetchLine_get (c : Cache.t) (base j : Z) (d m : JS.array) :
  0 <= j < lineSize (Cache.config c) ->
  JS.get (Cache.fetchLine c base d m) j = word_or_zero m (base + j).
Proof.
  intros Hj. unfold Cache.fetchLine. rewrite fetch_fold_get.
  replace ((0 <=? j) && (j <? 0 + Z.of_nat (Z.to_nat (lineSize (Cache.config c)))))
    with true by (split_comparisons; try reflexivity; lia).
  reflexivity.
Qed.

(** The parts of an addressable address. *)
Lemma address_parts (c : Cache.t) (a : Z) :
  addressable a ->
  0 < cacheSize (Cache.config c) < 2 ^ 30 ->
  JS.shl (JS.sar a 2) 2 = 4 * (a / 4)
  /\ Cache.getLineIndex c a = (a / 4) mod cacheSize (Cache.config c)
  /\ Cache.getTag c a = (a / 4) / 2 ^ Z.log2 (cacheSize (Cache.config c)).
Proof.
  intros Ha Hcs. unfold addressable in Ha.
  assert (Hsar : JS.sar a 2 = a / 4).
  { unfold JS.sar. rewrite ToInt32_small by exact Ha.
    change (2 mod 32) with 2. rewrite Z.shiftr_div_pow2 by lia. reflexivity. }
  assert (Hq : 0 <= a / 4 < 2 ^ 29) by (Z.div_mod_to_equations; lia).
  split; [|split].
  - rewrite Hsar. unfold JS.shl. rewrite (ToInt32_small (a / 4)) by lia.
    change (2 mod 32) with 2. rewrite Z.shiftl_mul_pow2 by lia.
    rewrite ToInt32_small by (Z.div_mod_to_equations; lia). lia.
  - unfold Cache.getLineIndex, JS.rem. rewrite Hsar.
    apply Z.rem_mod_nonneg; lia.
  - unfold Cache.getTag, JS.sar. rewrite ToInt32_small by exact Ha.
    pose proof (Z.log2_nonneg (cacheSize (Cache.config c))) as Hl0.
    assert (Hl : Z.log2 (cacheSize (Cache.config c)) < 30)
      by (apply Z.log2_lt_pow2; lia).
    rewrite Z.mod_small by lia.
    rewrite Z.shiftr_div_pow2 by lia.
    rewrite Z.pow_add_r by lia. rewrite <- Z.div_div by (try apply Z.pow_pos_nonneg; lia).
    reflexivity.
Qed.

(** A line index and a tag determine the group of four words. *)
Lemma group_unique (cs q q' : Z) :
  0 < cs -> 0 <= q -> 0 <= q' ->
  q mod cs = q' mod cs ->
  q / 2 ^ Z.log2 cs = q' / 2 ^ Z.log2 cs ->
  q = q'.
Proof.
  intros Hcs Hq Hq' Hmod Hdiv.
  destruct (Z.log2_spec cs Hcs) as [Hlow _].
  set (P := 2 ^ Z.log2 cs) in *.
  assert (HP : 0 < P) by (apply Z.pow_pos_nonneg; [lia|apply Z.log2_nonneg]).
  pose proof (Z.div_mod q P ltac:(lia)) as E1.
  pose proof (Z.div_mod q' P ltac:(lia)) as E2.
  pose proof (Z.mod_pos_bound q P HP) as B1.
  pose proof (Z.mod_pos_bound q' P HP) as B2.
  pose proof (Z.div_mod q cs ltac:(lia)) as E3.
  pose proof (Z.div_mod q' cs ltac:(lia)) as E4.
  pose proof (Z.mod_pos_bound q cs Hcs) as B3.
  rewrite Hdiv in E1. rewrite Hmod in E3.
  assert (Hd : Z.abs (q - q') < cs) by lia.
  assert (Hm : q - q' = cs * (q / cs - q' / cs)) by lia.
  destruct (Z.eq_dec (q / cs) (q' / cs)) as [E|E]; [lia|].
  assert (1 <= Z.abs (q / cs - q' / cs)) by lia.
  assert (cs <= Z.abs (cs * (q / cs - q' / cs))) by (rewrite Z.abs_mul; nia).
  lia.
Qed.

(** Reading is transparent on a cache that mirrors the memory.  With
    lines of four words and fewer than 2^30 of them, a read at an
    addressable address returns the memory word at that address, or 0 past
    the end of the memory; it leaves the memory as it is, and the cache
    still mirrors it. *)
Lemma read_returns_memory_word (a : Z) (c : Cache.t) (m : JS.array) :
  0 < cacheSize (Cache.config c) < 2 ^ 30 ->
  lineSize (Cache.config c) = 4 ->
  well_formed c -> mirrors c m -> addressable a ->
  exists h c1,
    Cache.read a c m = Some (word_or_zero m a, h, c1, m)
    /\ well_formed c1 /\ Cache.config c1 = Cache.config c /\ mirrors c1 m.
Proof.
  intros Hcs Hls Hwf Hmir Ha.
  assert (Hoff : Cache.getOffset c a = a mod 4).
  { unfold Cache.getOffset, JS.rem. rewrite Hls.
    apply Z.rem_mod_nonneg; unfold addressable in Ha; lia. }
  destruct (line_at_in_range c _ Hwf (getLineIndex_range c a ltac:(lia) Ha)) as [l0 Hl0].
  destruct (Hmir _ _ Hl0) as [Hclean Hdata].
  unfold Cache.read. rewrite Hl0.
  destruct (Cache.valid l0 && (Cache.tag l0 =? Cache.getTag c a)) eqn:Ehit.
  - apply andb_true_iff in Ehit as [Hv Ht]. apply Z.eqb_eq in Ht.
    rewrite (Hdata Hv a Ha eq_refl (eq_sym Ht)).
    exists true, (Cache.with_hit c). split; [reflexivity|].
    split; [exact Hwf|]. split; [reflexivity|]. exact Hmir.
  - destruct (Cache.loadLine a (Cache.with_miss c) m) as [[c1 m1]|] eqn:El.
    2: { unfold Cache.loadLine in El.
         change (Cache.getLineIndex (Cache.with_miss c) a) with (Cache.getLineIndex c a) in El.
         cbn [Cache.with_miss Cache.lines] in El. rewrite Hl0 in El. discriminate. }
    destruct (loadLine_line _ _ _ _ _ El) as (l1 & Hl1 & Hcfg & _ & _ & Hlines & Hm1).
    change (Cache.getLineIndex (Cache.with_miss c) a) with (Cache.getLineIndex c a) in *.
    change (Cache.getTag (Cache.with_miss c) a) with (Cache.getTag c a) in *.
    cbn [Cache.with_miss Cache.lines Cache.config] in Hl1, Hcfg, Hlines.
    rewrite Hl0 in Hl1. injection Hl1 as <-.
    rewrite Hclean, andb_false_r in Hm1. subst m1.
    rewrite Hlines. erewrite line_at_set_line by exact Hl0.
    cbn [Cache.data].
    destruct (address_parts c a Ha Hcs) as (Hbase & Hidx & Htag).
    assert (Hfetch : forall a', addressable a' ->
               Cache.getLineIndex c a' = Cache.getLineIndex c a ->
               Cache.getTag c a' = Cache.getTag c a ->
               JS.get (Cache.fetchLine (Cache.with_miss c) (JS.shl (JS.sar a 2) 2)
                         (Cache.data l0) m) (a' mod 4)
               = word_or_zero m a').
    { intros a' Ha' Hi' Ht'.
      destruct (address_parts c a' Ha' Hcs) as (_ & Hidx' & Htag').
      assert (Hq : a' / 4 = a / 4).
      { apply (group_unique (cacheSize (Cache.config c))); try lia.
        - unfold addressable in Ha'. Z.div_mod_to_equations; lia.
        - unfold addressable in Ha. Z.div_mod_to_equations; lia. }
      rewrite fetchLine_get
        by (cbn [Cache.with_miss Cache.config]; rewrite Hls;
            apply Z.mod_pos_bound; lia).
      rewrite Hbase. f_equal. rewrite <- Hq. Z.div_mod_to_equations; lia. }
    rewrite Hoff, (Hfetch a Ha eq_refl eq_refl).
    exists false, c1. split; [reflexivity|].
    split; [unfold well_formed in *; rewrite Hlines, set_line_length, Hcfg; exact Hwf|].
    split; [exact Hcfg|].
    intros i line Hline. rewrite Hlines in Hline.
    destruct (address_split_config c1 c a Hcfg) as (Hi1 & Ht1 & Ho1).
    destruct (Z.eq_dec i (Cache.getLineIndex c a)) as [->|Hne].
    + erewrite line_at_set_line in Hline by exact Hl0. injection Hline as <-.
      cbn [Cache.dirty Cache.valid Cache.tag Cache.data].
      split; [reflexivity|]. intros _ a' Ha' Hi' Ht'.
      destruct (address_split_config c1 c a' Hcfg) as (Hi2 & Ht2 & Ho2).
      rewrite Ho2.
      assert (Hoff' : Cache.getOffset c a' = a' mod 4).
      { unfold Cache.getOffset, JS.rem. rewrite Hls.
        apply Z.rem_mod_nonneg; unfold addressable in Ha'; lia. }
      rewrite Hoff'. apply Hfetch; congruence.
    + assert (Hsame : Cache.line_at
                        (Cache.set_line (Cache.lines c) (Cache.getLineIndex c a)
                           {| Cache.tag := Cache.getTag c a;
                              Cache.data :=
                                Cache.fetchLine (Cache.with_miss c)
                                  (JS.shl (JS.sar a 2) 2) (Cache.data l0) m;
                              Cache.valid := true;
                              Cache.dirty := false |}) i
                      = Cache.line_at (Cache.lines c) i).
      { unfold Cache.line_at, Cache.set_line.
        destruct (Z.ltb_spec i 0); [reflexivity|].
        destruct (Z.ltb_spec (Cache.getLineIndex c a) 0); [reflexivity|].
        apply list_lookup_insert_ne. lia. }
      rewrite Hsame in Hline. destruct (Hmir _ _ Hline) as [Hd' Hdata'].
      split; [exact Hd'|]. intros Hv' a' Ha' Hi' Ht'.
      destruct (address_split_config c1 c a' Hcfg) as (Hi2 & Ht2 & Ho2).
      rewrite Ho2. apply Hdata'; congruence.
Qed.

Lemma new_mirrors (cfg : MemoryConfig) (m : JS.array) : mirrors (Cache.new cfg) m.
Proof.
  intros i line. unfold Cache.line_at, Cache.new. cbn [Cache.lines].
  destruct (i <? 0); [discriminate|].
  intros H. apply lookup_replicate in H as [-> _]. cbn. split; [reflexivity|discriminate].
Qed.

Lemma read_all_mirrors (addresses : list Z) :
  forall (c : Cache.t) (m : JS.array),
    0 < cacheSize (Cache.config c) < 2 ^ 30 ->
    lineSize (Cache.config c) = 4 ->
    well_formed c -> mirrors c m ->
    Forall addressable addresses ->
    exists c1,
      read_all c m addresses = Some (map (word_or_zero m) addresses, c1, m).
Proof.
  induction addresses as [|a rest IH]; intros c m Hcs Hls Hwf Hmir Hall.
  - exists c. reflexivity.
  - inversion Hall as [|? ? Ha Hrest]; subst.
    destruct (read_returns_memory_word a c m Hcs Hls Hwf Hmir Ha)
      as (h & c1 & Hread & Hwf1 & Hcfg & Hmir1).
    destruct (IH c1 m) as [c2 Hall2]; try assumption; try (rewrite Hcfg; assumption).
    exists c2. cbn [read_all map]. rewrite Hread, Hall2. reflexivity.
Qed.

(** X10. With reads only the cache is transparent.  For lines of four
    words and fewer than 2^30 of them, any run of reads at addressable
    addresses on a new cache returns, for each address, the memory word
    at that address, or 0 past the end of the memory, and leaves the
    memory as it was. *)
Theorem reads_return_memory_words (cfg : MemoryConfig) (m : JS.array)
    (addresses : list Z) :
  0 < cacheSize cfg < 2 ^ 30 ->
  lineSize cfg = 4 ->
  Forall addressable addresses ->
  exists c1,
    read_all (Cache.new cfg) m addresses
    = Some (map (word_or_zero m) addresses, c1, m).
Proof.
  intros Hcs Hls Hall.
  apply read_all_mirrors; try assumption.
  - apply new_well_formed.
  - apply new_mirrors.
Qed.

Lemma reads_return_memory_words_witness :
  (0 < cacheSize small_memory < 2 ^ 30)
  /\ lineSize small_memory = 4
  /\ Forall addressable [4; 20; 4; 36; 7; 100]
  /\ exists c1,
       read_all (Cache.new small_memory) numbered_memory [4; 20; 4; 36; 7; 100]
       = Some ([Some 104; Some 120; Some 104; Some 136; Some 107; Some 0],
               c1, numbered_memory).
Proof.
  assert (H1 : 0 < cacheSize small_memory < 2 ^ 30) by (cbn; lia).
  assert (H2 : lineSize small_memory = 4) by reflexivity.
  assert (H3 : Forall addressable [4; 20; 4; 36; 7; 100])
    by (repeat (apply Forall_cons_2; [unfold addressable; lia|]); apply Forall_nil_2).
  split; [exact H1|]. split; [exact H2|]. split; [exact H3|].
  destruct (reads_return_memory_words small_memory numbered_memory
              [4; 20; 4; 36; 7; 100] H1 H2 H3) as [c1 Hrun].
  exists c1. etransitivity; [exact Hrun|].
  apply (f_equal (fun l => Some (l, c1, numbered_memory))).
  vm_compute. reflexivity.
Defined.

(** ** flush *)

Lemma flushLine_lookup (c : Cache.t) (ls : list Cache.CacheLine) (m : JS.array)
    (i : Z) (j : nat) :
  0 <= i ->
  fst (Cache.flushLine c (ls, m) i) !! j
  = if decide (j = Z.to_nat i) then flushed_line <$> ls !! j else ls !! j.
Proof.
  intros Hi. unfold Cache.flushLine, Cache.line_at, Cache.set_line.
  destruct (Z.ltb_spec i 0); [lia|].
  destruct (ls !! Z.to_nat i) as [line|] eqn:E.
  - unfold flushed_line.
    destruct (decide (j = Z.to_nat i)) as [->|Hne].
    + rewrite E. cbn [fmap option_fmap option_map].
      destruct (Cache.valid line && Cache.dirty line); cbn [fst].
      * rewrite list_lookup_insert_eq by (eapply lookup_lt_Some; eassumption). reflexivity.
      * exact E.
    + destruct (Cache.valid line && Cache.dirty line); cbn [fst]; [|reflexivity].
      apply list_lookup_insert_ne. congruence.
  - cbn [fst]. destruct (decide (j = Z.to_nat i)) as [->|Hne]; [|reflexivity].
    rewrite E. reflexivity.
Qed.

Lemma flush_fold_lookup (c : Cache.t) (n : nat) (j : nat) :
  forall (lo : Z) (ls : list Cache.CacheLine) (m : JS.array),
    0 <= lo ->
    fst (fold_left (Cache.flushLine c) (JS.indices lo n) (ls, m)) !! j
    = if decide (Z.to_nat lo <= j < Z.to_nat lo + n)%nat
      then flushed_line <$> ls !! j else ls !! j.
Proof.
  induction n as [|n IH]; intros lo ls m Hlo.
  - cbn [JS.indices fold_left fst]. destruct (decide _); [lia|reflexivity].
  - cbn [JS.indices fold_left].
    rewrite (surjective_pairing (Cache.flushLine c (ls, m) lo)).
    rewrite IH by lia. rewrite flushLine_lookup by lia.
    replace (Z.to_nat (lo + 1)) with (S (Z.to_nat lo)) by lia.
    repeat destruct (decide _); try lia; reflexivity.
Qed.

Lemma flush_fold_noop (c : Cache.t) (ls : list Cache.CacheLine) (m : JS.array)
    (idxs : list Z) :
  Forall (fun l => Cache.valid l && Cache.dirty l = false) ls ->
  fold_left (Cache.flushLine c) idxs (ls, m) = (ls, m).
Proof.
  intros Hclean. induction idxs as [|i rest IH]; [reflexivity|].
  cbn [fold_left].
  assert (Hstep : Cache.flushLine c (ls, m) i = (ls, m)).
  { unfold Cache.flushLine, Cache.line_at.
    destruct (i <? 0); [reflexivity|].
    destruct (ls !! Z.to_nat i) as [line|] eqn:E; [|reflexivity].
    rewrite List.Forall_forall in Hclean.
    rewrite (Hclean line); [reflexivity|].
    apply list_elem_of_In. eapply list_elem_of_lookup_2. exact E. }
  rewrite Hstep. exact IH.
Qed.

(** X11. [flush] leaves no valid line dirty: each line of the cache
    comes out with the same tag, data and valid flag, and with its dirty
    flag cleared if it was valid; the counters and the configuration are
    untouched.  A second [flush] right after changes nothing, neither in
    the cache nor in the memory. *)
Theorem flush_cleans_lines (c : Cache.t) (m : JS.array) :
  let c1 := fst (Cache.flush c m) in
  let m1 := snd (Cache.flush c m) in
  Cache.lines c1 = map flushed_line (Cache.lines c)
  /\ Forall (fun l => Cache.valid l && Cache.dirty l = false) (Cache.lines c1)
  /\ Cache.hits c1 = Cache.hits c
  /\ Cache.misses c1 = Cache.misses c
  /\ Cache.config c1 = Cache.config c
  /\ Cache.flush c1 m1 = (c1, m1).
Proof.
  cbn zeta.
  assert (Hlines : Cache.lines (fst (Cache.flush c m)) = map flushed_line (Cache.lines c)).
  { unfold Cache.flush.
    rewrite (surjective_pairing (fold_left _ _ _)). cbn [fst Cache.with_lines Cache.lines].
    apply list_eq. intros j. rewrite flush_fold_lookup by lia.
    change (map flushed_line (Cache.lines c)) with (flushed_line <$> Cache.lines c).
    rewrite list_lookup_fmap.
    destruct (decide _) as [_|Hout]; [reflexivity|].
    rewrite lookup_ge_None_2 by (cbn in Hout; lia). reflexivity. }
  assert (Hclean : Forall (fun l => Cache.valid l && Cache.dirty l = false)
                     (Cache.lines (fst (Cache.flush c m)))).
  { rewrite Hlines. apply Forall_forall. intros l Hl.
    apply list_elem_of_In, in_map_iff in Hl as (l0 & <- & _).
    unfold flushed_line. destruct (Cache.valid l0 && Cache.dirty l0) eqn:E; [|exact E].
    cbn. apply andb_false_r. }
  split; [exact Hlines|]. split; [exact Hclean|].
  split; [|split; [|split]];
    try (unfold Cache.flush; rewrite (surjective_pairing (fold_left _ _ _)); reflexivity).
  set (c1 := fst (Cache.flush c m)) in *. set (m1 := snd (Cache.flush c m)).
  unfold Cache.flush at 1. rewrite flush_fold_noop by exact Hclean.
  destruct c1; reflexivity.
Qed.

(** ** The memory controller: direct access *)

Lemma set_length_inside (m : JS.array) (a : Z) (v : JS.value) :
  a < JS.length m -> JS.length (JS.set m a v) = JS.length m.
Proof.
  intros H. unfold JS.set. cbn [JS.length].
  destruct ((0 <=? a) && (a <? 2 ^ 32 - 1)); lia.
Qed.

(** X12. The direct path of the controller: a write inside the memory is
    read back at its address, every other address reads as before, a
    write outside the memory changes nothing, and no write changes the
    length of the memory. *)
Theorem direct_read_after_write (mc : MemoryController.t) (a a' : Z) (v : JS.value) :
  MemoryController.read a' (MemoryController.write a v mc)
  = (if in_memory mc a && (a' =? a) then v else MemoryController.read a' mc)
  /\ JS.length (MemoryController.memory (MemoryController.write a v mc))
     = JS.length (MemoryController.memory mc).
Proof.
  unfold MemoryController.read, MemoryController.write, in_memory.
  destruct ((0 <=? a) && (a <? JS.length (MemoryController.memory mc))) eqn:Hin;
    cbn [andb].
  - apply andb_true_iff in Hin as [H0 H1]. apply Z.leb_le in H0. apply Z.ltb_lt in H1.
    cbn [MemoryController.with_memory MemoryController.memory].
    rewrite set_length_inside by exact H1. split; [|reflexivity].
    destruct (Z.eqb_spec a' a) as [->|Hne].
    + replace ((0 <=? a) && (a <? JS.length (MemoryController.memory mc))) with true
        by (split_comparisons; try reflexivity; lia).
      apply get_set_eq.
    + rewrite get_set_ne by congruence. reflexivity.
  - split; reflexivity.
Qed.

Lemma initialize_from_spec (data : list Z) :
  forall (at_ : Z) (m : JS.array),
    JS.length (MemoryController.initialize_from data at_ m) = JS.length m
    /\ forall a,
         JS.get (MemoryController.initialize_from data at_ m) a
         = if (at_ <=? a) && (a <? at_ + Z.of_nat (List.length data))
              && (a <? JS.length m)
           then word_at data (a - at_)
           else JS.get m a.
Proof.
  induction data as [|x rest IH]; intros at_ m.
  - cbn [MemoryController.initialize_from List.length]. split; [reflexivity|].
    intros a. replace ((at_ <=? a) && (a <? at_ + Z.of_nat 0)) with false
      by (split_comparisons; try reflexivity; lia).
    reflexivity.
  - cbn [MemoryController.initialize_from].
    destruct (Z.ltb_spec at_ (JS.length m)) as [Hin|Hout].
    + destruct (IH (at_ + 1) (JS.set m at_ (Some x))) as [Hlen Hget].
      rewrite set_length_inside in Hlen, Hget by exact Hin.
      split; [exact Hlen|]. intros a. rewrite Hget.
      cbn [List.length]. unfold word_at.
      destruct (Z.eq_dec a at_) as [->|Hne].
      * replace ((at_ + 1 <=? at_) && (at_ <? at_ + 1 + Z.of_nat (List.length rest))
                 && (at_ <? JS.length m)) with false
          by (split_comparisons; try reflexivity; lia).
        replace ((at_ <=? at_) && (at_ <? at_ + Z.of_nat (S (List.length rest)))
                 && (at_ <? JS.length m)) with true
          by (split_comparisons; try reflexivity; lia).
        rewrite get_set_eq, Z.sub_diag. reflexivity.
      * rewrite get_set_ne by congruence.
        replace ((at_ <=? a) && (a <? at_ + Z.of_nat (S (List.length rest)))
                 && (a <? JS.length m))
          with ((at_ + 1 <=? a) && (a <? at_ + 1 + Z.of_nat (List.length rest))
                && (a <? JS.length m))
          by (split_comparisons; try reflexivity; lia).
        destruct ((at_ + 1 <=? a) && (a <? at_ + 1 + Z.of_nat (List.length rest))
                  && (a <? JS.length m)) eqn:E; [|reflexivity].
        assert (at_ + 1 <= a) by (revert E; split_comparisons; cbn; intros; try discriminate; lia).
        destruct (Z.ltb_spec (a - (at_ + 1)) 0), (Z.ltb_spec (a - at_) 0); try lia.
        replace (Z.to_nat (a - at_)) with (S (Z.to_nat (a - (at_ + 1)))) by lia.
        reflexivity.
    + split; [reflexivity|]. intros a.
      replace ((at_ <=? a) && (a <? at_ + Z.of_nat (List.length (x :: rest)))
               && (a <? JS.length m)) with false
        by (split_comparisons; try reflexivity; lia).
      reflexivity.
Qed.

(** X13. [initialize] copies the data into the memory from the offset
    on, as far as the memory reaches, and never extends it: afterwards a
    direct read inside the copied range returns the word of the data, and
    every other direct read returns what it returned before. *)
Theorem initialize_then_read (data : list Z) (offset a : Z) (mc : MemoryController.t) :
  let mc1 := MemoryController.initialize data offset mc in
  JS.length (MemoryController.memory mc1) = JS.length (MemoryController.memory mc)
  /\ MemoryController.read a mc1
     = if in_memory mc a && (offset <=? a) && (a <? offset + Z.of_nat (List.length data))
       then word_at data (a - offset)
       else MemoryController.read a mc.
Proof.
  cbn zeta. unfold MemoryController.initialize, MemoryController.read, in_memory.
  cbn [MemoryController.with_memory MemoryController.memory].
  destruct (initialize_from_spec data offset (MemoryController.memory mc)) as [Hlen Hget].
  rewrite Hlen, Hget. split; [reflexivity|].
  destruct (Z.leb_spec 0 a), (Z.ltb_spec a (JS.length (MemoryController.memory mc)));
    cbn [andb]; try reflexivity.
  rewrite andb_true_r. reflexivity.
Qed.

(** ** The memory controller: the queue *)


Lemma service_response_kept (st : JS.array * gmap Z MemoryResponse)
    (r : MemoryRequest) (requestId : Z) :
  snd (MemoryController.service st r) !! requestId
  = if decide (MemoryController.getRequestId r = requestId)
    then Some (mkMemoryResponse
                 (if req_write r then req_data r
                  else JS.get (fst (MemoryController.service st r)) (req_address r))
                 true)
    else snd st !! requestId.
Proof.
  destruct st as [mem responses]. unfold MemoryController.service. cbn [fst snd].
  rewrite lookup_insert. destruct (decide _); reflexivity.
Qed.

Lemma service_all_responses (l : list MemoryRequest) :
  forall (st : JS.array * gmap Z MemoryResponse) (requestId : Z),
    (Exists (fun r => MemoryController.getRequestId r = requestId) l ->
     exists d, snd (fold_left MemoryController.service l st) !! requestId
               = Some (mkMemoryResponse d true))
    /\ (Forall (fun r => MemoryController.getRequestId r <> requestId) l ->
        snd (fold_left MemoryController.service l st) !! requestId
        = snd st !! requestId).
Proof.
  induction l as [|r rest IH]; intros st requestId.
  - split; [intros H; inversion H|reflexivity].
  - cbn [fold_left].
    destruct (IH (MemoryController.service st r) requestId) as [IHe IHf].
    split.
    + intros Hex.
      destruct (decide (Exists (fun r => MemoryController.getRequestId r = requestId) rest))
        as [Hin|Hnot]; [auto|].
      rewrite IHf by (apply List.Forall_Exists_neg; exact Hnot).
      rewrite service_response_kept.
      inversion Hex as [? ? Hr|? ? Hr]; subst; [|contradiction].
      destruct (decide _); [eauto|contradiction].
    + intros Hall. inversion Hall as [|? ? Hr Hrest]; subst.
      rewrite IHf by exact Hrest. rewrite service_response_kept.
      destruct (decide _); [contradiction|reflexivity].
Qed.

Lemma service_memory (st : JS.array * gmap Z MemoryResponse) (r : MemoryRequest) :
  fst (MemoryController.service st r)
  = if effective_write r
    then JS.set (fst st) (req_address r) (req_data r)
    else fst st.
Proof.
  destruct st as [mem responses]. unfold MemoryController.service, effective_write.
  destruct (req_write r), (req_data r); reflexivity.
Qed.

Lemma service_all_memory (l : list MemoryRequest) (a : Z) :
  forall (st : JS.array * gmap Z MemoryResponse),
    (Forall (fun r => effective_write r = true -> req_address r <> a) l ->
     JS.get (fst (fold_left MemoryController.service l st)) a = JS.get (fst st) a)
    /\ (forall x,
          Exists (fun r => effective_write r = true /\ req_address r = a) l ->
          Forall (fun r => effective_write r = true -> req_address r = a ->
                           req_data r = Some x) l ->
          JS.get (fst (fold_left MemoryController.service l st)) a = Some x).
Proof.
  induction l as [|r rest IH]; intros st.
  - split; [reflexivity|]. intros x H. inversion H.
  - cbn [fold_left]. destruct (IH (MemoryController.service st r)) as [IHf IHw].
    assert (Hstep : (effective_write r = true -> req_address r <> a) ->
                    JS.get (fst (MemoryController.service st r)) a = JS.get (fst st) a).
    { intros Hr. rewrite service_memory.
      destruct (effective_write r); [|reflexivity].
      apply get_set_ne. auto. }
    split.
    + intros Hall. inversion Hall as [|? ? Hr Hrest]; subst.
      rewrite IHf by exact Hrest. apply Hstep. exact Hr.
    + intros x Hex Hall. inversion Hall as [|? ? Hr Hrest]; subst.
      destruct (decide (Exists (fun r => effective_write r = true /\ req_address r = a) rest))
        as [Hin|Hnot].
      * apply IHw; assumption.
      * rewrite IHf.
        2: { apply List.Forall_Exists_neg in Hnot. rewrite List.Forall_forall in *.
             intros r0 Hr0 He Ha. apply (Hnot r0 Hr0). auto. }
        inversion Hex as [? ? [He Ha]|? ? Hr']; subst; [|contradiction].
        rewrite service_memory, He. rewrite (Hr He eq_refl). apply get_set_eq.
Qed.

(** What [processRequests] leaves, through the order it services in. *)
Lemma processRequests_as_fold (mc : MemoryController.t) :
  exists order,
    Permutation order (MemoryController.pendingRequests mc)
    /\ MemoryController.memory (MemoryController.processRequests mc)
       = fst (fold_left MemoryController.service order
                (MemoryController.memory mc, MemoryController.responseQueue mc))
    /\ MemoryController.responseQueue (MemoryController.processRequests mc)
       = snd (fold_left MemoryController.service order
                (MemoryController.memory mc, MemoryController.responseQueue mc)).
Proof.
  destruct (processRequests_reorders mc) as (order & Hp & ->).
  exists order. split; [exact Hp|].
  unfold processIndividually.
  cbn [MemoryController.pendingRequests MemoryController.memory
       MemoryController.responseQueue].
  destruct (fold_left _ _ _); split; reflexivity.
Qed.

(** X14. Every queued request is answered: after [processRequests] the
    queue is empty and the response map holds, under the id of each
    request that was pending, a response marked valid; that response can
    be fetched with [getResponse] once, and a second fetch finds nothing. *)
Theorem every_request_answered_once (mc : MemoryController.t) (r : MemoryRequest) :
  In r (MemoryController.pendingRequests mc) ->
  let mc1 := MemoryController.processRequests mc in
  MemoryController.pendingRequests mc1 = []
  /\ exists d mc2,
       MemoryController.getResponse (MemoryController.getRequestId r) mc1
       = (Some (mkMemoryResponse d true), mc2)
       /\ MemoryController.getResponse (MemoryController.getRequestId r) mc2
          = (None, mc2).
Proof.
  intros Hin. cbn zeta.
  split; [unfold MemoryController.processRequests;
          destruct (fold_left MemoryController.service _ _); reflexivity|].
  destruct (processRequests_as_fold mc) as (order & Hp & _ & Hresp).
  destruct (service_all_responses order
              (MemoryController.memory mc, MemoryController.responseQueue mc)
              (MemoryController.getRequestId r)) as [Hex _].
  destruct Hex as [d Hd].
  { apply List.Exists_exists. exists r. split; [|reflexivity].
    eapply Permutation_in; [symmetry; exact Hp|exact Hin]. }
  rewrite <- Hresp in Hd.
  unfold MemoryController.getResponse at 1. rewrite Hd.
  eexists d, _. split; [reflexivity|].
  unfold MemoryController.getResponse.
  cbn [MemoryController.responseQueue]. rewrite lookup_delete_eq. reflexivity.
Qed.

Lemma every_request_answered_once_witness :
  In (mkMemoryRequest 11 None false 2 0)
     (MemoryController.pendingRequests (with_pending mixed_batch))
  /\ exists d mc2,
       MemoryController.getResponse 2000011
         (MemoryController.processRequests (with_pending mixed_batch))
       = (Some (mkMemoryResponse d true), mc2).
Proof.
  assert (H : In (mkMemoryRequest 11 None false 2 0)
                 (MemoryController.pendingRequests (with_pending mixed_batch)))
    by (cbn; auto).
  split; [exact H|].
  destruct (every_request_answered_once (with_pending mixed_batch) _ H)
    as [_ (d & mc2 & Hget & _)].
  exists d, mc2. exact Hget.
Defined.

(** X15. [processRequests] changes memory only where the batch writes: a
    word that no pending write carrying data is addressed to is the same
    after the call, and a response recorded under an id that no pending
    request has is left as it was. *)
Theorem processRequests_frame (mc : MemoryController.t) (a requestId : Z) :
  (forall r, In r (MemoryController.pendingRequests mc) ->
             effective_write r = true -> req_address r <> a) ->
  (forall r, In r (MemoryController.pendingRequests mc) ->
             MemoryController.getRequestId r <> requestId) ->
  JS.get (MemoryController.memory (MemoryController.processRequests mc)) a
  = JS.get (MemoryController.memory mc) a
  /\ MemoryController.responseQueue (MemoryController.processRequests mc) !! requestId
     = MemoryController.responseQueue mc !! requestId.
Proof.
  intros Hmem Hid.
  destruct (processRequests_as_fold mc) as (order & Hp & Hm & Hresp).
  rewrite Hm, Hresp. split.
  - apply (service_all_memory order a). apply List.Forall_forall. intros r Hr.
    apply Hmem. eapply Permutation_in; eassumption.
  - apply (service_all_responses order). apply List.Forall_forall. intros r Hr.
    apply Hid. eapply Permutation_in; eassumption.
Qed.

Lemma processRequests_frame_witness :
  (forall r, In r (MemoryController.pendingRequests second_batch) ->
             effective_write r = true -> req_address r <> 11)
  /\ (forall r, In r (MemoryController.pendingRequests second_batch) ->
                MemoryController.getRequestId r <> 7)
  /\ JS.get (MemoryController.memory second_batch) 11 = Some 111
  /\ response_data second_batch 7 = Some (Some 107)
  /\ JS.get (MemoryController.memory
               (MemoryController.processRequests second_batch)) 11
     = Some 111
  /\ response_data (MemoryController.processRequests second_batch) 7
     = Some (Some 107)
  /\ map (JS.get (MemoryController.memory
                    (MemoryController.processRequests second_batch))) [10; 12]
     = [Some 1; Some 2]
  /\ response_data (MemoryController.processRequests second_batch) 2000011
     = Some (Some 111).
Proof.
  assert (H1 : forall r, In r (MemoryController.pendingRequests second_batch) ->
                         effective_write r = true -> req_address r <> 11).
  { intros r Hr. cbn in Hr.
    destruct Hr as [<-|[<-|[<-|[<-|[]]]]]; cbn; intros; try discriminate; try lia. }
  assert (H2 : forall r, In r (MemoryController.pendingRequests second_batch) ->
                         MemoryController.getRequestId r <> 7).
  { intros r Hr. cbn in Hr.
    destruct Hr as [<-|[<-|[<-|[<-|[]]]]]; intros E; vm_compute in E; discriminate E. }
  destruct (processRequests_frame second_batch 11 7 H1 H2) as [Hmem Hresp].
  split; [exact H1|]. split; [exact H2|].
  split; [vm_compute; reflexivity|]. split; [vm_compute; reflexivity|].
  split; [rewrite Hmem; vm_compute; reflexivity|].
  split; [unfold response_data; rewrite Hresp; vm_compute; reflexivity|].
  split; vm_compute; reflexivity.
Defined.

(** X16. An uncontested write lands: when the batch holds a write with
    data to an address, and every write with data to that address carries
    the same word, that word is in memory at the address after
    [processRequests], whatever the order of the queue and whatever gets
    coalesced. *)
Theorem agreed_write_lands (mc : MemoryController.t) (a x : Z) :
  (exists r, In r (MemoryController.pendingRequests mc)
             /\ effective_write r = true /\ req_address r = a) ->
  (forall r, In r (MemoryController.pendingRequests mc) ->
             effective_write r = true -> req_address r = a ->
             req_data r = Some x) ->
  JS.get (MemoryController.memory (MemoryController.processRequests mc)) a = Some x.
Proof.
  intros (r & Hin & He & Ha) Hall.
  destruct (processRequests_as_fold mc) as (order & Hp & Hm & _).
  rewrite Hm. apply (service_all_memory order a).
  - apply List.Exists_exists. exists r. split; [|auto].
    eapply Permutation_in; [symmetry; exact Hp|exact Hin].
  - apply List.Forall_forall. intros r0 Hr0. apply Hall.
    eapply Permutation_in; eassumption.
Qed.

Lemma agreed_write_lands_witness :
  (exists r, In r (MemoryController.pendingRequests (with_pending mixed_batch))
             /\ effective_write r = true /\ req_address r = 12)
  /\ (forall r, In r (MemoryController.pendingRequests (with_pending mixed_batch)) ->
                effective_write r = true -> req_address r = 12 ->
                req_data r = Some 2)
  /\ JS.get (MemoryController.memory
               (MemoryController.processRequests (with_pending mixed_batch))) 12
     = Some 2.
Proof.
  assert (H1 : exists r, In r (MemoryController.pendingRequests (with_pending mixed_batch))
                         /\ effective_write r = true /\ req_address r = 12).
  { exists (mkMemoryRequest 12 (Some 2) true 1 0). cbn. auto. }
  assert (H2 : forall r, In r (MemoryController.pendingRequests (with_pending mixed_batch)) ->
                         effective_write r = true -> req_address r = 12 ->
                         req_data r = Some 2).
  { intros r Hr. cbn in Hr.
    destruct Hr as [<-|[<-|[<-|[<-|[]]]]]; cbn; intros; try discriminate; try lia;
      reflexivity. }
  split; [exact H1|]. split; [exact H2|].
  exact (agreed_write_lands (with_pending mixed_batch) 12 2 H1 H2).
Defined.

(** ** The thread scheduler *)

Lemma split_warps_spec (fuel : nat) :
  forall ts : list ThreadState,
    (List.length ts <= fuel)%nat ->
    flat_map ThreadScheduler.warp_threads (ThreadScheduler.split_warps fuel ts) = ts
    /\ Forall fresh_warp (ThreadScheduler.split_warps fuel ts).
Proof.
  induction fuel as [|fuel IH]; intros ts Hlen.
  - destruct ts; [|cbn in Hlen; lia]. split; [reflexivity|constructor].
  - destruct ts as [|th ts]; [split; [reflexivity|constructor]|].
    cbn [ThreadScheduler.split_warps].
    set (all := th :: ts) in *.
    destruct (IH (drop ThreadScheduler.warpSize all)) as [Hcat Hfresh].
    { rewrite length_drop. unfold ThreadScheduler.warpSize. subst all.
      cbn [List.length] in *. lia. }
    split.
    + cbn [flat_map ThreadScheduler.warp_threads]. rewrite Hcat. apply take_drop.
    + constructor; [|exact Hfresh].
      unfold fresh_warp. cbn [ThreadScheduler.warp_threads ThreadScheduler.warp_active
                                ThreadScheduler.warp_pc].
      rewrite length_take. unfold ThreadScheduler.warpSize. subst all.
      cbn [List.length]. repeat split; lia.
Qed.

(** X17. [initializeBlocks] partitions the threads into warps: the
    threads of the warps, warp after warp, are the threads of the blocks,
    block after block, each exactly once and in order; every warp holds
    between 1 and 32 threads, is active, and carries the PC of its first
    thread; scheduling starts at warp 0. *)
Theorem initializeBlocks_partitions (blocks : list BlockState)
    (s : ThreadScheduler.t) :
  let s1 := ThreadScheduler.initializeBlocks blocks s in
  scheduled_threads s1 = flat_map threads blocks
  /\ Forall fresh_warp (ThreadScheduler.warps s1)
  /\ ThreadScheduler.currentWarpIndex s1 = 0%nat.
Proof.
  cbn zeta. unfold scheduled_threads, ThreadScheduler.initializeBlocks.
  cbn [ThreadScheduler.warps ThreadScheduler.currentWarpIndex].
  split; [|split; [|reflexivity]].
  - induction blocks as [|b rest IH]; [reflexivity|].
    cbn [flat_map]. rewrite flat_map_app, IH.
    rewrite (proj1 (split_warps_spec _ (threads b) (le_n _))). reflexivity.
  - induction blocks as [|b rest IH]; [constructor|].
    cbn [flat_map]. apply Forall_app. split; [|exact IH].
    apply (split_warps_spec _ (threads b) (le_n _)).
Qed.

Lemma negb_has_active (w : ThreadScheduler.Warp) :
  negb (ThreadScheduler.has_active w)
  = negb (ThreadScheduler.warp_active w)
    || forallb (fun th => negb (active th)) (ThreadScheduler.warp_threads w).
Proof.
  unfold ThreadScheduler.has_active. rewrite negb_andb. f_equal.
  induction (ThreadScheduler.warp_threads w) as [|th rest IH]; [reflexivity|].
  cbn. rewrite negb_orb, IH. reflexivity.
Qed.





Lemma fold_sum_bounds (f g : ThreadScheduler.Warp -> Z) (ws : list ThreadScheduler.Warp) :
  (forall w, 0 <= f w <= g w) ->
  forall acc acc',
    0 <= acc <= acc' ->
    0 <= fold_left (fun sum w => sum + f w) ws acc
      <= fold_left (fun sum w => sum + g w) ws acc'.
Proof.
  intros Hfg. induction ws as [|w rest IH]; intros acc acc' Hacc; cbn [fold_left].
  - exact Hacc.
  - apply IH. specialize (Hfg w). lia.
Qed.

(** X19. The statistics of the scheduler: the active warps are at most
    the warps and the active threads at most the threads, none of the
    counts is negative, and [isComplete] holds exactly when the count of
    active warps is 0. *)
Theorem scheduler_stats_consistent (s : ThreadScheduler.t) :
  let st := ThreadScheduler.getStats s in
  0 <= ThreadScheduler.activeWarps st <= ThreadScheduler.totalWarps st
  /\ 0 <= ThreadScheduler.activeThreads st <= ThreadScheduler.totalThreads st
  /\ ThreadScheduler.isComplete s = (ThreadScheduler.activeWarps st =? 0).
Proof.
  cbn zeta. unfold ThreadScheduler.getStats.
  cbn [ThreadScheduler.activeWarps ThreadScheduler.totalWarps
       ThreadScheduler.activeThreads ThreadScheduler.totalThreads].
  split; [|split].
  - pose proof (length_filter (fun w => ThreadScheduler.has_active w = true)
                  (ThreadScheduler.warps s)). lia.
  - apply (fold_sum_bounds
             (fun w => Z.of_nat (List.length (ThreadScheduler.getActiveThreads w)))
             (fun w => Z.of_nat (List.length (ThreadScheduler.warp_threads w))));
      [|lia].
    intros w. unfold ThreadScheduler.getActiveThreads.
    pose proof (length_filter (fun th => active th = true)
                  (ThreadScheduler.warp_threads w)). lia.
  - unfold ThreadScheduler.isComplete.
    induction (ThreadScheduler.warps s) as [|w rest IH]; [reflexivity|].
    cbn [forallb]. rewrite <- negb_has_active, IH. rewrite filter_cons.
    destruct (decide (ThreadScheduler.has_active w = true)) as [E|E].
    + rewrite E. cbn [negb andb List.length].
      destruct (Z.eqb_spec (Z.of_nat (S (List.length
                  (filter (fun w => ThreadScheduler.has_active w = true) rest)))) 0);
        [lia|reflexivity].
    + destruct (ThreadScheduler.has_active w); [congruence|reflexivity].
Qed.

(** ** Instructions as decoded *)

Lemma decode_by_opcode (w : Z) (n : Z) :
  (w mod 2 ^ 32) / 2 ^ 24 = n ->
  InstructionDecoder.getOpcode (Some w) = InstructionDecoder.opcodeToString n.
Proof.
  intros <-. unfold InstructionDecoder.getOpcode.
  rewrite getOpcodeNum_top_byte. reflexivity.
Qed.

(** X20. A decoded STR stores nothing.  [decode] gives STR no second
    source register, and [executeSTR] then only steps the PC: executing
    the decoded instruction leaves the registers, the cache and the memory
    as they were, and asks for no memory access. *)
Theorem decoded_STR_is_inert (w : Z) (ctx : Instructions.InstructionContext) :
  (w mod 2 ^ 32) / 2 ^ 24 = 0x0a ->
  Instructions.executeInstruction (InstructionDecoder.decode (Some w)) ctx
  = Some (Instructions.mkResult (pc (Instructions.thread ctx) + 1) false None, ctx).
Proof.
  intros Hop. unfold InstructionDecoder.decode.
  rewrite (decode_by_opcode w _ Hop). reflexivity.
Qed.

Lemma decoded_STR_is_inert_witness :
  (0x0a120000 mod 2 ^ 32) / 2 ^ 24 = 0x0a
  /\ forall ctx,
       Instructions.executeInstruction (InstructionDecoder.decode (Some 0x0a120000)) ctx
       = Some (Instructions.mkResult (pc (Instructions.thread ctx) + 1) false None, ctx).
Proof.
  assert (H : (0x0a120000 mod 2 ^ 32) / 2 ^ 24 = 0x0a) by reflexivity.
  split; [exact H|].
  intros ctx. exact (decoded_STR_is_inert 0x0a120000 ctx H).
Defined.

(** ** Memory across a cycle *)












(** ** The engine over several cycles *)

Lemma same_thread_refl (th : ThreadState) : same_thread th th.
Proof. repeat split. Qed.

Lemma same_thread_trans (a b c : ThreadState) :
  same_thread a b -> same_thread b c -> same_thread a c.
Proof.
  intros (Hi & Hb & Ha) (Hi' & Hb' & Ha'). repeat split; try congruence.
  intros Hina. specialize (Ha Hina). subst b. auto.
Qed.

Lemma Forall2_same_refl {A : Type} (R : A -> A -> Prop) (l : list A) :
  (forall x, R x x) -> Forall2 R l l.
Proof. intros HR. induction l; constructor; auto. Qed.

Lemma Forall2_same_trans {A : Type} (R : A -> A -> Prop) (l1 : list A) :
  (forall x y z, R x y -> R y z -> R x z) ->
  forall l2 l3, Forall2 R l1 l2 -> Forall2 R l2 l3 -> Forall2 R l1 l3.
Proof.
  intros HR. induction l1 as [|x l1 IH]; intros l2 l3 H12 H23;
    inversion H12; subst; inversion H23; subst; constructor; eauto.
Qed.

Lemma same_warp_refl (w : ThreadScheduler.Warp) : same_warp w w.
Proof.
  repeat split. apply Forall2_same_refl. exact same_thread_refl.
Qed.

Lemma same_warp_trans (a b c : ThreadScheduler.Warp) :
  same_warp a b -> same_warp b c -> same_warp a c.
Proof.
  intros (Ha & Hp & Ht) (Ha' & Hp' & Ht'). repeat split; try congruence.
  eapply Forall2_same_trans; [exact same_thread_trans|eassumption..].
Qed.

Lemma stepThread_same (instructions : list Z) (th th' : ThreadState)
    (s s' : ExecutionEngine.shared) :
  active th = true ->
  ExecutionEngine.stepThread instructions th s = Some (th', s') ->
  same_thread th th'.
Proof.
  intros Hact. unfold ExecutionEngine.stepThread.
  destruct (Z.of_nat (List.length instructions) <=? pc th).
  - intros [= <- <-]. repeat split. congruence.
  - destruct (Instructions.executeInstruction _ _) as [[result context']|];
      [|discriminate].
    unfold ExecutionEngine.updateThreadState.
    destruct (RegisterFile.getRegisters _ _) as [regs rf].
    intros [= <- <-]. repeat split. congruence.
Qed.

Lemma stepThreads_same (instructions : list Z) (ths : list ThreadState) :
  forall (ths' : list ThreadState) (s s' : ExecutionEngine.shared),
    ExecutionEngine.stepThreads instructions ths s = Some (ths', s') ->
    Forall2 same_thread ths ths'.
Proof.
  induction ths as [|th rest IH]; intros ths' s s'; cbn [ExecutionEngine.stepThreads].
  - intros [= <- <-]. constructor.
  - destruct (active th) eqn:Hact.
    + destruct (ExecutionEngine.stepThread instructions th s) as [[th1 s1]|] eqn:E;
        [|discriminate].
      destruct (ExecutionEngine.stepThreads instructions rest s1) as [[rest' s2]|] eqn:Er;
        [|discriminate].
      intros [= <- <-]. constructor; [|eapply IH; eassumption].
      eapply stepThread_same; eassumption.
    + destruct (ExecutionEngine.stepThreads instructions rest s) as [[rest' s2]|] eqn:Er;
        [|discriminate].
      intros [= <- <-]. constructor; [|eapply IH; eassumption].
      apply same_thread_refl.
Qed.

Lemma set_warp_threads_same (ws : list ThreadScheduler.Warp) (i : nat)
    (w : ThreadScheduler.Warp) (ths : list ThreadState) :
  ws !! i = Some w ->
  Forall2 same_thread (ThreadScheduler.warp_threads w) ths ->
  Forall2 same_warp ws (ExecutionEngine.set_warp_threads ws i ths).
Proof.
  intros Hw Hths. unfold ExecutionEngine.set_warp_threads. rewrite Hw.
  apply Forall2_lookup. intros j.
  destruct (decide (j = i)) as [->|Hne].
  - rewrite Hw, list_lookup_insert_eq by (eapply lookup_lt_Some; eassumption).
    constructor. repeat split. exact Hths.
  - rewrite list_lookup_insert_ne by congruence.
    destruct (ws !! j); constructor. apply same_warp_refl.
Qed.

(** Picking a warp leaves the scheduler's cycle counter as it is. *)
Lemma getNextWarp_cycle (s s' : ThreadScheduler.t) (found : option nat) :
  ThreadScheduler.getNextWarp s = Some (found, s') ->
  ThreadScheduler.cycle s' = ThreadScheduler.cycle s.
Proof.
  unfold ThreadScheduler.getNextWarp.
  destruct (ThreadScheduler.warps s) eqn:Hw.
  - intros [= _ <-]. reflexivity.
  - destruct (ThreadScheduler.scan_warps _ _ _) as [[f idx]|]; [|discriminate].
    intros [= _ <-]. reflexivity.
Qed.

(** One cycle: the scheduler's warps keep their number, flags and PC,
    and their threads their identity; and the counters move together. *)
Lemma executeCycle_same (e e' : ExecutionEngine.t) (b : bool) :
  ExecutionEngine.executeCycle e = Some (b, e') ->
  Forall2 same_warp (engine_warps e) (engine_warps e')
  /\ ExecutionEngine.instructionMemory e' = ExecutionEngine.instructionMemory e
  /\ ExecutionEngine.maxCycles e' = ExecutionEngine.maxCycles e
  /\ ExecutionEngine.cycle e' - ThreadScheduler.getCycle (ExecutionEngine.threadScheduler e')
     = ExecutionEngine.cycle e - ThreadScheduler.getCycle (ExecutionEngine.threadScheduler e)
  /\ ExecutionEngine.cycle e <= ExecutionEngine.cycle e' <= ExecutionEngine.cycle e + 1
  /\ (ExecutionEngine.cycle e' = ExecutionEngine.cycle e
      \/ ExecutionEngine.cycle e' <= ExecutionEngine.maxCycles e).
Proof.
  unfold ExecutionEngine.executeCycle, engine_warps.
  destruct (Z.leb_spec (ExecutionEngine.maxCycles e) (ExecutionEngine.cycle e)) as [Hge|Hlt].
  { intros [= _ <-]. repeat split; try lia.
    apply Forall2_same_refl. exact same_warp_refl. }
  destruct (ThreadScheduler.getNextWarp _) as [[[i|] sch]|] eqn:Hnext; try discriminate.
  2: { intros [= _ <-]. cbn.
       rewrite (getNextWarp_warps _ _ _ Hnext).
       pose proof (getNextWarp_cycle _ _ _ Hnext) as Hc.
       unfold ThreadScheduler.getCycle. rewrite Hc.
       repeat split; try lia.
       apply Forall2_same_refl. exact same_warp_refl. }
  destruct (ThreadScheduler.warps sch !! i) as [warp|] eqn:Hw; [|discriminate].
  destruct (ExecutionEngine.stepThreads _ _ _) as [[ths s]|] eqn:Hstep; [|discriminate].
  intros [= _ <-]. cbn.
  pose proof (getNextWarp_cycle _ _ _ Hnext) as Hc.
  rewrite Hc. rewrite <- (getNextWarp_warps _ _ _ Hnext).
  unfold ThreadScheduler.getCycle. repeat split; try lia.
  eapply set_warp_threads_same; [exact Hw|].
  eapply stepThreads_same. exact Hstep.
Qed.

Lemma cycles_same (n : nat) :
  forall (e e' : ExecutionEngine.t) (bs : list bool),
    cycles n e = Some (bs, e') ->
    Forall2 same_warp (engine_warps e) (engine_warps e')
    /\ ExecutionEngine.instructionMemory e' = ExecutionEngine.instructionMemory e
    /\ ExecutionEngine.maxCycles e' = ExecutionEngine.maxCycles e
    /\ ExecutionEngine.cycle e' - ThreadScheduler.getCycle (ExecutionEngine.threadScheduler e')
       = ExecutionEngine.cycle e - ThreadScheduler.getCycle (ExecutionEngine.threadScheduler e)
    /\ ExecutionEngine.cycle e <= ExecutionEngine.cycle e' <= ExecutionEngine.cycle e + Z.of_nat n
    /\ (ExecutionEngine.cycle e' = ExecutionEngine.cycle e
        \/ ExecutionEngine.cycle e' <= ExecutionEngine.maxCycles e).
Proof.
  induction n as [|n IH]; intros e e' bs; cbn [cycles].
  - intros [= _ <-]. repeat split; try lia.
    apply Forall2_same_refl. exact same_warp_refl.
  - destruct (ExecutionEngine.executeCycle e) as [[b e1]|] eqn:E; [|discriminate].
    destruct (cycles n e1) as [[bs1 e2]|] eqn:En; [|discriminate].
    intros [= _ <-].
    destruct (executeCycle_same _ _ _ E) as (Hw & Hi & Hm & Hc & Hb & Hx).
    destruct (IH _ _ _ En) as (Hw' & Hi' & Hm' & Hc' & Hb' & Hx').
    split; [eapply Forall2_same_trans; [exact same_warp_trans|eassumption..]|].
    repeat split; try congruence; try lia.
Qed.

(** X22. Once inactive, always inactive.  Over any number of cycles the
    scheduler keeps the number of its warps and each warp's [active]
    flag and [pc] field; every thread keeps its id and block id; and a
    thread that is inactive is never changed again, in particular never
    made active. *)
Theorem inactive_threads_stay (n : nat) (e e' : ExecutionEngine.t) (bs : list bool) :
  cycles n e = Some (bs, e') ->
  Forall2 same_warp (engine_warps e) (engine_warps e').
Proof.
  intros Hrun. apply (cycles_same n e e' bs Hrun).
Qed.

Lemma inactive_threads_stay_witness :
  state_at half_idle 0 0 = Some (5, false)
  /\ state_at half_idle 0 1 = Some (0, true)
  /\ snapshot_at half_idle 0 1 1 = Some (Some 0)
  /\ exists bs e',
       cycles 3 half_idle = Some (bs, e')
       /\ Forall2 same_warp (engine_warps half_idle) (engine_warps e')
       /\ thread_at e' 0 0 = thread_at half_idle 0 0
       /\ state_at e' 0 1 = Some (1, true)
       /\ snapshot_at e' 0 1 1 = Some (Some 7).
Proof.
  split; [vm_compute; reflexivity|]. split; [vm_compute; reflexivity|].
  split; [vm_compute; reflexivity|].
  assert (Hobs : option_map
                   (fun '(_, e') =>
                      (thread_at e' 0 0, state_at e' 0 1, snapshot_at e' 0 1 1))
                   (cycles 3 half_idle)
                 = Some (thread_at half_idle 0 0, Some (1, true), Some (Some 7)))
    by (vm_compute; reflexivity).
  destruct (cycles 3 half_idle) as [[bs e']|] eqn:E; [|discriminate Hobs].
  cbn [option_map] in Hobs. injection Hobs as H0 H1 H2.
  exists bs, e'. split; [reflexivity|].
  split; [exact (inactive_threads_stay 3 half_idle e' bs E)|].
  split; [exact H0|]. split; [exact H1|exact H2].
Defined.

(** X23. The two cycle counters.  After any number of calls of
    [executeCycle] on an engine set up by the constructor,
    [loadInstructions] and [initializeBlocks], the engine's cycle counter
    equals the scheduler's, counts at most the calls made, stays within
    the bound under which the engine was built, and the loaded program
    is still the instruction memory. *)
Theorem cycle_counters_agree (cfg : ExecutionEngine.ExecutionConfig)
    (program : list Z) (blocks : list BlockState) (n : nat)
    (bs : list bool) (e' : ExecutionEngine.t) :
  cycles n (boot cfg program blocks) = Some (bs, e') ->
  ExecutionEngine.stats_cycle (ExecutionEngine.getStats e')
  = ThreadScheduler.getCycle (ExecutionEngine.threadScheduler e')
  /\ 0 <= ExecutionEngine.cycle e' <= Z.of_nat n
  /\ ExecutionEngine.cycle e' <= Z.max 0 (ExecutionEngine.effective_maxCycles cfg)
  /\ ExecutionEngine.instructionMemory e' = program.
Proof.
  intros Hrun.
  assert (Hboot : ExecutionEngine.cycle (boot cfg program blocks) = 0
                  /\ ThreadScheduler.getCycle
                       (ExecutionEngine.threadScheduler (boot cfg program blocks)) = 0
                  /\ ExecutionEngine.maxCycles (boot cfg program blocks)
                     = ExecutionEngine.effective_maxCycles cfg
                  /\ ExecutionEngine.instructionMemory (boot cfg program blocks) = program).
  { unfold boot, ExecutionEngine.initializeBlocks.
    destruct (ExecutionEngine.init_blocks _ _). cbn. auto. }
  destruct Hboot as (Hc0 & Hs0 & Hm0 & Hi0).
  destruct (cycles_same _ _ _ _ Hrun) as (_ & Hi & _ & Hc & Hb & Hx).
  rewrite Hc0, Hs0 in Hc. rewrite Hc0 in Hb, Hx. rewrite Hm0 in Hx.
  cbn [ExecutionEngine.getStats ExecutionEngine.stats_cycle].
  repeat split; try lia. congruence.
Qed.

Lemma cycle_counters_agree_witness :
  exists bs e',
    cycles 5 (machine 3 [word_BR_back1]) = Some (bs, e')
    /\ ExecutionEngine.cycle e' <= 3.
Proof.
  assert (Hsome : match cycles 5 (machine 3 [word_BR_back1]) with
                  | Some _ => true
                  | None => false
                  end = true) by (vm_compute; reflexivity).
  destruct (cycles 5 (machine 3 [word_BR_back1])) as [[bs e']|] eqn:E;
    [|discriminate Hsome].
  exists bs, e'. split; [reflexivity|].
  exact (proj1 (proj2 (proj2 (cycle_counters_agree
                  (ExecutionEngine.mkExecutionConfig small_memory (Some 3) None)
                  [word_BR_back1] [one_thread] 5 bs e' E)))).
Defined.

Lemma executeCycle_no_warps (e : ExecutionEngine.t) :
  engine_warps e = [] ->
  exists e', ExecutionEngine.executeCycle e = Some (false, e')
             /\ ExecutionEngine.cycle e' = ExecutionEngine.cycle e
             /\ ExecutionEngine.memory e' = ExecutionEngine.memory e
             /\ ExecutionEngine.registerFile e' = ExecutionEngine.registerFile e
             /\ engine_warps e' = [].
Proof.
  unfold engine_warps. intros Hw. unfold ExecutionEngine.executeCycle.
  destruct (ExecutionEngine.maxCycles e <=? ExecutionEngine.cycle e).
  - exists e. auto.
  - unfold ThreadScheduler.getNextWarp. rewrite Hw.
    eexists. split; [reflexivity|]. cbn. auto.
Qed.

(** X24. An engine without warps does nothing.  After [reset], whatever
    the engine was and whatever program it holds, and likewise before
    any blocks are initialised, [run] makes one call of [executeCycle],
    which returns false, and returns a state with the cycle counter and
    memory unchanged: after [reset], cycle 0 and a memory of zeros of the
    old length.  The loaded program is not run again. *)
Theorem run_after_reset_does_nothing (e : ExecutionEngine.t) (fuel : nat) :
  exists st e',
    ExecutionEngine.run_loop (S fuel) (ExecutionEngine.reset e)
    = Some (ExecutionEngine.Returned st e', 1%nat)
    /\ ExecutionEngine.gpu_cycle st = 0
    /\ ExecutionEngine.gpu_memory st = JS.fill (ExecutionEngine.memory e) 0
    /\ ExecutionEngine.registerFile e' = ∅
    /\ engine_warps e' = []
    /\ (forall cfg program,
          exists st0 e0,
            ExecutionEngine.run_loop (S fuel)
              (ExecutionEngine.loadInstructions program (ExecutionEngine.new cfg))
            = Some (ExecutionEngine.Returned st0 e0, 1%nat)
            /\ ExecutionEngine.gpu_cycle st0 = 0).
Proof.
  destruct (executeCycle_no_warps (ExecutionEngine.reset e) eq_refl)
    as (e' & Hexec & Hc & Hm & Hr & Hw).
  exists (ExecutionEngine.getState e'), e'. cbn [ExecutionEngine.run_loop].
  rewrite Hexec. split; [reflexivity|].
  cbn [ExecutionEngine.getState ExecutionEngine.gpu_cycle ExecutionEngine.gpu_memory].
  rewrite Hc, Hm, Hr. repeat split; try assumption.
  intros cfg program.
  destruct (executeCycle_no_warps
              (ExecutionEngine.loadInstructions program (ExecutionEngine.new cfg)) eq_refl)
    as (e0 & Hexec0 & Hc0 & _).
  exists (ExecutionEngine.getState e0), e0. rewrite Hexec0. split; [reflexivity|].
  cbn [ExecutionEngine.getState ExecutionEngine.gpu_cycle]. rewrite Hc0. reflexivity.
Qed.

(** ** Instruction words at work *)

Lemma field_in_bank (x : Z) : in_bank (x mod 2 ^ 4) = true.
Proof.
  unfold in_bank. pose proof (Z.mod_pos_bound x (2 ^ 4) ltac:(lia)).
  apply andb_true_iff. split; [apply Z.leb_le|apply Z.ltb_lt]; lia.
Qed.

Lemma sixteen_each_operand2 (threadId rs2' : Z) (rf : RegisterFile.t) :
  sixteen_each rf -> sixteen_each (snd (ExecutionUnit.operand2 threadId rs2' rf)).
Proof.
  intros H. unfold ExecutionUnit.operand2. destruct (rs2' <? 16); [|exact H].
  apply sixteen_each_read. exact H.
Qed.

(** X25. CONST through the decoder.  Executing the decoded form of any
    word with opcode byte 0x01, on a register file with sixteen registers
    per thread, writes the sign-extended low half of the word to the
    register named by bits 23-20, for the executing thread only, steps
    the PC by one and touches neither cache nor memory. *)
Theorem decoded_CONST_sets_register (w : Z) (ctx : Instructions.InstructionContext) :
  opcode_byte w = 0x01 ->
  sixteen_each (Instructions.registerFile ctx) ->
  exists ctx',
    Instructions.executeInstruction (InstructionDecoder.decode (Some w)) ctx
    = Some (Instructions.fallthrough ctx, ctx')
    /\ registers_updated ctx ctx' (InstructionDecoder.getRd (Some w)) (Some (signed16 w))
    /\ Instructions.cache ctx' = Instructions.cache ctx
    /\ Instructions.memory ctx' = Instructions.memory ctx
    /\ Instructions.thread ctx' = Instructions.thread ctx.
Proof.
  intros Hop Hrf. unfold InstructionDecoder.decode.
  rewrite (decode_by_opcode w _ Hop).
  cbn [InstructionDecoder.opcodeToString].
  eexists. split; [reflexivity|].
  unfold registers_updated.
  cbn -[reg_value RegisterFile.write InstructionDecoder.getRd
        InstructionDecoder.getImmediate].
  repeat split.
  intros t' r'. rewrite reg_value_write by exact Hrf.
  rewrite getImmediate_spec. rewrite getRd_spec at 1. rewrite field_in_bank.
  reflexivity.
Qed.

Lemma decoded_CONST_sets_register_witness :
  opcode_byte 0x0130fffe = 0x01
  /\ sixteen_each RegisterFile.empty
  /\ exists ctx',
       Instructions.executeInstruction (InstructionDecoder.decode (Some 0x0130fffe))
         (Instructions.mkContext (mkThreadState 7 0 0 [] true) RegisterFile.empty None
                                 (JS.filled 4 0))
       = Some (Instructions.mkResult 1 false None, ctx')
       /\ reg_value (Instructions.registerFile ctx') 7 3 = Some (-2).
Proof.
  assert (Hop : opcode_byte 0x0130fffe = 0x01) by reflexivity.
  split; [exact Hop|]. split; [exact sixteen_each_empty|].
  destruct (decoded_CONST_sets_register 0x0130fffe
              (Instructions.mkContext (mkThreadState 7 0 0 [] true) RegisterFile.empty None
                                      (JS.filled 4 0))
              Hop sixteen_each_empty) as (ctx' & Hexec & Hregs & _).
  exists ctx'. split; [exact Hexec|]. exact (Hregs 7 3).
Defined.

(** X26. The ALU opcodes through the decoder.  Executing the decoded
    form of any word with opcode byte 0x02 to 0x08 takes both operands
    from registers of the executing thread - the second source of a
    decoded word is below 16, so never an immediate - and writes the
    result of the operation to the destination register, for that thread
    only; PC plus one, cache and memory untouched.  For ADD and SUB on
    numbers, the value written is the sum or difference modulo 2^32. *)
Theorem decoded_ALU_writes_result (w : Z) (ctx : Instructions.InstructionContext) :
  0x02 <= opcode_byte w <= 0x08 ->
  sixteen_each (Instructions.registerFile ctx) ->
  let op := InstructionDecoder.opcodeToString (opcode_byte w) in
  let v1 := reg_value (Instructions.registerFile ctx) (id (Instructions.thread ctx))
                      (InstructionDecoder.getRs1 (Some w)) in
  let v2 := reg_value (Instructions.registerFile ctx) (id (Instructions.thread ctx))
                      (InstructionDecoder.getRs2 (Some w)) in
  exists ctx',
    Instructions.executeInstruction (InstructionDecoder.decode (Some w)) ctx
    = Some (Instructions.fallthrough ctx, ctx')
    /\ registers_updated ctx ctx' (InstructionDecoder.getRd (Some w))
         (Some (ExecutionUnit.result (ExecutionUnit.alu op v1 v2)))
    /\ Instructions.cache ctx' = Instructions.cache ctx
    /\ Instructions.memory ctx' = Instructions.memory ctx
    /\ (forall a b, v1 = Some a -> v2 = Some b ->
          (opcode_byte w = 0x02 ->
           ExecutionUnit.result (ExecutionUnit.alu op v1 v2) = (a + b) mod 2 ^ 32)
          /\ (opcode_byte w = 0x03 ->
              ExecutionUnit.result (ExecutionUnit.alu op v1 v2) = (a - b) mod 2 ^ 32)).
Proof.
  intros Hop Hrf. cbn zeta.
  set (tid := id (Instructions.thread ctx)).
  set (rf := Instructions.registerFile ctx) in *.
  assert (Hexec : forall op,
             In op [ADD; SUB; MUL; DIV; AND; OR; XOR] ->
             exists ctx',
               Instructions.executeALU
                 (mkInstruction op (Some (InstructionDecoder.getRd (Some w)))
                    (Some (InstructionDecoder.getRs1 (Some w)))
                    (Some (InstructionDecoder.getRs2 (Some w))) None) ctx
               = (Instructions.fallthrough ctx, ctx')
               /\ registers_updated ctx ctx' (InstructionDecoder.getRd (Some w))
                    (Some (ExecutionUnit.result
                             (ExecutionUnit.alu op
                                (reg_value rf tid (InstructionDecoder.getRs1 (Some w)))
                                (reg_value rf tid (InstructionDecoder.getRs2 (Some w))))))
               /\ Instructions.cache ctx' = Instructions.cache ctx
               /\ Instructions.memory ctx' = Instructions.memory ctx).
  { intros op _. unfold Instructions.executeALU, ExecutionUnit.executeALU.
    cbn [rd rs1 rs2 opcode]. fold tid. fold rf.
    pose proof (read_preserves_values rf tid (InstructionDecoder.getRs1 (Some w))) as Hp1.
    pose proof (sixteen_each_read tid (InstructionDecoder.getRs1 (Some w)) rf Hrf) as Hs1.
    unfold reg_value at 1 in Hp1.
    change (fst (RegisterFile.read tid (InstructionDecoder.getRs1 (Some w)) rf))
      with (reg_value rf tid (InstructionDecoder.getRs1 (Some w))).
    assert (Hv1 : fst (RegisterFile.read tid (InstructionDecoder.getRs1 (Some w)) rf)
                  = reg_value rf tid (InstructionDecoder.getRs1 (Some w))) by reflexivity.
    destruct (RegisterFile.read tid (InstructionDecoder.getRs1 (Some w)) rf)
      as [val1 rf1]. cbn [fst snd] in *.
    pose proof (operand2_preserves_values rf1 tid (InstructionDecoder.getRs2 (Some w))) as Hp2.
    pose proof (sixteen_each_operand2 tid (InstructionDecoder.getRs2 (Some w)) rf1 Hs1) as Hs2.
    assert (Hv2 : fst (ExecutionUnit.operand2 tid (InstructionDecoder.getRs2 (Some w)) rf1)
                  = reg_value rf tid (InstructionDecoder.getRs2 (Some w))).
    { unfold ExecutionUnit.operand2.
      assert (Hlt : (InstructionDecoder.getRs2 (Some w) <? 16) = true).
      { apply Z.ltb_lt. rewrite getRs2_spec.
        pose proof (Z.mod_pos_bound ((w mod 2 ^ 32) / 2 ^ 12) (2 ^ 4) ltac:(lia)). lia. }
      rewrite Hlt. change (fst (RegisterFile.read tid (InstructionDecoder.getRs2 (Some w)) rf1))
        with (reg_value rf1 tid (InstructionDecoder.getRs2 (Some w))).
      apply Hp1. }
    destruct (ExecutionUnit.operand2 tid (InstructionDecoder.getRs2 (Some w)) rf1)
      as [val2 rf2]. cbn [fst snd] in *.
    eexists. split; [reflexivity|].
    unfold registers_updated.
    cbn -[reg_value RegisterFile.write InstructionDecoder.getRd InstructionDecoder.getRs1
          InstructionDecoder.getRs2 ExecutionUnit.alu].
    repeat split.
    intros t' r'. fold tid. fold rf. rewrite reg_value_write by exact Hs2.
    rewrite getRd_spec at 1. rewrite field_in_bank. cbn [andb].
    rewrite Hv1, Hv2.
    destruct ((t' =? tid) && (r' =? InstructionDecoder.getRd (Some w))); [reflexivity|].
    rewrite Hp2. apply Hp1. }
  unfold InstructionDecoder.decode.
  rewrite (decode_by_opcode w _ eq_refl). fold (opcode_byte w).
  assert (Hcases : opcode_byte w = 2 \/ opcode_byte w = 3 \/ opcode_byte w = 4
                   \/ opcode_byte w = 5 \/ opcode_byte w = 6 \/ opcode_byte w = 7
                   \/ opcode_byte w = 8) by lia.
  destruct Hcases as [E|[E|[E|[E|[E|[E|E]]]]]]; rewrite E;
    match goal with
    | |- context [InstructionDecoder.opcodeToString ?n] =>
        let op := eval vm_compute in (InstructionDecoder.opcodeToString n) in
        change (InstructionDecoder.opcodeToString n) with op
    end;
    cbv beta iota;
    match goal with
    | |- context [mkInstruction ?op _ _ _ _] =>
        destruct (Hexec op ltac:(cbn; tauto)) as (ctx' & Hx & Hregs & Hc & Hm)
    end;
    exists ctx'; (split; [cbn [Instructions.executeInstruction opcode]; rewrite Hx; reflexivity|]);
    (split; [exact Hregs|]); (split; [exact Hc|]); (split; [exact Hm|]);
    intros a b -> ->; split; intros Hb; try discriminate Hb; reflexivity.
Qed.

Lemma decoded_ALU_writes_result_witness :
  0x02 <= opcode_byte 0x03312000 <= 0x08
  /\ sixteen_each (RegisterFile.write 7 2 (Some 5)
                     (RegisterFile.write 7 1 (Some 3) RegisterFile.empty))
  /\ reg_value (RegisterFile.write 7 2 (Some 5)
                  (RegisterFile.write 7 1 (Some 3) RegisterFile.empty)) 7 3
     = Some 0
  /\ exists ctx',
       Instructions.executeInstruction (InstructionDecoder.decode (Some 0x03312000))
         (Instructions.mkContext (mkThreadState 7 0 0 [] true)
            (RegisterFile.write 7 2 (Some 5)
               (RegisterFile.write 7 1 (Some 3) RegisterFile.empty))
            None (JS.filled 4 0))
       = Some (Instructions.mkResult 1 false None, ctx')
       /\ reg_value (Instructions.registerFile ctx') 7 3 = Some 4294967294
       /\ reg_value (Instructions.registerFile ctx') 7 1 = Some 3
       /\ reg_value (Instructions.registerFile ctx') 7 2 = Some 5.
Proof.
  assert (Hop : 0x02 <= opcode_byte 0x03312000 <= 0x08) by (vm_compute; split; discriminate).
  assert (Hrf : sixteen_each (RegisterFile.write 7 2 (Some 5)
                                (RegisterFile.write 7 1 (Some 3) RegisterFile.empty)))
    by (do 2 apply sixteen_each_write; exact sixteen_each_empty).
  split; [exact Hop|]. split; [exact Hrf|]. split; [vm_compute; reflexivity|].
  destruct (decoded_ALU_writes_result 0x03312000
              (Instructions.mkContext (mkThreadState 7 0 0 [] true)
                 (RegisterFile.write 7 2 (Some 5)
                    (RegisterFile.write 7 1 (Some 3) RegisterFile.empty))
                 None (JS.filled 4 0))
              Hop Hrf) as (ctx' & Hexec & Hregs & _).
  exists ctx'. split; [exact Hexec|].
  rewrite (Hregs 7 3), (Hregs 7 1), (Hregs 7 2).
  repeat split; vm_compute; reflexivity.
Defined.

Lemma branch_condition_spec (x : JS.value) :
  (Instructions.branch_condition BRz x = true <-> x = Some 0)
  /\ (Instructions.branch_condition BRnz x = true <-> x <> Some 0)
  /\ (Instructions.branch_condition BRn x = true <-> JS.int32_of x < 0)
  /\ (Instructions.branch_condition BRp x = true <-> x <> Some 0 /\ 0 <= JS.int32_of x).
Proof.
  assert (Hneg : negb (Z.land (JS.int32_of x) (JS.ToInt32 0x80000000) =? 0)
                 = (JS.int32_of x <? 0)).
  { change (JS.ToInt32 0x80000000) with (- 2 ^ 31).
    assert (Hr : - 2 ^ 31 <= JS.int32_of x < 2 ^ 31).
    { destruct x as [x|]; cbn [JS.int32_of]; [apply ToInt32_range|lia]. }
    rewrite (land_sign_mask _ Hr). destruct (JS.int32_of x <? 0); reflexivity. }
  assert (Hz : (match x with Some 0 => true | _ => false end) = true <-> x = Some 0).
  { destruct x as [[| |]|]; split; intros H; try discriminate H; reflexivity. }
  unfold Instructions.branch_condition. cbv zeta. rewrite Hneg. clear Hneg.
  destruct (match x with Some 0 => true | _ => false end) eqn:Ez.
  - assert (Hx : x = Some 0) by (apply Hz; reflexivity). subst x.
    change (JS.int32_of (Some 0)) with 0. cbn.
    repeat split; try discriminate; try lia; try tauto; try congruence.
  - assert (Hx : x <> Some 0) by (intros Hx; apply Hz in Hx; discriminate Hx).
    cbn [negb]. rewrite andb_true_r.
    destruct (Z.ltb_spec (JS.int32_of x) 0) as [Hlt|Hge]; cbn [negb].
    + repeat split; try discriminate; try lia; try tauto; try congruence.
    + repeat split; try discriminate; try lia; try tauto; try congruence.
Qed.

(** X27. Branches through the decoder.  Executing the decoded form of a
    word with opcode byte 0x0b to 0x0f never fails, asks for no memory
    access and changes no register value.  The branch is relative to the
    PC of the branch itself: taken, it leads to the PC plus the
    sign-extended low half of the word, otherwise to the PC plus one.  BR
    is always taken; BRz exactly when the register named by bits 19-16
    holds 0; BRnz exactly when it does not; BRn exactly when its value
    read as a 32-bit integer is negative; BRp exactly when it is not 0 and
    not negative so read. *)
Theorem decoded_branch_target (w : Z) (ctx : Instructions.InstructionContext) :
  0x0b <= opcode_byte w <= 0x0f ->
  let x := reg_value (Instructions.registerFile ctx) (id (Instructions.thread ctx))
                     (InstructionDecoder.getRs1 (Some w)) in
  exists r ctx',
    Instructions.executeInstruction (InstructionDecoder.decode (Some w)) ctx
    = Some (r, ctx')
    /\ Instructions.nextPC r
       = (if Instructions.shouldBranch r
          then pc (Instructions.thread ctx) + signed16 w
          else pc (Instructions.thread ctx) + 1)
    /\ Instructions.memoryAccess r = None
    /\ (forall t' r', reg_value (Instructions.registerFile ctx') t' r'
                      = reg_value (Instructions.registerFile ctx) t' r')
    /\ (Instructions.shouldBranch r = true <->
        if opcode_byte w =? 0x0b then True
        else if opcode_byte w =? 0x0c then x = Some 0
        else if opcode_byte w =? 0x0d then x <> Some 0
        else if opcode_byte w =? 0x0e then JS.int32_of x < 0
        else x <> Some 0 /\ 0 <= JS.int32_of x).
Proof.
  intros Hop. cbn zeta.
  pose proof (read_preserves_values (Instructions.registerFile ctx)
                (id (Instructions.thread ctx)) (InstructionDecoder.getRs1 (Some w))) as Hkeep.
  remember (reg_value (Instructions.registerFile ctx) (id (Instructions.thread ctx))
                      (InstructionDecoder.getRs1 (Some w))) as x eqn:Hx.
  destruct (branch_condition_spec x) as (Hz & Hnz & Hn & Hp).
  unfold reg_value in Hx.
  unfold InstructionDecoder.decode.
  rewrite (decode_by_opcode w _ eq_refl). fold (opcode_byte w).
  assert (Hcases : opcode_byte w = 11 \/ opcode_byte w = 12 \/ opcode_byte w = 13
                   \/ opcode_byte w = 14 \/ opcode_byte w = 15) by lia.
  destruct Hcases as [E|[E|[E|[E|E]]]]; rewrite E;
    match goal with
    | |- context [InstructionDecoder.opcodeToString ?n] =>
        let op := eval vm_compute in (InstructionDecoder.opcodeToString n) in
        change (InstructionDecoder.opcodeToString n) with op
    end;
    cbv beta iota;
    cbn [Instructions.executeInstruction opcode];
    unfold Instructions.executeBranch; cbn [opcode rs1 immediate Z.eqb Pos.eqb];
    rewrite getImmediate_spec.
  - eexists _, _. split; [reflexivity|]. cbn. repeat split; tauto.
  - destruct (RegisterFile.read _ _ _) as [v rf1]. cbn [fst snd] in *. subst v.
    destruct (Instructions.branch_condition BRz x) eqn:Eb;
      eexists _, _; (split; [reflexivity|]); cbn [Instructions.nextPC
        Instructions.shouldBranch Instructions.memoryAccess Instructions.fallthrough
        Instructions.registerFile Instructions.with_registerFile];
      repeat split; try exact Hkeep; try (apply Hz; assumption);
      try (intros H; discriminate H); try (intros H; apply Hz in H; discriminate H).
  - destruct (RegisterFile.read _ _ _) as [v rf1]. cbn [fst snd] in *. subst v.
    destruct (Instructions.branch_condition BRnz x) eqn:Eb;
      eexists _, _; (split; [reflexivity|]); cbn [Instructions.nextPC
        Instructions.shouldBranch Instructions.memoryAccess Instructions.fallthrough
        Instructions.registerFile Instructions.with_registerFile];
      repeat split; try exact Hkeep; try (apply Hnz; assumption);
      try (intros H; discriminate H); try (intros H; apply Hnz in H; discriminate H).
  - destruct (RegisterFile.read _ _ _) as [v rf1]. cbn [fst snd] in *. subst v.
    destruct (Instructions.branch_condition BRn x) eqn:Eb;
      eexists _, _; (split; [reflexivity|]); cbn [Instructions.nextPC
        Instructions.shouldBranch Instructions.memoryAccess Instructions.fallthrough
        Instructions.registerFile Instructions.with_registerFile];
      repeat split; try exact Hkeep; try (apply Hn; assumption);
      try (intros H; discriminate H); try (intros H; apply Hn in H; discriminate H).
  - destruct (RegisterFile.read _ _ _) as [v rf1]. cbn [fst snd] in *. subst v.
    destruct (Instructions.branch_condition BRp x) eqn:Eb;
      eexists _, _; (split; [reflexivity|]); cbn [Instructions.nextPC
        Instructions.shouldBranch Instructions.memoryAccess Instructions.fallthrough
        Instructions.registerFile Instructions.with_registerFile];
      repeat split; try exact Hkeep; try (apply Hp; assumption);
      try (intros H; discriminate H); try (intros H; apply Hp in H; discriminate H).
Qed.

Lemma decoded_branch_target_witness :
  0x0b <= opcode_byte 0x0e01fffd <= 0x0f
  /\ reg_value (RegisterFile.write 7 1 (Some (-3)) RegisterFile.empty) 7 1
     = Some (-3)
  /\ exists r ctx',
       Instructions.executeInstruction (InstructionDecoder.decode (Some 0x0e01fffd))
         (Instructions.mkContext (mkThreadState 7 0 10 [] true)
            (RegisterFile.write 7 1 (Some (-3)) RegisterFile.empty) None
            (JS.filled 4 0))
       = Some (r, ctx')
       /\ Instructions.shouldBranch r = true
       /\ Instructions.nextPC r = 7.
Proof.
  assert (Hop : 0x0b <= opcode_byte 0x0e01fffd <= 0x0f) by (vm_compute; split; discriminate).
  split; [exact Hop|]. split; [vm_compute; reflexivity|].
  destruct (decoded_branch_target 0x0e01fffd
              (Instructions.mkContext (mkThreadState 7 0 10 [] true)
                 (RegisterFile.write 7 1 (Some (-3)) RegisterFile.empty) None
                 (JS.filled 4 0)) Hop)
    as (r & ctx' & Hexec & Hpc & _ & _ & Htaken).
  assert (Hb : Instructions.shouldBranch r = true).
  { apply Htaken. vm_compute. reflexivity. }
  exists r, ctx'. split; [exact Hexec|]. split; [exact Hb|].
  rewrite Hpc, Hb. vm_compute. reflexivity.
Defined.

(** X28. LDR through the decoder.  With a cache of fewer than 2^30
    lines of four words that mirrors the memory, executing the decoded
    form of a word with opcode byte 0x09 reads the base register, adds
    the sign-extended low half of the word modulo 2^32 and, the address
    being below 2^31, loads the memory word at that address - 0 past the
    end of the memory - into the destination register of the executing
    thread.  The access is reported as a read, the memory is unchanged
    and the cache still mirrors it. *)
Theorem decoded_LDR_loads_memory_word (w : Z) (ctx : Instructions.InstructionContext)
    (c : Cache.t) :
  opcode_byte w = 0x09 ->
  sixteen_each (Instructions.registerFile ctx) ->
  Instructions.cache ctx = Some c ->
  0 < cacheSize (Cache.config c) < 2 ^ 30 ->
  lineSize (Cache.config c) = 4 ->
  well_formed c ->
  mirrors c (Instructions.memory ctx) ->
  let a := Instructions.effective_address
             (reg_value (Instructions.registerFile ctx) (id (Instructions.thread ctx))
                        (InstructionDecoder.getRs1 (Some w)))
             (Some (signed16 w)) in
  addressable a ->
  exists ctx' c',
    Instructions.executeInstruction (InstructionDecoder.decode (Some w)) ctx
    = Some (Instructions.mkResult (pc (Instructions.thread ctx) + 1) false
              (Some (Instructions.mkMemoryAccess a
                       (word_or_zero (Instructions.memory ctx) a) false)),
            ctx')
    /\ registers_updated ctx ctx' (InstructionDecoder.getRd (Some w))
         (word_or_zero (Instructions.memory ctx) a)
    /\ Instructions.memory ctx' = Instructions.memory ctx
    /\ Instructions.cache ctx' = Some c'
    /\ well_formed c' /\ mirrors c' (Instructions.memory ctx).
Proof.
  intros Hop Hrf Hc Hcs Hls Hwf Hmir. cbn zeta. intros Ha.
  unfold InstructionDecoder.decode.
  rewrite (decode_by_opcode w _ Hop).
  change (InstructionDecoder.opcodeToString 9) with LDR. cbv beta iota.
  cbn [Instructions.executeInstruction opcode].
  unfold Instructions.executeLDR. cbn [rd rs1 immediate].
  rewrite getImmediate_spec.
  pose proof (read_preserves_values (Instructions.registerFile ctx)
                (id (Instructions.thread ctx)) (InstructionDecoder.getRs1 (Some w))) as Hkeep.
  pose proof (sixteen_each_read (id (Instructions.thread ctx))
                (InstructionDecoder.getRs1 (Some w)) _ Hrf) as Hrf1.
  remember (reg_value (Instructions.registerFile ctx) (id (Instructions.thread ctx))
                      (InstructionDecoder.getRs1 (Some w))) as x eqn:Hx.
  unfold reg_value in Hx.
  destruct (RegisterFile.read _ _ _) as [baseAddr rf1]. cbn [fst snd] in *. subst baseAddr.
  rewrite Hc.
  destruct (read_returns_memory_word _ c (Instructions.memory ctx) Hcs Hls Hwf Hmir Ha)
    as (h & c1 & Hread & Hwf1 & _ & Hmir1).
  rewrite Hread.
  eexists _, c1. split; [reflexivity|].
  unfold registers_updated.
  cbn -[reg_value RegisterFile.write InstructionDecoder.getRd Instructions.effective_address
        word_or_zero].
  split; [|split; [reflexivity|split; [reflexivity|split; [exact Hwf1|exact Hmir1]]]].
  intros t' r'. rewrite reg_value_write by exact Hrf1.
  rewrite getRd_spec at 1. rewrite field_in_bank. cbn [andb].
  destruct ((t' =? id (Instructions.thread ctx)) && (r' =? InstructionDecoder.getRd (Some w)));
    [reflexivity|apply Hkeep].
Qed.

Lemma decoded_LDR_loads_memory_word_witness :
  exists ctx' c',
    Instructions.executeInstruction (InstructionDecoder.decode (Some word_LDR_R0_R1))
      (Instructions.mkContext (mkThreadState 7 0 0 [] true) RegisterFile.empty
         (Some (Cache.new small_memory)) (JS.filled 64 5))
    = Some (Instructions.mkResult 1 false
              (Some (Instructions.mkMemoryAccess 0 (Some 5) false)), ctx')
    /\ Instructions.cache ctx' = Some c'.
Proof.
  destruct (decoded_LDR_loads_memory_word word_LDR_R0_R1
              (Instructions.mkContext (mkThreadState 7 0 0 [] true) RegisterFile.empty
                 (Some (Cache.new small_memory)) (JS.filled 64 5))
              (Cache.new small_memory))
    as (ctx' & c' & Hexec & _ & _ & Hc & _).
  - reflexivity.
  - exact sixteen_each_empty.
  - reflexivity.
  - cbn. lia.
  - reflexivity.
  - apply new_well_formed.
  - apply new_mirrors.
  - vm_compute. split; [discriminate|reflexivity].
  - exists ctx', c'. split; [exact Hexec|exact Hc].
Defined.

(** ** Divergence after a PC update *)

Lemma existsb_updated (newPC firstPC : Z) (ths : list ThreadState) :
  existsb (fun th => active th && negb (pc th =? firstPC))
          (map (fun th => if active th then with_pc th newPC else th) ths)
  = existsb active ths && negb (newPC =? firstPC).
Proof.
  induction ths as [|th rest IH]; [reflexivity|].
  cbn [map existsb]. rewrite IH.
  destruct (active th) eqn:Ha; cbn [with_pc active pc]; rewrite ?Ha; cbn [andb orb].
  - destruct (newPC =? firstPC); cbn; [|reflexivity].
    rewrite andb_false_r. reflexivity.
  - reflexivity.
Qed.

(** X29. [updateWarpPC] against [isWarpDiverged].  After the PC of a warp
    is updated, the warp counts as diverged exactly when its first thread
    is inactive with another PC and some thread is active: the update
    moves the active threads only, and divergence is measured against the
    first thread, active or not.  The update changes no thread's
    [active] flag and sets the warp's own [pc]. *)
Theorem updateWarpPC_divergence (w : ThreadScheduler.Warp) (newPC : Z) :
  ThreadScheduler.isWarpDiverged (ThreadScheduler.updateWarpPC w newPC)
  = first_left_behind w newPC && existsb active (ThreadScheduler.warp_threads w)
  /\ map active (ThreadScheduler.warp_threads (ThreadScheduler.updateWarpPC w newPC))
     = map active (ThreadScheduler.warp_threads w)
  /\ ThreadScheduler.warp_pc (ThreadScheduler.updateWarpPC w newPC) = newPC
  /\ Forall (fun th => active th = true -> pc th = newPC)
            (ThreadScheduler.warp_threads (ThreadScheduler.updateWarpPC w newPC)).
Proof.
  unfold ThreadScheduler.isWarpDiverged, ThreadScheduler.updateWarpPC, first_left_behind.
  cbn [ThreadScheduler.warp_threads ThreadScheduler.warp_pc].
  split; [|split; [|split; [reflexivity|]]].
  - destruct (ThreadScheduler.warp_threads w) as [|th0 rest] eqn:E; [reflexivity|].
    etransitivity;
      [exact (existsb_updated newPC
                (pc (if active th0 then with_pc th0 newPC else th0)) (th0 :: rest))|].
    destruct (active th0) eqn:Ha; cbn [with_pc pc negb andb].
    + rewrite Z.eqb_refl. cbn. apply andb_false_r.
    + rewrite (Z.eqb_sym newPC (pc th0)). apply andb_comm.
  - rewrite map_map. apply map_ext. intros th. destruct (active th) eqn:Ha; cbn; congruence.
  - apply Forall_forall. intros th Hin. apply list_elem_of_In in Hin.
    apply in_map_iff in Hin as (th1 & <- & _).
    destruct (active th1) eqn:Ha; cbn; [reflexivity|]. rewrite Ha. discriminate.
Qed.
